(** * metadata-retrieval: the paginated GitHub downloader, its in-memory
      store and the Bitbucket migration bridge

    A shallow embedding of
      - [github/store] (the [Mem] backend),
      - [github/downloader.go] (the traversal and its pagination loops),
      - the [migrate] command (the downstream bridge),
    followed by the properties proved about them. *)

From Stdlib Require Import ZArith Lia.
From stdpp Require Import gmap strings list fin_maps pretty.

Local Open Scope string_scope.
Local Open Scope list_scope.
Local Open Scope Z_scope.

(** ** Errors

    Go [error] values.  [fmt.Errorf] flattens its cause into a message; the
    embedding keeps the format string and the cause and leaves the other
    arguments of the format out. *)
Inductive error : Type :=
  | NotFound
  | Opaque (msg : string)
  | Errorf (format : string) (cause : error).

(** ** The GraphQL result types

    Modelled from the spec: the [graphql] package (type declarations only)
    is not under src/.  Each record has the fields that the downloader, the
    store and the bridge read; every connection struct is a list of nodes
    with a [PageInfo]. *)
Module graphql.

Record PageInfo := mkPageInfo { HasNextPage : bool; EndCursor : string }.

Record Connection (N : Type) := mkConnection
  { Nodes : list N; PageInfo_of : PageInfo }.
Arguments mkConnection {N} _ _.
Arguments Nodes {N} _.
Arguments PageInfo_of {N} _.

Record Actor := mkActor { Login : string }.
Record Label := mkLabel { label_Name : string }.
Record Topic := mkTopic { topic_Name : string }.
Record RepositoryTopic := mkRepositoryTopic { rt_Topic : Topic }.
Record Ref := mkRef { ref_Name : string }.

Record IssueComment := mkIssueComment
  { ic_Id : string; ic_Author : Actor; ic_CreatedAt : string; ic_Body : string }.

Record PullRequestReviewComment := mkPullRequestReviewComment
  { rc_Author : Actor; rc_CreatedAt : string; rc_Body : string }.

Record PullRequestReview := mkPullRequestReview
  { rev_Id : string; rev_DatabaseId : Z; rev_Author : Actor;
    rev_SubmittedAt : string; rev_Body : string;
    rev_Comments : Connection PullRequestReviewComment }.

Record Issue := mkIssue
  { issue_Id : string; issue_Number : Z; issue_Title : string;
    issue_Assignees : Connection Actor;
    issue_Labels : Connection Label;
    issue_Comments : Connection IssueComment }.

Record PullRequest := mkPullRequest
  { pr_Id : string; pr_Number : Z; pr_Title : string; pr_Body : string;
    pr_State : string; pr_HeadRef : Ref; pr_BaseRef : Ref;
    pr_Assignees : Connection Actor;
    pr_Labels : Connection Label;
    pr_Comments : Connection IssueComment;
    pr_Reviews : Connection PullRequestReview }.

Record RepositoryFields := mkRepositoryFields
  { repo_Id : string; repo_Owner : Actor; repo_Name : string;
    repo_NameWithOwner : string }.

Record Repository := mkRepository
  { repo_Fields : RepositoryFields;
    repo_RepositoryTopics : Connection RepositoryTopic;
    repo_Issues : Connection Issue;
    repo_PullRequests : Connection PullRequest }.

Record UserExtended := mkUserExtended { user_Login : string }.

Record Organization := mkOrganization
  { org_Login : string; org_MembersWithRole : Connection UserExtended }.

End graphql.
Import graphql.

(** ** Go maps

    A Go map value is [nil] or a reference to a table.  Reading a [nil] map
    yields the zero value and [ok = false]; assigning into a [nil] map
    panics.  [None] is the [nil] map. *)
Module gomap.

Definition t (K : Type) `{Countable K} (V : Type) : Type := option (gmap K V).

Section ops.
Context {K : Type} `{Countable K} {V : Type}.

(** [make(map[K]V)] *)
Definition make : t K V := Some ∅.

(** [v, ok := m[k]] *)
Definition get (m : t K V) (k : K) : option V :=
  match m with
  | None => None
  | Some g => g !! k
  end.

(** [m[k] = v]; [None] is the panic of an assignment to a nil map. *)
Definition set (m : t K V) (k : K) (v : V) : option (t K V) :=
  match m with
  | None => None
  | Some g => Some (Some (<[k := v]> g))
  end.
End ops.

End gomap.

(** ** Results of a call into a store

    A method of the [storer] interface returns [nil], returns an error, or
    panics. *)
Inductive status : Type :=
  | OK
  | Fail (e : error)
  | Panicked.

(** ** github/store: the in-memory backend *)
Module store.

(** One [fmt.Printf] call: the format string and its arguments.  The
    package's [trim] is not under src/, so a trimmed body is kept as
    [Trimmed s]. *)
Inductive arg := Str (s : string) | Int (z : Z) | Trimmed (s : string).
Record printf := mkPrintf { format : string; args : list arg }.

Record PullRequestReview := mkPullRequestReview
  { PullRequestReview_of : graphql.PullRequestReview;
    review_Comments : list graphql.PullRequestReviewComment }.

Record PullRequest := mkPullRequest
  { PullRequest_of : graphql.PullRequest;
    Assignees : list string;
    Labels : list string;
    Comments : list graphql.IssueComment;
    Reviews : gomap.t Z PullRequestReview }.

Record Repo := mkRepo
  { RepositoryFields_of : graphql.RepositoryFields;
    Topics : list string;
    PRs : gomap.t Z PullRequest }.

(** [Mem]: the [Repos] field, and the standard output the methods print
    to.  The mutex is left out: every run modelled here is sequential.
    The nested maps are modelled as a tree; the states the methods build
    from [make] never share one map object between two places. *)
Record Mem := mkMem
  { Repos : gomap.t string (gomap.t string Repo);
    Stdout : list printf }.

Definition print (m : Mem) (p : printf) : Mem :=
  {| Repos := Repos m; Stdout := Stdout m ++ [p] |}.

Definition with_Repos (m : Mem) (r : gomap.t string (gomap.t string Repo)) : Mem :=
  {| Repos := r; Stdout := Stdout m |}.

(** [m.Repos[owner]]: the inner map, [nil] when the owner is absent. *)
Definition owner_map (m : Mem) (owner : string) : gomap.t string Repo :=
  default None (gomap.get (Repos m) owner).

(** [m.Repos[owner][name]] with its [ok]. *)
Definition repo_at (m : Mem) (owner name : string) : option Repo :=
  gomap.get (owner_map m owner) name.

(** [m.Repos[owner][name].PRs]: [nil] for the zero [Repo]. *)
Definition prs_at (m : Mem) (owner name : string) : gomap.t Z PullRequest :=
  match repo_at m owner name with
  | Some r => PRs r
  | None => None
  end.

(** [m.Repos[owner][name].PRs[number]] with its [ok]. *)
Definition pr_at (m : Mem) (owner name : string) (number : Z) : option PullRequest :=
  gomap.get (prs_at m owner name) number.

(** [m.Repos[owner][name].PRs[number].Reviews]. *)
Definition reviews_at (m : Mem) (owner name : string) (number : Z)
  : gomap.t Z PullRequestReview :=
  match pr_at m owner name number with
  | Some p => Reviews p
  | None => None
  end.

Definition review_at (m : Mem) (owner name : string) (number id : Z)
  : option PullRequestReview :=
  gomap.get (reviews_at m owner name number) id.

(** [m.Repos[owner][name] = r], the inner map being [inner]. *)
Definition store_repo (m : Mem) (inner : gomap.t string Repo)
    (owner name : string) (r : Repo) : Mem * status :=
  match gomap.set inner name r with
  | None => (m, Panicked)
  | Some inner' =>
      match gomap.set (Repos m) owner inner' with
      | None => (m, Panicked)
      | Some repos' => (with_Repos m repos', OK)
      end
  end.

(** [m.Repos[owner][name].PRs[number] = p]: the assignment goes through
    the map the stored [Repo] refers to. *)
Definition store_pr (m : Mem) (owner name : string) (number : Z) (p : PullRequest)
  : Mem * status :=
  match repo_at m owner name with
  | None => (m, Panicked)
  | Some r =>
      match gomap.set (PRs r) number p with
      | None => (m, Panicked)
      | Some prs' =>
          store_repo m (owner_map m owner) owner name
            {| RepositoryFields_of := RepositoryFields_of r;
               Topics := Topics r; PRs := prs' |}
      end
  end.

Definition SaveOrganization (organization : graphql.Organization) (m : Mem)
  : Mem * status :=
  (print m (mkPrintf "organization data fetched for %s\n"
              [Str (org_Login organization)]), OK).

Definition SaveUser (user : graphql.UserExtended) (m : Mem) : Mem * status :=
  (print m (mkPrintf "user data fetched for %s\n" [Str (user_Login user)]), OK).

Definition SaveRepository (repository : graphql.RepositoryFields)
    (topics : list string) (m : Mem) : Mem * status :=
  let m := print m (mkPrintf "repository data fetched for %s/%s\n"
                      [Str (Login (repo_Owner repository)); Str (repo_Name repository)]) in
  let owner := Login (repo_Owner repository) in
  let r := {| RepositoryFields_of := repository; Topics := topics;
              PRs := gomap.make |} in
  match gomap.get (Repos m) owner with
  | None =>
      match gomap.set (Repos m) owner gomap.make with
      | None => (m, Panicked)
      | Some repos' => store_repo (with_Repos m repos') gomap.make owner (repo_Name repository) r
      end
  | Some inner => store_repo m inner owner (repo_Name repository) r
  end.

Definition SaveIssue (repositoryOwner repositoryName : string)
    (issue : graphql.Issue) (assignees labels : list string) (m : Mem)
  : Mem * status :=
  (print m (mkPrintf "issue data fetched for #%v %s\n"
              [Int (issue_Number issue); Str (issue_Title issue)]), OK).

Definition SaveIssueComment (repositoryOwner repositoryName : string)
    (issueNumber : Z) (comment : graphql.IssueComment) (m : Mem) : Mem * status :=
  (print m (mkPrintf "  issue comment data fetched by %s at %v: %q\n"
              [Str (Login (ic_Author comment)); Str (ic_CreatedAt comment);
               Trimmed (ic_Body comment)]), OK).

Definition SavePullRequest (repositoryOwner repositoryName : string)
    (pr : graphql.PullRequest) (assignees labels : list string) (m : Mem)
  : Mem * status :=
  let m := print m (mkPrintf "PR data fetched for #%v %s\n"
                      [Int (pr_Number pr); Str (pr_Title pr)]) in
  match repo_at m repositoryOwner repositoryName with
  | None => (m, Fail NotFound)
  | Some _ =>
      store_pr m repositoryOwner repositoryName (pr_Number pr)
        {| PullRequest_of := pr; Assignees := assignees; Labels := labels;
           Comments := []; Reviews := gomap.make |}
  end.

Definition SavePullRequestComment (repositoryOwner repositoryName : string)
    (pullRequestNumber : Z) (comment : graphql.IssueComment) (m : Mem)
  : Mem * status :=
  let m := print m (mkPrintf "  pr comment data fetched by %s at %v: %q\n"
                      [Str (Login (ic_Author comment)); Str (ic_CreatedAt comment);
                       Trimmed (ic_Body comment)]) in
  match pr_at m repositoryOwner repositoryName pullRequestNumber with
  | None => (m, Fail NotFound)
  | Some tmpPR =>
      let tmpPR :=
        {| PullRequest_of := PullRequest_of tmpPR; Assignees := Assignees tmpPR;
           Labels := Labels tmpPR; Comments := Comments tmpPR ++ [comment];
           Reviews := Reviews tmpPR |} in
      store_pr m repositoryOwner repositoryName pullRequestNumber tmpPR
  end.

Definition SavePullRequestReview (repositoryOwner repositoryName : string)
    (pullRequestNumber : Z) (review : graphql.PullRequestReview) (m : Mem)
  : Mem * status :=
  let m := print m (mkPrintf "  PR Review data fetched by %s at %v: %q\n"
                      [Str (Login (rev_Author review)); Str (rev_SubmittedAt review);
                       Trimmed (rev_Body review)]) in
  match pr_at m repositoryOwner repositoryName pullRequestNumber with
  | None => (m, Fail NotFound)
  | Some tmpPR =>
      match gomap.set (Reviews tmpPR) (rev_DatabaseId review)
              {| PullRequestReview_of := review; review_Comments := [] |} with
      | None => (m, Panicked)
      | Some reviews' =>
          store_pr m repositoryOwner repositoryName pullRequestNumber
            {| PullRequest_of := PullRequest_of tmpPR; Assignees := Assignees tmpPR;
               Labels := Labels tmpPR; Comments := Comments tmpPR;
               Reviews := reviews' |}
      end
  end.

Definition SavePullRequestReviewComment (repositoryOwner repositoryName : string)
    (pullRequestNumber pullRequestReviewId : Z)
    (comment : graphql.PullRequestReviewComment) (m : Mem) : Mem * status :=
  let m := print m (mkPrintf "    PR review comment data fetched by %s at %v: %q\n"
                      [Str (Login (rc_Author comment)); Str (rc_CreatedAt comment);
                       Trimmed (rc_Body comment)]) in
  match review_at m repositoryOwner repositoryName pullRequestNumber pullRequestReviewId with
  | None => (m, Fail NotFound)
  | Some tmpReview =>
      let tmpReview :=
        {| PullRequestReview_of := PullRequestReview_of tmpReview;
           review_Comments := review_Comments tmpReview ++ [comment] |} in
      match pr_at m repositoryOwner repositoryName pullRequestNumber with
      | None => (m, Panicked)
      | Some p =>
          match gomap.set (Reviews p) pullRequestReviewId tmpReview with
          | None => (m, Panicked)
          | Some reviews' =>
              store_pr m repositoryOwner repositoryName pullRequestNumber
                {| PullRequest_of := PullRequest_of p; Assignees := Assignees p;
                   Labels := Labels p; Comments := Comments p;
                   Reviews := reviews' |}
          end
      end
  end.

Definition Begin (m : Mem) : Mem * status := (m, OK).
Definition Commit (m : Mem) : Mem * status := (m, OK).
Definition Rollback (m : Mem) : Mem * status := (m, OK).
Definition Version (v : Z) (m : Mem) : Mem := m.
Definition SetActiveVersion (v : Z) (m : Mem) : Mem * status := (m, OK).
Definition Cleanup (currentVersion : Z) (m : Mem) : Mem * status := (m, OK).

End store.

(** ** github/downloader.go *)
Module github.

Definition assigneesPage : Z := 2.
Definition issueCommentsPage : Z := 10.
Definition issuesPage : Z := 50.
Definition labelsPage : Z := 2.
Definition membersWithRolePage : Z := 100.
Definition pullRequestReviewCommentsPage : Z := 5.
Definition pullRequestReviewsPage : Z := 5.
Definition pullRequestsPage : Z := 50.
Definition repositoryTopicsPage : Z := 50.

(** The [storer] interface, over the state [S] of a backend. *)
Class storer (S : Type) := mkStorer
  { SaveOrganization : Organization → S → S * status;
    SaveUser : UserExtended → S → S * status;
    SaveRepository : RepositoryFields → list string → S → S * status;
    SaveIssue : string → string → Issue → list string → list string → S → S * status;
    SaveIssueComment : string → string → Z → IssueComment → S → S * status;
    SavePullRequest :
      string → string → PullRequest → list string → list string → S → S * status;
    SavePullRequestComment : string → string → Z → IssueComment → S → S * status;
    SavePullRequestReview : string → string → Z → PullRequestReview → S → S * status;
    SavePullRequestReviewComment :
      string → string → Z → Z → PullRequestReviewComment → S → S * status;
    Begin : S → S * status;
    Commit : S → S * status;
    Rollback : S → S * status;
    Version : Z → S → S;
    SetActiveVersion : Z → S → S * status;
    Cleanup : Z → S → S * status }.

(** [NewMemDownloader]: the [storer] is a [store.Mem]. *)
#[export] Instance Mem_storer : storer store.Mem :=
  {| SaveOrganization := store.SaveOrganization;
     SaveUser := store.SaveUser;
     SaveRepository := store.SaveRepository;
     SaveIssue := store.SaveIssue;
     SaveIssueComment := store.SaveIssueComment;
     SavePullRequest := store.SavePullRequest;
     SavePullRequestComment := store.SavePullRequestComment;
     SavePullRequestReview := store.SavePullRequestReview;
     SavePullRequestReviewComment := store.SavePullRequestReviewComment;
     Begin := store.Begin;
     Commit := store.Commit;
     Rollback := store.Rollback;
     Version := store.Version;
     SetActiveVersion := store.SetActiveVersion;
     Cleanup := store.Cleanup |}.

Definition NewMemDownloader : store.Mem :=
  {| store.Repos := gomap.make; store.Stdout := [] |}.

(** One call through the [storer] interface, with its arguments. *)
Inductive Call : Type :=
  | CVersion (v : Z)
  | CBegin
  | CCommit
  | CRollback
  | CSetActiveVersion (v : Z)
  | CCleanup (currentVersion : Z)
  | CSaveOrganization (organization : Organization)
  | CSaveUser (user : UserExtended)
  | CSaveRepository (repository : RepositoryFields) (topics : list string)
  | CSaveIssue (owner name : string) (issue : Issue) (assignees labels : list string)
  | CSaveIssueComment (owner name : string) (issueNumber : Z) (comment : IssueComment)
  | CSavePullRequest (owner name : string) (pr : PullRequest)
      (assignees labels : list string)
  | CSavePullRequestComment (owner name : string) (pullRequestNumber : Z)
      (comment : IssueComment)
  | CSavePullRequestReview (owner name : string) (pullRequestNumber : Z)
      (review : PullRequestReview)
  | CSavePullRequestReviewComment (owner name : string)
      (pullRequestNumber pullRequestReviewId : Z) (comment : PullRequestReviewComment).

Definition invoke {S} `{storer S} (c : Call) (s : S) : S * status :=
  match c with
  | CVersion v => (Version v s, OK)
  | CBegin => Begin s
  | CCommit => Commit s
  | CRollback => Rollback s
  | CSetActiveVersion v => SetActiveVersion v s
  | CCleanup v => Cleanup v s
  | CSaveOrganization o => SaveOrganization o s
  | CSaveUser u => SaveUser u s
  | CSaveRepository r t => SaveRepository r t s
  | CSaveIssue o n i a l => SaveIssue o n i a l s
  | CSaveIssueComment o n k c => SaveIssueComment o n k c s
  | CSavePullRequest o n p a l => SavePullRequest o n p a l s
  | CSavePullRequestComment o n k c => SavePullRequestComment o n k c s
  | CSavePullRequestReview o n k r => SavePullRequestReview o n k r s
  | CSavePullRequestReviewComment o n k r c => SavePullRequestReviewComment o n k r c s
  end.

(** The queries sent through [d.client.Query]: the root queries, and one
    query per paginated connection, with the node it is asked of, the page
    size and the cursor ([variables] holds nothing else that changes
    between two calls of one loop). *)
Inductive Query : Type :=
  | QRepository (owner name : string)
  | QRepositoryTopics (id : string) (page : Z) (cursor : string)
  | QIssues (id : string) (page : Z) (cursor : string)
  | QIssueAssignees (id : string) (page : Z) (cursor : string)
  | QIssueLabels (id : string) (page : Z) (cursor : string)
  | QIssueComments (id : string) (page : Z) (cursor : string)
  | QPullRequests (id : string) (page : Z) (cursor : string)
  | QPullRequestAssignees (id : string) (page : Z) (cursor : string)
  | QPullRequestLabels (id : string) (page : Z) (cursor : string)
  | QPullRequestComments (id : string) (page : Z) (cursor : string)
  | QPullRequestReviews (id : string) (page : Z) (cursor : string)
  | QPullRequestReviewComments (id : string) (page : Z) (cursor : string)
  | QOrganization (login : string)
  | QMembersWithRole (login : string) (page : Z) (cursor : string).

(** The struct each query fills. *)
Definition Response (q : Query) : Type :=
  match q with
  | QRepository _ _ => Repository
  | QRepositoryTopics _ _ _ => Connection RepositoryTopic
  | QIssues _ _ _ => Connection Issue
  | QIssueAssignees _ _ _ => Connection Actor
  | QIssueLabels _ _ _ => Connection Label
  | QIssueComments _ _ _ => Connection IssueComment
  | QPullRequests _ _ _ => Connection PullRequest
  | QPullRequestAssignees _ _ _ => Connection Actor
  | QPullRequestLabels _ _ _ => Connection Label
  | QPullRequestComments _ _ _ => Connection IssueComment
  | QPullRequestReviews _ _ _ => Connection PullRequestReview
  | QPullRequestReviewComments _ _ _ => Connection PullRequestReviewComment
  | QOrganization _ => Organization
  | QMembersWithRole _ _ _ => Connection UserExtended
  end.

(** What a run does, in order: calls into the store with their result,
    queries with their error if any. *)
Inductive Event : Type :=
  | EvCall (c : Call) (st : status)
  | EvQuery (q : Query) (err : option error).

(** The GitHub client behind the retrying transport: an answer or an error
    for every query, which may depend on everything that happened before. *)
Definition Client : Type := list Event → ∀ q : Query, error + Response q.

(** *** Runs

    A Go function returns normally, returns an error, or panics; a
    pagination loop that the server never lets finish is [OutOfFuel]. *)
Inductive outcome (A : Type) : Type :=
  | Ret (a : A)
  | Err (e : error)
  | Panic
  | OutOfFuel.
Arguments Ret {A} _.
Arguments Err {A} _.
Arguments Panic {A}.
Arguments OutOfFuel {A}.

Record Run (S A : Type) := mkRun
  { out : outcome A; final : S; emitted : list Event }.
Arguments mkRun {S A} _ _ _.
Arguments out {S A} _.
Arguments final {S A} _.
Arguments emitted {S A} _.

(** A computation reads the history so far and the state of the store. *)
Definition M (S A : Type) : Type := list Event → S → Run S A.

Definition ret {S A} (a : A) : M S A := fun _ s => mkRun (Ret a) s [].

Definition bind {S A B} (m : M S A) (k : A → M S B) : M S B := fun h s =>
  let r := m h s in
  match out r with
  | Ret a =>
      let r' := k a (h ++ emitted r) (final r) in
      mkRun (out r') (final r') (emitted r ++ emitted r')
  | Err e => mkRun (Err e) (final r) (emitted r)
  | Panic => mkRun Panic (final r) (emitted r)
  | OutOfFuel => mkRun OutOfFuel (final r) (emitted r)
  end.

Notation "x <- m ;; k" := (bind m (fun x => k))
  (at level 100, m at next level, right associativity).
Notation "m ;;; k" := (bind m (fun _ => k))
  (at level 100, right associativity).

Definition out_of_fuel {S A} : M S A := fun _ s => mkRun OutOfFuel s [].

(** [if err != nil { return fmt.Errorf(format, ..., err) }] *)
Definition wrap {S A} (format : string) (m : M S A) : M S A := fun h s =>
  let r := m h s in
  match out r with
  | Err e => mkRun (Err (Errorf format e)) (final r) (emitted r)
  | _ => r
  end.

(** [for _, x := range nodes { err := body(x); if err != nil { return err } }] *)
Fixpoint range {S N} (nodes : list N) (body : N → M S unit) : M S unit :=
  match nodes with
  | [] => ret tt
  | x :: rest => body x ;;; range rest body
  end.

(** [for hasNextPage { q := fetch(endCursor); body(q.Nodes);
      hasNextPage, endCursor = q.PageInfo... }], at most [fuel] turns. *)
Fixpoint pages {S N A} (fuel : nat) (fetch : string → M S (Connection N))
    (body : A → list N → M S A) (info : PageInfo) (acc : A) : M S A :=
  if HasNextPage info then
    match fuel with
    | O => out_of_fuel
    | Datatypes.S fuel' =>
        q <- fetch (EndCursor info) ;;
        acc' <- body acc (Nodes q) ;;
        pages fuel' fetch body (PageInfo_of q) acc'
    end
  else ret acc.

Section downloader.
Context {S : Type} `{storer S}.
Variable client : Client.
(** Every pagination loop runs at most [fuel] turns. *)
Variable fuel : nat.

(** [d.storer.<method>(...)] *)
Definition call (c : Call) : M S unit := fun _ s =>
  let '(s', st) := invoke c s in
  mkRun (match st with OK => Ret tt | Fail e => Err e | Panicked => Panic end)
    s' [EvCall c st].

(** [d.client.Query(ctx, &q, variables)] *)
Definition query (q : Query) : M S (Response q) := fun h s =>
  match client h q with
  | inl e => mkRun (Err e) s [EvQuery q (Some e)]
  | inr r => mkRun (Ret r) s [EvQuery q None]
  end.

(** The loops that collect names into a slice. *)
Definition collect {N} (name : N → string) (acc : list string) (nodes : list N)
  : M S (list string) :=
  ret (acc ++ map name nodes).

Definition downloadTopics (repository : Repository) : M S (list string) :=
  topics <- collect (fun n => topic_Name (rt_Topic n)) []
              (Nodes (repo_RepositoryTopics repository)) ;;
  pages fuel
    (fun endCursor =>
       wrap "RepositoryTopics query failed: %v"
         (query (QRepositoryTopics (repo_Id (repo_Fields repository))
                   repositoryTopicsPage endCursor)))
    (collect (fun n => topic_Name (rt_Topic n)))
    (PageInfo_of (repo_RepositoryTopics repository)) topics.

Definition downloadIssueAssignees (issue : Issue) : M S (list string) :=
  assignees <- collect Login [] (Nodes (issue_Assignees issue)) ;;
  pages fuel
    (fun endCursor =>
       wrap "failed to query issue assignees for issue #%v: %v"
         (query (QIssueAssignees (issue_Id issue) assigneesPage endCursor)))
    (collect Login)
    (PageInfo_of (issue_Assignees issue)) assignees.

Definition downloadIssueLabels (issue : Issue) : M S (list string) :=
  labels <- collect label_Name [] (Nodes (issue_Labels issue)) ;;
  pages fuel
    (fun endCursor =>
       wrap "failed to query issue labels for issue #%v: %v"
         (query (QIssueLabels (issue_Id issue) labelsPage endCursor)))
    (collect label_Name)
    (PageInfo_of (issue_Labels issue)) labels.

Definition downloadIssueComments (owner name : string) (issue : Issue) : M S unit :=
  range (Nodes (issue_Comments issue))
    (fun comment => call (CSaveIssueComment owner name (issue_Number issue) comment)) ;;;
  pages fuel
    (fun endCursor =>
       wrap "failed to query issue comments for issue #%v: %v"
         (query (QIssueComments (issue_Id issue) issueCommentsPage endCursor)))
    (fun _ nodes =>
       range nodes (fun comment =>
         wrap "failed to save issue comments for issue #%v: %v"
           (call (CSaveIssueComment owner name (issue_Number issue) comment))))
    (PageInfo_of (issue_Comments issue)) tt.

(** The closure [process] of [downloadIssues]. *)
Definition downloadIssues_process (owner name : string) (issue : Issue) : M S unit :=
  assignees <- downloadIssueAssignees issue ;;
  labels <- downloadIssueLabels issue ;;
  call (CSaveIssue owner name issue assignees labels) ;;;
  downloadIssueComments owner name issue.

Definition downloadIssues (owner name : string) (repository : Repository) : M S unit :=
  range (Nodes (repo_Issues repository))
    (fun issue =>
       wrap "failed to process issue %v/%v #%v: %v"
         (downloadIssues_process owner name issue)) ;;;
  pages fuel
    (fun endCursor =>
       wrap "failed to query issues for repository %v: %v"
         (query (QIssues (repo_Id (repo_Fields repository)) issuesPage endCursor)))
    (fun _ nodes =>
       range nodes (fun issue =>
         wrap "failed to process issue %v #%v: %v"
           (downloadIssues_process owner name issue)))
    (PageInfo_of (repo_Issues repository)) tt.

Definition downloadPullRequestAssignees (pr : PullRequest) : M S (list string) :=
  assignees <- collect Login [] (Nodes (pr_Assignees pr)) ;;
  pages fuel
    (fun endCursor =>
       wrap "failed to query PR assignees for PR #%v: %v"
         (query (QPullRequestAssignees (pr_Id pr) assigneesPage endCursor)))
    (collect Login)
    (PageInfo_of (pr_Assignees pr)) assignees.

(** The source passes [assigneesPage] as ["labelsPage"] here. *)
Definition downloadPullRequestLabels (pr : PullRequest) : M S (list string) :=
  labels <- collect label_Name [] (Nodes (pr_Labels pr)) ;;
  pages fuel
    (fun endCursor =>
       wrap "failed to query PR labels for PR #%v: %v"
         (query (QPullRequestLabels (pr_Id pr) assigneesPage endCursor)))
    (collect label_Name)
    (PageInfo_of (pr_Labels pr)) labels.

Definition downloadPullRequestComments (owner name : string) (pr : PullRequest)
  : M S unit :=
  range (Nodes (pr_Comments pr))
    (fun comment =>
       wrap "failed to save PR comments for PR #%v: %v"
         (call (CSavePullRequestComment owner name (pr_Number pr) comment))) ;;;
  pages fuel
    (fun endCursor =>
       wrap "failed to query PR comments for PR #%v: %v"
         (query (QPullRequestComments (pr_Id pr) issueCommentsPage endCursor)))
    (fun _ nodes =>
       range nodes (fun comment =>
         wrap "failed to save PR comments for PR #%v: %v"
           (call (CSavePullRequestComment owner name (pr_Number pr) comment))))
    (PageInfo_of (pr_Comments pr)) tt.

(** The closure [process] of [downloadReviewComments]. *)
Definition downloadReviewComments_process (repositoryOwner repositoryName : string)
    (pullRequestNumber : Z) (review : PullRequestReview)
    (comment : PullRequestReviewComment) : M S unit :=
  wrap "failed to save PullRequestReviewComment for PR #%v, review ID %v: %v"
    (call (CSavePullRequestReviewComment repositoryOwner repositoryName
             pullRequestNumber (rev_DatabaseId review) comment)).

Definition downloadReviewComments (repositoryOwner repositoryName : string)
    (pullRequestNumber : Z) (review : PullRequestReview) : M S unit :=
  range (Nodes (rev_Comments review))
    (downloadReviewComments_process repositoryOwner repositoryName
       pullRequestNumber review) ;;;
  pages fuel
    (fun endCursor =>
       wrap "failed to query PR review comments for PR #%v, review ID %v: %v"
         (query (QPullRequestReviewComments (rev_Id review)
                   pullRequestReviewCommentsPage endCursor)))
    (fun _ nodes =>
       range nodes (downloadReviewComments_process repositoryOwner repositoryName
                      pullRequestNumber review))
    (PageInfo_of (rev_Comments review)) tt.

(** The closure [process] of [downloadPullRequestReviews]. *)
Definition downloadPullRequestReviews_process (owner name : string)
    (pr : PullRequest) (review : PullRequestReview) : M S unit :=
  wrap "failed to save PR review for PR #%v: %v"
    (call (CSavePullRequestReview owner name (pr_Number pr) review)) ;;;
  downloadReviewComments owner name (pr_Number pr) review.

Definition downloadPullRequestReviews (owner name : string) (pr : PullRequest)
  : M S unit :=
  range (Nodes (pr_Reviews pr)) (downloadPullRequestReviews_process owner name pr) ;;;
  pages fuel
    (fun endCursor =>
       wrap "failed to query PR reviews for PR #%v: %v"
         (query (QPullRequestReviews (pr_Id pr) pullRequestReviewsPage endCursor)))
    (fun _ nodes => range nodes (downloadPullRequestReviews_process owner name pr))
    (PageInfo_of (pr_Reviews pr)) tt.

(** The closure [process] of [downloadPullRequests]. *)
Definition downloadPullRequests_process (owner name : string) (pr : PullRequest)
  : M S unit :=
  assignees <- downloadPullRequestAssignees pr ;;
  labels <- downloadPullRequestLabels pr ;;
  call (CSavePullRequest owner name pr assignees labels) ;;;
  downloadPullRequestComments owner name pr ;;;
  downloadPullRequestReviews owner name pr.

Definition downloadPullRequests (owner name : string) (repository : Repository)
  : M S unit :=
  range (Nodes (repo_PullRequests repository))
    (fun pr =>
       wrap "failed to process PR %v/%v #%v: %v"
         (downloadPullRequests_process owner name pr)) ;;;
  pages fuel
    (fun endCursor =>
       wrap "failed to query PRs for repository %v/%v: %v"
         (query (QPullRequests (repo_Id (repo_Fields repository))
                   pullRequestsPage endCursor)))
    (fun _ nodes =>
       range nodes (fun pr =>
         wrap "failed to process PR %v/%v #%v: %v"
           (downloadPullRequests_process owner name pr)))
    (PageInfo_of (repo_PullRequests repository)) tt.

(** The closure [process] of [downloadUsers]. *)
Definition downloadUsers_process (user : UserExtended) : M S unit :=
  wrap "failed to save UserExtended: %v" (call (CSaveUser user)).

Definition downloadUsers (name : string) (organization : Organization) : M S unit :=
  range (Nodes (org_MembersWithRole organization))
    (fun user => wrap "failed to process user %v: %v" (downloadUsers_process user)) ;;;
  pages fuel
    (fun endCursor =>
       wrap "failed to organization members for organization %v: %v"
         (query (QMembersWithRole name membersWithRolePage endCursor)))
    (fun _ nodes =>
       range nodes (fun user =>
         wrap "failed to process user %v: %v" (downloadUsers_process user)))
    (PageInfo_of (org_MembersWithRole organization)) tt.

(** A method whose result the caller drops: only a panic gets through. *)
Definition discard (c : Call) : M S unit := fun h s =>
  let r := call c h s in
  mkRun (match out r with Panic => Panic | _ => Ret tt end) (final r) (emitted r).

(** The deferred closure of the two top-level functions.  It runs when
    the body returns or panics; [err] is nil whenever a call below the
    body panics, since every non-nil [err] is returned at once. *)
Definition deferred (body : M S unit) : M S unit := fun h s =>
  let r := body h s in
  match out r with
  | OutOfFuel => r
  | Err e =>
      let r' := discard CRollback (h ++ emitted r) (final r) in
      mkRun (match out r' with Ret _ => Err e | o => o end)
        (final r') (emitted r ++ emitted r')
  | o =>
      let r' := discard CCommit (h ++ emitted r) (final r) in
      mkRun (match out r' with Ret _ => o | o' => o' end)
        (final r') (emitted r ++ emitted r')
  end.

Definition DownloadRepository (owner name : string) (version : Z) : M S unit :=
  call (CVersion version) ;;;
  wrap "could not call Begin(): %v" (call CBegin) ;;;
  deferred (
    q <- wrap "first query failed: %v" (query (QRepository owner name)) ;;
    topics <- downloadTopics q ;;
    wrap "failed to save repository %v: %v"
      (call (CSaveRepository (repo_Fields q) topics)) ;;;
    downloadIssues owner name q ;;;
    downloadPullRequests owner name q).

Definition DownloadOrganization (name : string) (version : Z) : M S unit :=
  call (CVersion version) ;;;
  wrap "could not call Begin(): %v" (call CBegin) ;;;
  deferred (
    q <- wrap "organization query failed: %v" (query (QOrganization name)) ;;
    wrap "failed to save organization %v: %v" (call (CSaveOrganization q)) ;;;
    downloadUsers name q).

Definition SetCurrent (version : Z) : M S unit :=
  wrap "failed to set current DB version to %v: %v" (call (CSetActiveVersion version)).

Definition Cleanup' (currentVersion : Z) : M S unit :=
  wrap "failed to do cleanup for DB version %v: %v" (call (CCleanup currentVersion)).

End downloader.

End github.

(** ** A backend with transactions

    Modelled from the spec: the durable backend ([store.DB]) is not under
    src/.  Of it the spec says that [Begin], [Commit] and [Rollback] delimit
    one traversal and that [Rollback] must leave the store exactly as it was
    before [Begin].  The rows are kept as a [store.Mem]; [Begin] records
    them and [Rollback] puts the record back. *)
Module durable.

Record DB := mkDB { recorded : store.Mem; rows : store.Mem }.

Definition save (f : store.Mem → store.Mem * status) (d : DB) : DB * status :=
  ({| recorded := recorded d; rows := (f (rows d)).1 |}, (f (rows d)).2).

Definition Begin (d : DB) : DB * status :=
  ({| recorded := rows d; rows := rows d |}, OK).

Definition Commit (d : DB) : DB * status := (d, OK).

Definition Rollback (d : DB) : DB * status :=
  ({| recorded := recorded d; rows := recorded d |}, OK).

#[export] Instance DB_storer : github.storer DB :=
  {| github.SaveOrganization o := save (store.SaveOrganization o);
     github.SaveUser u := save (store.SaveUser u);
     github.SaveRepository r t := save (store.SaveRepository r t);
     github.SaveIssue o n i a l := save (store.SaveIssue o n i a l);
     github.SaveIssueComment o n k c := save (store.SaveIssueComment o n k c);
     github.SavePullRequest o n p a l := save (store.SavePullRequest o n p a l);
     github.SavePullRequestComment o n k c :=
       save (store.SavePullRequestComment o n k c);
     github.SavePullRequestReview o n k r :=
       save (store.SavePullRequestReview o n k r);
     github.SavePullRequestReviewComment o n k r c :=
       save (store.SavePullRequestReviewComment o n k r c);
     github.Begin := Begin;
     github.Commit := Commit;
     github.Rollback := Rollback;
     github.Version _ d := d;
     github.SetActiveVersion _ d := (d, OK);
     github.Cleanup _ d := (d, OK) |}.

Definition empty : DB :=
  {| recorded := github.NewMemDownloader; rows := github.NewMemDownloader |}.

End durable.

(** ** cmd/migrate: the bridge to a Bitbucket server *)
Module migrate.

Record Config := mkConfig
  { GithubRepoOwner : string;
    GithubRepoName : string;
    BitBucketServerAddress : string;
    BitBucketServerUser : string;
    BitBucketServerPass : string;
    BitBucketServerProjectKey : string }.

(** *** The [bitclient] library (external): its parameter structs and the
    two requests the bridge sends. *)
Record Project := mkProject { Key : string }.
Record Repository := mkRepository { Slug : string; Project_of : Project }.
Record BranchRef := mkBranchRef { ref_Id : string; Repository_of : Repository }.
Record User := mkUser { Name : string }.
Record Participant := mkParticipant { User_of : User }.

Record CreatePullRequestParams := mkCreatePullRequestParams
  { Title : string;
    Description : string;
    FromRef : BranchRef;
    ToRef : BranchRef;
    Reviewers : list Participant;
    CloseSourceBranch : bool }.

Record CreatePullRequestCommentParams := mkCreatePullRequestCommentParams
  { Text : string;
    Parent : option Z }.

Inductive Request : Type :=
  | CreatePullRequest (projectKey repositorySlug : string)
      (params : CreatePullRequestParams)
  | CreatePullRequestComment (projectKey repositorySlug pullRequestId : string)
      (params : CreatePullRequestCommentParams).

(** What was sent and what came back: an error, or the [Id] of the
    response. *)
Definition Exchange : Type := Request * (error + Z).

(** The Bitbucket server: its answer may depend on all earlier exchanges. *)
Definition Server : Type := list Exchange → Request → error + Z.

(** The state of a run: the exchanges so far, and how many [range]
    statements over a map have started. *)
Record State := mkState { sent : list Exchange; ranged : nat }.

Definition B (A : Type) : Type := State → (error + A) * State.

Definition ret {A} (a : A) : B A := fun st => (inr a, st).

Definition bind {A C} (m : B A) (k : A → B C) : B C := fun st =>
  match m st with
  | (inl e, st') => (inl e, st')
  | (inr a, st') => k a st'
  end.

Notation "x <- m ;; k" := (bind m (fun x => k))
  (at level 100, m at next level, right associativity).

(** [for _, x := range xs { if err := body(x); err != nil { return err } }]
    over a slice. *)
Fixpoint range {N} (nodes : list N) (body : N → B unit) : B unit :=
  match nodes with
  | [] => ret tt
  | x :: rest => _ <- body x ;; range rest body
  end.

(** [trim]: at most 1000 bytes are kept as they are. *)
Definition trim (s : string) : string :=
  if (1000 <? String.length s)%nat
  then String.append (String.substring 0 999 s) "..."
  else s.

Section bridge.
Variable server : Server.

(** The order in which the [n]-th [range] statement of the run visits the
    entries of a map; Go leaves it unspecified. *)
Variable iteration : nat → ∀ V : Type, gmap Z V → list (Z * V).

(** [fmt.Sprintf("%+v", x)] for the three types the bridge prints. *)
Variable Sprintf_comment : graphql.IssueComment → string.
Variable Sprintf_review : store.PullRequestReview → string.
Variable Sprintf_review_comment : graphql.PullRequestReviewComment → string.

Variable c : Config.

(** One call of a [bitclient] method. *)
Definition send (rq : Request) : B Z := fun st =>
  let answer := server (sent st) rq in
  (answer, {| sent := sent st ++ [(rq, answer)]; ranged := ranged st |}).

(** The entries a [range] over the Go map [m] visits, in order. *)
Definition entries {V} (m : gomap.t Z V) : B (list (Z * V)) := fun st =>
  (inr (match m with
        | None => []
        | Some g => iteration (ranged st) V g
        end),
   {| sent := sent st; ranged := Datatypes.S (ranged st) |}).

Definition createPR (pr : store.PullRequest) : B Z :=
  let repoKey := BitBucketServerProjectKey c in
  let slug := GithubRepoName c in
  let user := BitBucketServerUser c in
  let gitPR := store.PullRequest_of pr in
  send (CreatePullRequest repoKey slug
          {| Title := pr_Title gitPR;
             Description := pr_Body gitPR;
             FromRef := {| ref_Id := ref_Name (pr_HeadRef gitPR);
                           Repository_of :=
                             {| Slug := slug; Project_of := {| Key := repoKey |} |} |};
             ToRef := {| ref_Id := ref_Name (pr_BaseRef gitPR);
                         Repository_of :=
                           {| Slug := slug; Project_of := {| Key := repoKey |} |} |};
             Reviewers := [ {| User_of := {| Name := user |} |} ];
             CloseSourceBranch := false |}).

(** The result map [cm.Id ↦ resp.Id] is built and dropped by the only
    caller; it is returned here as the list of its assignments. *)
Fixpoint createComments_loop (prId : Z) (comments : list graphql.IssueComment)
    (result : list (string * Z)) : B (list (string * Z)) :=
  match comments with
  | [] => ret result
  | cm :: rest =>
      resp <- send (CreatePullRequestComment (BitBucketServerProjectKey c)
                      (GithubRepoName c) (pretty prId)
                      {| Text := trim (Sprintf_comment cm); Parent := None |}) ;;
      createComments_loop prId rest (result ++ [(ic_Id cm, resp)])
  end.

Definition createComments (prId : Z) (pr : store.PullRequest)
  : B (list (string * Z)) :=
  createComments_loop prId (store.Comments pr) [].

Definition createReviewComments (prId : Z) (pr : store.PullRequest) : B unit :=
  reviews <- entries (store.Reviews pr) ;;
  range reviews (fun '(_, review) =>
    reviewResp <- send (CreatePullRequestComment (BitBucketServerProjectKey c)
                          (GithubRepoName c) (pretty prId)
                          {| Text := trim (Sprintf_review review); Parent := None |}) ;;
    range (store.review_Comments review) (fun cm =>
      _ <- send (CreatePullRequestComment (BitBucketServerProjectKey c)
                   (GithubRepoName c) (pretty prId)
                   {| Text := trim (Sprintf_review_comment cm);
                      Parent := Some reviewResp |}) ;;
      ret tt)).

Definition migratePR (prId : Z) (pr : store.PullRequest) : B unit :=
  bitPRId <- createPR pr ;;
  _ <- createComments bitPRId pr ;;
  createReviewComments bitPRId pr.

(** The loop body of [migrate]: an error of [migratePR] is logged and the
    loop goes on. *)
Definition migrate_body (prId : Z) (pr : store.PullRequest) : B unit := fun st =>
  if decide (pr_State (store.PullRequest_of pr) = "OPEN") then
    match migratePR prId pr st with
    | (_, st') => (inr tt, st')
    end
  else (inr tt, st).

Definition migrate (m : store.Mem) : B unit :=
  match store.repo_at m (GithubRepoOwner c) (GithubRepoName c) with
  | None => fun st => (inl (Opaque "failed to obtain repo %s"), st)
  | Some repo =>
      prs <- entries (store.PRs repo) ;;
      range prs (fun '(prId, pr) => migrate_body prId pr)
  end.

End bridge.

End migrate.

(** ** github/getmemstore.go *)
Module getmemstore.
Import github.

(** [GetMemStore]: a new in-memory downloader, one [DownloadRepository] at
    version 0, and the store it filled.  [NewMemDownloader] returns no
    error, and the type assertion to [*store.Mem] holds for the storer it
    sets; the two error branches they guard are never taken.  The store is
    returned only when the download returned [nil]. *)
Definition GetMemStore (client : Client) (fuel : nat) (owner name : string)
    (h : list Event) : Run store.Mem store.Mem :=
  let r := DownloadRepository client fuel owner name 0 h NewMemDownloader in
  mkRun (match out r with
         | Ret _ => Ret (final r)
         | Err e => Err e
         | Panic => Panic
         | OutOfFuel => OutOfFuel
         end) (final r) (emitted r).

End getmemstore.

(** ** cmd/migrate: the command's [Execute] *)
Module command.
Import github.

(** What one execution leaves: its result, the events of the download, and
    the exchanges with the Bitbucket server. *)
Record Executed := mkExecuted
  { result : outcome unit;
    downloading : list Event;
    bitbucket : migrate.State }.

Section execute.
Variable client : Client.
Variable fuel : nat.
Variable server : migrate.Server.
Variable iteration : nat → ∀ V : Type, gmap Z V → list (Z * V).
Variable Sprintf_comment : graphql.IssueComment → string.
Variable Sprintf_review : store.PullRequestReview → string.
Variable Sprintf_review_comment : graphql.PullRequestReviewComment → string.

(** [Execute]: the store is downloaded, then migrated.  The log lines and
    the clock are left out. *)
Definition Execute (c : migrate.Config) (h : list Event) (st : migrate.State)
  : Executed :=
  let r := getmemstore.GetMemStore client fuel (migrate.GithubRepoOwner c)
             (migrate.GithubRepoName c) h in
  match out r with
  | Ret m =>
      match migrate.migrate server iteration Sprintf_comment Sprintf_review
              Sprintf_review_comment c m st with
      | (inl e, st') => mkExecuted (Err e) (emitted r) st'
      | (inr _, st') => mkExecuted (Ret tt) (emitted r) st'
      end
  | Err e => mkExecuted (Err (Errorf "failed to get mem store: %v" e)) (emitted r) st
  | Panic => mkExecuted Panic (emitted r) st
  | OutOfFuel => mkExecuted OutOfFuel (emitted r) st
  end.

End execute.
End command.

(** ** github/bitbucket_test.go *)
Module bitbucket_test.

(** The test file's own [trim]: at most 40 bytes are kept as they are. *)
Definition trim (s : string) : string :=
  if (40 <? String.length s)%nat
  then String.append (String.substring 0 39 s) "..."
  else s.

End bitbucket_test.

(** ** Vocabulary for the properties of runs *)
Module runs.
Import github.

(** How a computation can stop short of returning normally. *)
Inductive abort : Type := AErr | APanic | AFuel.

(** An assertion speaks of the events emitted so far and of the store. *)
Definition assertion (S : Type) : Type := list Event → S → Prop.

(** [triple P m Q X]: started where [P] holds, [m] ends where [Q] holds if
    it returns normally, and where [X] holds for the way it stopped
    otherwise. *)
Definition triple {S A} (P : assertion S) (m : M S A)
    (Q : A → assertion S) (X : abort → assertion S) : Prop :=
  ∀ ctx h s, P ctx s →
    match out (m h s) with
    | Ret a => Q a (ctx ++ emitted (m h s)) (final (m h s))
    | Err _ => X AErr (ctx ++ emitted (m h s)) (final (m h s))
    | Panic => X APanic (ctx ++ emitted (m h s)) (final (m h s))
    | OutOfFuel => X AFuel (ctx ++ emitted (m h s)) (final (m h s))
    end.

(** [steady I X m]: [m] maintains [I] when it returns, and stops in [X]
    otherwise. *)
Definition steady {S A} (I : assertion S) (X : abort → assertion S) (m : M S A)
  : Prop :=
  triple I m (fun _ => I) X.

(** *** Kinds of events *)
Definition succeeded (ev : Event) : bool :=
  match ev with
  | EvCall _ OK => true
  | EvQuery _ None => true
  | _ => false
  end.

Definition failed (ev : Event) : bool :=
  match ev with
  | EvCall _ (Fail _) => true
  | EvQuery _ (Some _) => true
  | _ => false
  end.

Definition panicked (ev : Event) : bool :=
  match ev with
  | EvCall _ Panicked => true
  | _ => false
  end.

Definition is_save (c : Call) : bool :=
  match c with
  | CSaveOrganization _ | CSaveUser _ | CSaveRepository _ _
  | CSaveIssue _ _ _ _ _ | CSaveIssueComment _ _ _ _
  | CSavePullRequest _ _ _ _ _ | CSavePullRequestComment _ _ _ _
  | CSavePullRequestReview _ _ _ _ | CSavePullRequestReviewComment _ _ _ _ _ => true
  | _ => false
  end.

(** A step of a traversal: a query or a Save call. *)
Definition is_step (ev : Event) : bool :=
  match ev with
  | EvCall c _ => is_save c
  | EvQuery _ _ => true
  end.

Definition is_query (ev : Event) : bool :=
  match ev with
  | EvQuery _ _ => true
  | EvCall _ _ => false
  end.

(** The connection a query pages through; the two root queries page
    through none. *)
Inductive connection : Type :=
  | Root
  | RepositoryTopics | Issues | IssueAssignees | IssueLabels | IssueComments
  | PullRequests | PullRequestAssignees | PullRequestLabels | PullRequestComments
  | PullRequestReviews | PullRequestReviewComments | MembersWithRole.

#[export] Instance connection_eq_dec : EqDecision connection.
Proof. solve_decision. Defined.

Definition connection_of (q : Query) : connection :=
  match q with
  | QRepository _ _ | QOrganization _ => Root
  | QRepositoryTopics _ _ _ => RepositoryTopics
  | QIssues _ _ _ => Issues
  | QIssueAssignees _ _ _ => IssueAssignees
  | QIssueLabels _ _ _ => IssueLabels
  | QIssueComments _ _ _ => IssueComments
  | QPullRequests _ _ _ => PullRequests
  | QPullRequestAssignees _ _ _ => PullRequestAssignees
  | QPullRequestLabels _ _ _ => PullRequestLabels
  | QPullRequestComments _ _ _ => PullRequestComments
  | QPullRequestReviews _ _ _ => PullRequestReviews
  | QPullRequestReviewComments _ _ _ => PullRequestReviewComments
  | QMembersWithRole _ _ _ => MembersWithRole
  end.

(** [fetches k ev]: the event is a query for a page of connection [k]. *)
Definition fetches (k : connection) (ev : Event) : bool :=
  match ev with
  | EvQuery q _ => bool_decide (connection_of q = k)
  | EvCall _ _ => false
  end.

(** The Save calls among the events, in order. *)
Definition seen_save (ev : Event) : option Call :=
  match ev with
  | EvCall c _ => if is_save c then Some c else None
  | EvQuery _ _ => None
  end.

Definition saves (evs : list Event) : list Call := omap seen_save evs.

(** *** The shape of a run that stops at its first failure

    Every event but the last succeeded; the last one failed exactly when an
    error is returned, and panicked exactly when the run panics. *)
Definition stops_at_first_failure {A} (o : outcome A) (evs : list Event) : Prop :=
  match o with
  | Ret _ | OutOfFuel => Forall (fun ev => succeeded ev = true) evs
  | Err _ =>
      ∃ pre ev, evs = pre ++ [ev] ∧ Forall (fun ev => succeeded ev = true) pre
                ∧ failed ev = true
  | Panic =>
      ∃ pre ev, evs = pre ++ [ev] ∧ Forall (fun ev => succeeded ev = true) pre
                ∧ panicked ev = true
  end.

(** *** The shape of a top-level traversal

    [clean steps]: queries and Save calls only, all of which succeeded. *)
Definition clean (steps : list Event) : Prop :=
  Forall (fun ev => succeeded ev = true ∧ is_step ev = true) steps.

(** What [DownloadRepository] and [DownloadOrganization] emit, by the way
    they end.  After [Version] and a successful [Begin] come the steps, all
    successful but possibly the last; [Commit] follows when no error was
    returned, [Rollback] when one was.  A run that is out of fuel has done
    neither yet. *)
Definition traversal_shape {A} (v : Z) (o : outcome A) (evs : list Event) : Prop :=
  match o with
  | Ret _ =>
      ∃ steps st,
        evs = EvCall (CVersion v) OK :: EvCall CBegin OK :: steps ++ [EvCall CCommit st]
        ∧ clean steps ∧ st ≠ Panicked
  | Err _ =>
      (∃ e, evs = [EvCall (CVersion v) OK; EvCall CBegin (Fail e)])
      ∨ (∃ steps ev st,
           evs = EvCall (CVersion v) OK :: EvCall CBegin OK
                   :: steps ++ [ev; EvCall CRollback st]
           ∧ clean steps ∧ failed ev = true ∧ is_step ev = true ∧ st ≠ Panicked)
  | OutOfFuel =>
      ∃ steps, evs = EvCall (CVersion v) OK :: EvCall CBegin OK :: steps ∧ clean steps
  | Panic =>
      evs = [EvCall (CVersion v) OK; EvCall CBegin Panicked]
      ∨ (∃ steps ev st,
           evs = EvCall (CVersion v) OK :: EvCall CBegin OK
                   :: steps ++ [ev; EvCall CCommit st]
           ∧ clean steps ∧ panicked ev = true ∧ is_step ev = true)
      ∨ (∃ steps,
           evs = EvCall (CVersion v) OK :: EvCall CBegin OK
                   :: steps ++ [EvCall CCommit Panicked]
           ∧ clean steps)
      ∨ (∃ steps ev,
           evs = EvCall (CVersion v) OK :: EvCall CBegin OK
                   :: steps ++ [ev; EvCall CRollback Panicked]
           ∧ clean steps ∧ failed ev = true ∧ is_step ev = true)
  end.

(** The failure policy, read off the events of a top-level run [r] for
    version [v]: a failed step is the last step, [Rollback] follows it and
    the error is returned; a run returns [nil] exactly when all its steps
    succeeded and [Commit] ended it. *)
Definition follows_failure_policy {S} (v : Z) (r : Run S unit) : Prop :=
  (∀ ev, ev ∈ emitted r → failed ev = true → is_step ev = true →
     ∃ steps st,
       emitted r = EvCall (CVersion v) OK :: EvCall CBegin OK
                     :: steps ++ [ev; EvCall CRollback st]
       ∧ clean steps
       ∧ (st ≠ Panicked → ∃ e, out r = Err e))
  ∧ (out r = Ret tt ↔
     ∃ steps st,
       emitted r = EvCall (CVersion v) OK :: EvCall CBegin OK
                     :: steps ++ [EvCall CCommit st]
       ∧ clean steps ∧ st ≠ Panicked).

(** The assertions that carry this shape through the body of a traversal. *)
Definition all_clean {S} : assertion S := fun ctx _ => clean ctx.

Definition stopped {S} (k : abort) : assertion S := fun ctx _ =>
  match k with
  | AFuel => clean ctx
  | AErr => ∃ pre ev, ctx = pre ++ [ev] ∧ clean pre
                      ∧ failed ev = true ∧ is_step ev = true
  | APanic => ∃ pre ev, ctx = pre ++ [ev] ∧ clean pre
                        ∧ panicked ev = true ∧ is_step ev = true
  end.

(** A computation that stops at its first failed step. *)
Definition stops_clean {S A} (m : M S A) : Prop := steady all_clean stopped m.

(** *** Transactions

    [in_transaction s0 s]: the store went from [s0] to [s] by a successful
    [Begin] followed by Save calls. *)
Inductive in_transaction {S} `{storer S} (s0 : S) : S → Prop :=
  | tx_begun s1 : Begin s0 = (s1, OK) → in_transaction s0 s1
  | tx_saved s c :
      in_transaction s0 s → is_save c = true → in_transaction s0 (invoke c s).1.

(** A backend whose [Rollback] leaves what can be observed of the store as
    it was before [Begin]. *)
Definition transactional {S O} `{storer S} (observe : S → O) : Prop :=
  ∀ s0 s, in_transaction s0 s → observe (Rollback s).1 = observe s0.

(** The store is inside the transaction begun at [s0]. *)
Definition begun_at {S} `{storer S} (s0 : S) : assertion S :=
  fun _ s => in_transaction s0 s.

(** A Save call that returned an error. *)
Definition failed_save (ev : Event) : bool :=
  match ev with
  | EvCall c (Fail _) => is_save c
  | _ => false
  end.

(** *** Events of a given kind

    [only keep]: every event so far passes the test [keep]. *)
Definition only {S} (keep : Event → bool) : assertion S :=
  fun ctx _ => Forall (fun ev => keep ev = true) ctx.

(** No event of [evs] fetches a page of connection [k]. *)
Definition no_fetch (k : connection) (evs : list Event) : Prop :=
  Forall (fun ev => fetches k ev = false) evs.

(** The events that concern the reviews of a pull request: the two Save
    calls and the queries for pages of reviews and of review comments. *)
Definition review_related (ev : Event) : bool :=
  match ev with
  | EvCall (CSavePullRequestReview _ _ _ _) _ => true
  | EvCall (CSavePullRequestReviewComment _ _ _ _ _) _ => true
  | EvCall _ _ => false
  | EvQuery q _ =>
      bool_decide (connection_of q = PullRequestReviews)
      || bool_decide (connection_of q = PullRequestReviewComments)
  end.

(** *** Parents before children *)

(** [parent_saved before ev]: if [ev] is a Save call of a child entity, a
    Save call of its parent succeeded among the events [before]. *)
Definition parent_saved (before : list Event) (ev : Event) : Prop :=
  match ev with
  | EvCall (CSaveIssue _ _ _ _ _) _
  | EvCall (CSavePullRequest _ _ _ _ _) _ =>
      ∃ r t, EvCall (CSaveRepository r t) OK ∈ before
  | EvCall (CSaveIssueComment o n k _) _ =>
      ∃ i a l, EvCall (CSaveIssue o n i a l) OK ∈ before ∧ issue_Number i = k
  | EvCall (CSavePullRequestComment o n k _) _
  | EvCall (CSavePullRequestReview o n k _) _ =>
      ∃ p a l, EvCall (CSavePullRequest o n p a l) OK ∈ before ∧ pr_Number p = k
  | EvCall (CSavePullRequestReviewComment o n k rid _) _ =>
      ∃ r, EvCall (CSavePullRequestReview o n k r) OK ∈ before
           ∧ rev_DatabaseId r = rid
  | EvCall (CSaveUser _) _ =>
      ∃ org, EvCall (CSaveOrganization org) OK ∈ before
  | _ => True
  end.

Definition parents_first (evs : list Event) : Prop :=
  ∀ pre ev post, evs = pre ++ ev :: post → parent_saved pre ev.

(** The events so far have parents first, and the events [facts] are known
    to be among them. *)
Definition ordered_with {S} (facts : list Event) : assertion S :=
  fun ctx _ => parents_first ctx ∧ ∀ ev, ev ∈ facts → ev ∈ ctx.

(** What a call needs: its parent among the known events [F]. *)
Definition has_parent (F : list Event) (c : Call) : Prop :=
  ∀ ctx st, (∀ ev, ev ∈ F → ev ∈ ctx) → parent_saved ctx (EvCall c st).

(** *** What a walk visits

    [observed seen evs]: what the observer [seen] sees of the events [evs],
    in order. *)
Definition observed {X} (seen : Event → option X) (evs : list Event) : list X :=
  omap seen evs.

(** The observers of the seven walks that save: each shows the node a Save
    call was made for. *)
Definition seen_issue (ev : Event) : option Issue :=
  match ev with EvCall (CSaveIssue _ _ i _ _) _ => Some i | _ => None end.
Definition seen_issue_comment (ev : Event) : option IssueComment :=
  match ev with EvCall (CSaveIssueComment _ _ _ c) _ => Some c | _ => None end.
Definition seen_pull_request (ev : Event) : option PullRequest :=
  match ev with EvCall (CSavePullRequest _ _ p _ _) _ => Some p | _ => None end.
Definition seen_pull_request_comment (ev : Event) : option IssueComment :=
  match ev with EvCall (CSavePullRequestComment _ _ _ c) _ => Some c | _ => None end.
Definition seen_review (ev : Event) : option PullRequestReview :=
  match ev with EvCall (CSavePullRequestReview _ _ _ r) _ => Some r | _ => None end.
Definition seen_review_comment (ev : Event) : option PullRequestReviewComment :=
  match ev with
  | EvCall (CSavePullRequestReviewComment _ _ _ _ c) _ => Some c
  | _ => None
  end.
Definition seen_user (ev : Event) : option UserExtended :=
  match ev with EvCall (CSaveUser u) _ => Some u | _ => None end.

(** The events an observer does not see. *)
Definition unseen_by {X} (seen : Event → option X) (ev : Event) : bool :=
  match seen ev with
  | None => true
  | Some _ => false
  end.

(** The number of nodes in the pages [ps]. *)
Definition total {N} (ps : list (list N)) : nat := sum_list_with length ps.

(** *** The order in which one entity is resolved *)

(** The events have the property [L]. *)
Definition said {S} (L : list Event → Prop) : assertion S := fun ctx _ => L ctx.

(** An event of the walk over the comments of issue [k]: a query for a page
    of them, or the Save call of one comment. *)
Definition issue_comment_event (owner name : string) (k : Z) (ev : Event) : bool :=
  match ev with
  | EvQuery q _ => bool_decide (connection_of q = IssueComments)
  | EvCall (CSaveIssueComment o n k' _) _ =>
      bool_decide (o = owner ∧ n = name ∧ k' = k)
  | EvCall _ _ => false
  end.

(** The same for the comments of pull request [k]. *)
Definition pr_comment_event (owner name : string) (k : Z) (ev : Event) : bool :=
  match ev with
  | EvQuery q _ => bool_decide (connection_of q = PullRequestComments)
  | EvCall (CSavePullRequestComment o n k' _) _ =>
      bool_decide (o = owner ∧ n = name ∧ k' = k)
  | EvCall _ _ => false
  end.

(** An event of the walk over the comments of review [r] of pull request
    [k]: a query for a page of the comments of [r], or the Save call of one
    of its comments. *)
Definition of_review (owner name : string) (k : Z) (r : PullRequestReview)
    (ev : Event) : bool :=
  match ev with
  | EvQuery (QPullRequestReviewComments id _ _) _ => bool_decide (id = rev_Id r)
  | EvCall (CSavePullRequestReviewComment o n k' rid _) _ =>
      bool_decide (o = owner ∧ n = name ∧ k' = k ∧ rid = rev_DatabaseId r)
  | _ => false
  end.

(** The events of the walk over the reviews of pull request [k]: queries
    for pages of reviews, and for each review its Save call followed at once
    by the events of the walk over its own comments. *)
Inductive review_blocks (owner name : string) (k : Z) : list Event → Prop :=
  | blocks_nil : review_blocks owner name k []
  | blocks_fetch ev rest :
      fetches PullRequestReviews ev = true →
      review_blocks owner name k rest →
      review_blocks owner name k (ev :: rest)
  | blocks_review r st evs rest :
      Forall (fun ev => of_review owner name k r ev = true) evs →
      review_blocks owner name k rest →
      review_blocks owner name k
        (EvCall (CSavePullRequestReview owner name k r) st :: evs ++ rest).

(** How a pull request is resolved, in a run [r] of the closure [process]
    that started with history [h]: the walk over the assignees, the walk
    over the labels, one Save call with the two lists the walks returned,
    the walk over the comments, the walk over the reviews. *)
Definition pull_request_resolved {S} (assignees_walk labels_walk : M S (list string))
    (owner name : string) (pr : PullRequest) (h : list Event) (s : S)
    (evs : list Event) : Prop :=
  ∃ assignees labels eC eR,
    out (assignees_walk h s) = Ret assignees
    ∧ out (labels_walk (h ++ emitted (assignees_walk h s))
             (final (assignees_walk h s))) = Ret labels
    ∧ evs = emitted (assignees_walk h s)
            ++ emitted (labels_walk (h ++ emitted (assignees_walk h s))
                          (final (assignees_walk h s)))
            ++ [EvCall (CSavePullRequest owner name pr assignees labels) OK]
            ++ eC ++ eR
    ∧ Forall (fun ev => fetches PullRequestAssignees ev = true)
        (emitted (assignees_walk h s))
    ∧ Forall (fun ev => fetches PullRequestLabels ev = true)
        (emitted (labels_walk (h ++ emitted (assignees_walk h s))
                    (final (assignees_walk h s))))
    ∧ Forall (fun ev => pr_comment_event owner name (pr_Number pr) ev = true) eC
    ∧ review_blocks owner name (pr_Number pr) eR.

(** How an issue is resolved. *)
Definition issue_resolved {S} (assignees_walk labels_walk : M S (list string))
    (owner name : string) (issue : Issue) (h : list Event) (s : S)
    (evs : list Event) : Prop :=
  ∃ assignees labels eC,
    out (assignees_walk h s) = Ret assignees
    ∧ out (labels_walk (h ++ emitted (assignees_walk h s))
             (final (assignees_walk h s))) = Ret labels
    ∧ evs = emitted (assignees_walk h s)
            ++ emitted (labels_walk (h ++ emitted (assignees_walk h s))
                          (final (assignees_walk h s)))
            ++ [EvCall (CSaveIssue owner name issue assignees labels) OK]
            ++ eC
    ∧ Forall (fun ev => fetches IssueAssignees ev = true)
        (emitted (assignees_walk h s))
    ∧ Forall (fun ev => fetches IssueLabels ev = true)
        (emitted (labels_walk (h ++ emitted (assignees_walk h s))
                    (final (assignees_walk h s))))
    ∧ Forall (fun ev => issue_comment_event owner name (issue_Number issue) ev = true)
        eC.

(** *** Pages delivered by a source

    [delivers source info ps]: following the cursors from [info], the source
    answers with the pages [ps], the last of which has no next page. *)
Inductive delivers {S N} (source : string → M S (Connection N))
  : PageInfo → list (list N) → Prop :=
  | delivers_last info :
      HasNextPage info = false → delivers source info []
  | delivers_next info q conn rest :
      HasNextPage info = true →
      (∀ h s, source (EndCursor info) h s = mkRun (Ret conn) s [EvQuery q None]) →
      delivers source (PageInfo_of conn) rest →
      delivers source info (Nodes conn :: rest).

(** *** Stores without nil maps

    What the Save methods build from [NewMemDownloader]: [Repos] and every
    map below it is allocated. *)
Definition sound_repo (r : store.Repo) : Prop :=
  ∃ prs, store.PRs r = Some prs
         ∧ ∀ k p, prs !! k = Some p → store.Reviews p ≠ None.

Definition sound (m : store.Mem) : Prop :=
  store.Repos m ≠ None
  ∧ (∀ o, gomap.get (store.Repos m) o ≠ Some None)
  ∧ (∀ o n r, store.repo_at m o n = Some r → sound_repo r).

End runs.

(** ** Vocabulary for the bridge

    The order of writes the spec asks of the bridge: pull requests that are
    not open are left out; for each migrated pull request the pull request
    is created, then all its top-level comments, then each review with its
    nested comments attached to the comment created for the review. *)
Module bridge.
Import migrate.

Section expected.
Variable Sprintf_comment : graphql.IssueComment → string.
Variable Sprintf_review : store.PullRequestReview → string.
Variable Sprintf_review_comment : graphql.PullRequestReviewComment → string.
Variable c : Config.

(** The request that creates the pull request. *)
Definition create_request (pr : store.PullRequest) : Request :=
  CreatePullRequest (BitBucketServerProjectKey c) (GithubRepoName c)
    {| Title := pr_Title (store.PullRequest_of pr);
       Description := pr_Body (store.PullRequest_of pr);
       FromRef :=
         {| ref_Id := ref_Name (pr_HeadRef (store.PullRequest_of pr));
            Repository_of :=
              {| Slug := GithubRepoName c;
                 Project_of := {| Key := BitBucketServerProjectKey c |} |} |};
       ToRef :=
         {| ref_Id := ref_Name (pr_BaseRef (store.PullRequest_of pr));
            Repository_of :=
              {| Slug := GithubRepoName c;
                 Project_of := {| Key := BitBucketServerProjectKey c |} |} |};
       Reviewers := [ {| User_of := {| Name := BitBucketServerUser c |} |} ];
       CloseSourceBranch := false |}.

(** A comment on the created pull request [id], under [parent] if any. *)
Definition comment_request (id : Z) (text : string) (parent : option Z) : Request :=
  CreatePullRequestComment (BitBucketServerProjectKey c) (GithubRepoName c)
    (pretty id) {| Text := trim text; Parent := parent |}.

Definition top_request (id : Z) (cm : graphql.IssueComment) : Request :=
  comment_request id (Sprintf_comment cm) None.

Definition review_request (id : Z) (review : store.PullRequestReview) : Request :=
  comment_request id (Sprintf_review review) None.

Definition nested_request (id rid : Z) (cm : graphql.PullRequestReviewComment)
  : Request :=
  comment_request id (Sprintf_review_comment cm) (Some rid).

Definition answered (x : Exchange) : bool :=
  match x.2 with
  | inr _ => true
  | inl _ => false
  end.

Definition requests (xs : list Exchange) : list Request := map fst xs.

(** One review thread on pull request [id]: the comment created for the
    review, answered with [rid], then the review's comments as children of
    [rid]. *)
Inductive thread_of (id : Z) (review : store.PullRequestReview)
  : list Exchange → Prop :=
  | thread_intro rid nested :
      requests nested = map (nested_request id rid) (store.review_Comments review) →
      thread_of id review ((review_request id review, inr rid) :: nested).

Inductive threads_of (id : Z)
  : list store.PullRequestReview → list Exchange → Prop :=
  | threads_nil : threads_of id [] []
  | threads_cons review reviews t rest :
      thread_of id review t →
      threads_of id reviews rest →
      threads_of id (review :: reviews) (t ++ rest).

(** The exchanges of a migrated pull request whose reviews were visited in
    the order [reviews]. *)
Definition pr_migrated (pr : store.PullRequest)
    (reviews : list store.PullRequestReview) (xs : list Exchange) : Prop :=
  ∃ id top threads,
    xs = (create_request pr, inr id) :: top ++ threads
    ∧ requests top = map (top_request id) (store.Comments pr)
    ∧ threads_of id reviews threads.

Definition review_values (pr : store.PullRequest) : list store.PullRequestReview :=
  match store.Reviews pr with
  | None => []
  | Some g => map snd (map_to_list g)
  end.

Definition pr_entries (repo : store.Repo) : list (Z * store.PullRequest) :=
  match store.PRs repo with
  | None => []
  | Some g => map_to_list g
  end.

(** The exchanges made for one entry of [PRs]: none unless the pull request
    is open; otherwise they start by creating it and, if every request was
    answered, they are those of a migrated pull request. *)
Definition segment_of (entry : Z * store.PullRequest) (seg : list Exchange) : Prop :=
  if decide (pr_State (store.PullRequest_of entry.2) = "OPEN") then
    (∃ answer rest, seg = (create_request entry.2, answer) :: rest)
    ∧ (Forall (fun x => answered x = true) seg →
       ∃ reviews, reviews ≡ₚ review_values entry.2
                  ∧ pr_migrated entry.2 reviews seg)
  else seg = [].

(** The exchanges of one migration of the store [m]. *)
Definition migration_of (m : store.Mem) (xs : list Exchange) : Prop :=
  match store.repo_at m (GithubRepoOwner c) (GithubRepoName c) with
  | None => xs = []
  | Some repo =>
      ∃ prs segs,
        prs ≡ₚ pr_entries repo
        ∧ xs = concat segs
        ∧ Forall2 segment_of prs segs
  end.

End expected.
End bridge.

(** ** Vocabulary for the laws of the in-memory store *)
Module laws.
Import github runs.

(** The repository a call replaces: [SaveRepository] stores a new [Repo]
    under the owner login and the name of its argument. *)
Definition replaces (c : Call) : option (string * string) :=
  match c with
  | CSaveRepository f _ => Some (Login (repo_Owner f), repo_Name f)
  | _ => None
  end.

(** The pull request a call replaces. *)
Definition replaces_pr (c : Call) : option (string * string * Z) :=
  match c with
  | CSavePullRequest o n p _ _ => Some (o, n, pr_Number p)
  | _ => None
  end.

(** The pull request a call appends a comment to. *)
Definition comments_on (c : Call) : option (string * string * Z) :=
  match c with
  | CSavePullRequestComment o n k _ => Some (o, n, k)
  | _ => None
  end.

(** The review a call writes. *)
Definition writes_review (c : Call) : option (string * string * Z * Z) :=
  match c with
  | CSavePullRequestReview o n k r => Some (o, n, k, rev_DatabaseId r)
  | CSavePullRequestReviewComment o n k id _ => Some (o, n, k, id)
  | _ => None
  end.

(** What [SaveRepository] sets of a [Repo], and [SavePullRequest] of a
    [PullRequest]. *)
Definition head_of (r : store.Repo) : RepositoryFields * list string :=
  (store.RepositoryFields_of r, store.Topics r).

Definition body_of (p : store.PullRequest)
  : PullRequest * list string * list string :=
  (store.PullRequest_of p, store.Assignees p, store.Labels p).

Definition present {A} (x : option A) : bool :=
  match x with
  | Some _ => true
  | None => false
  end.

(** The parent a Save call looks up is in the store; the calls that look
    nothing up always find it. *)
Definition parent_present (m : store.Mem) (c : Call) : bool :=
  match c with
  | CSavePullRequest o n _ _ _ => present (store.repo_at m o n)
  | CSavePullRequestComment o n k _
  | CSavePullRequestReview o n k _ => present (store.pr_at m o n k)
  | CSavePullRequestReviewComment o n k id _ => present (store.review_at m o n k id)
  | _ => true
  end.

(** [m'] is [m] with the [Repo] [r] under [owner] and [name]. *)
Definition updated (m m' : store.Mem) (owner name : string) (r : store.Repo) : Prop :=
  ∀ o n, store.repo_at m' o n
         = if decide (o = owner ∧ n = name) then Some r else store.repo_at m o n.

(** [m'] holds the same repositories as [m]. *)
Definition unchanged (m m' : store.Mem) : Prop :=
  ∀ o n, store.repo_at m' o n = store.repo_at m o n.

(** A pull request with one more comment, and a review with one more
    comment. *)
Definition with_comments (p : store.PullRequest) (cs : list IssueComment)
  : store.PullRequest :=
  {| store.PullRequest_of := store.PullRequest_of p;
     store.Assignees := store.Assignees p;
     store.Labels := store.Labels p;
     store.Comments := store.Comments p ++ cs;
     store.Reviews := store.Reviews p |}.

Definition with_review_comments (rv : store.PullRequestReview)
    (cs : list PullRequestReviewComment) : store.PullRequestReview :=
  {| store.PullRequestReview_of := store.PullRequestReview_of rv;
     store.review_Comments := store.review_Comments rv ++ cs |}.

Definition with_reviews (p : store.PullRequest)
    (reviews : gmap Z store.PullRequestReview) : store.PullRequest :=
  {| store.PullRequest_of := store.PullRequest_of p;
     store.Assignees := store.Assignees p;
     store.Labels := store.Labels p;
     store.Comments := store.Comments p;
     store.Reviews := Some reviews |}.

(** [m'] is [m] with the pull request [p] under [owner], [name] and [k];
    what [SaveRepository] set of each repository is as it was. *)
Definition updated_pr (m m' : store.Mem) (owner name : string) (k : Z)
    (p : store.PullRequest) : Prop :=
  (∀ o n, head_of <$> store.repo_at m' o n = head_of <$> store.repo_at m o n)
  ∧ (∀ o n k', store.pr_at m' o n k'
               = if decide (o = owner ∧ n = name ∧ k' = k) then Some p
                 else store.pr_at m o n k').

(** A repository with other pull requests. *)
Definition with_prs (r : store.Repo) (prs : gmap Z store.PullRequest) : store.Repo :=
  {| store.RepositoryFields_of := store.RepositoryFields_of r;
     store.Topics := store.Topics r;
     store.PRs := Some prs |}.

(** [m'] is [m] after the assignment
    [m.Repos[owner][name].PRs[k] = p]. *)
Definition put_pr (m m' : store.Mem) (owner name : string) (k : Z)
    (p : store.PullRequest) : Prop :=
  ∃ r prs, store.repo_at m owner name = Some r ∧ store.PRs r = Some prs
           ∧ updated m m' owner name (with_prs r (<[k := p]> prs)).

(** What the call [c] leaves alone on the way from [m] to [m']. *)
Definition framed (c : Call) (m m' : store.Mem) : Prop :=
  (∀ o n, replaces c ≠ Some (o, n) →
     head_of <$> store.repo_at m' o n = head_of <$> store.repo_at m o n)
  ∧ (∀ o n k, replaces c ≠ Some (o, n) → replaces_pr c ≠ Some (o, n, k) →
       body_of <$> store.pr_at m' o n k = body_of <$> store.pr_at m o n k
       ∧ (comments_on c ≠ Some (o, n, k) →
          store.Comments <$> store.pr_at m' o n k
          = store.Comments <$> store.pr_at m o n k))
  ∧ (∀ o n k id, replaces c ≠ Some (o, n) → replaces_pr c ≠ Some (o, n, k) →
       writes_review c ≠ Some (o, n, k, id) →
       store.review_at m' o n k id = store.review_at m o n k id).

(** *** Errors *)

(** [wraps e e0]: [e] is [e0] inside one [fmt.Errorf] or more. *)
Inductive wraps : error → error → Prop :=
  | wraps_once format e0 : wraps (Errorf format e0) e0
  | wraps_more format e e0 : wraps e e0 → wraps (Errorf format e) e0.

(** The error a failed call or query returned. *)
Definition error_of (ev : Event) : option error :=
  match ev with
  | EvCall _ (Fail e) => Some e
  | EvQuery _ (Some e) => Some e
  | _ => None
  end.

(** [blames strict m]: when [m] returns an error, its last event is the
    call or query that failed, and the error returned is the error of that
    event, as it is or wrapped; wrapped, if [strict]. *)
Definition blames {S A} (strict : bool) (m : M S A) : Prop :=
  ∀ h s e, out (m h s) = Err e →
    ∃ pre ev e0, emitted (m h s) = pre ++ [ev]
                 ∧ error_of ev = Some e0
                 ∧ (wraps e e0 ∨ (strict = false ∧ e = e0)).

(** *** What a traversal asks and whom it calls *)

(** The page size the source passes with each paginated query. *)
Definition page_of (k : connection) : Z :=
  match k with
  | Root => 0
  | RepositoryTopics => 50
  | Issues => 50
  | IssueAssignees => 2
  | IssueLabels => 2
  | IssueComments => 10
  | PullRequests => 50
  | PullRequestAssignees => 2
  | PullRequestLabels => 2
  | PullRequestComments => 10
  | PullRequestReviews => 5
  | PullRequestReviewComments => 5
  | MembersWithRole => 100
  end.

Definition page_size (q : Query) : option Z :=
  match q with
  | QRepository _ _ | QOrganization _ => None
  | QRepositoryTopics _ p _ | QIssues _ p _ | QIssueAssignees _ p _
  | QIssueLabels _ p _ | QIssueComments _ p _ | QPullRequests _ p _
  | QPullRequestAssignees _ p _ | QPullRequestLabels _ p _
  | QPullRequestComments _ p _ | QPullRequestReviews _ p _
  | QPullRequestReviewComments _ p _ | QMembersWithRole _ p _ => Some p
  end.

(** The repository a Save call is addressed to, by its [repositoryOwner]
    and [repositoryName] arguments. *)
Definition addressed_to (c : Call) : option (string * string) :=
  match c with
  | CSaveIssue o n _ _ _ | CSaveIssueComment o n _ _
  | CSavePullRequest o n _ _ _ | CSavePullRequestComment o n _ _
  | CSavePullRequestReview o n _ _
  | CSavePullRequestReviewComment o n _ _ _ => Some (o, n)
  | _ => None
  end.

(** An event of a download of the repository [owner]/[name]: the root
    query for it, a query for a page with the page size of its kind, a Save
    call addressed to [owner]/[name], [SaveRepository], or one of
    [Version], [Begin], [Commit] and [Rollback]. *)
Definition of_repository (owner name : string) (ev : Event) : bool :=
  match ev with
  | EvQuery (QRepository o n) _ => bool_decide (o = owner ∧ n = name)
  | EvQuery (QOrganization _) _ | EvQuery (QMembersWithRole _ _ _) _ => false
  | EvQuery q _ => bool_decide (page_size q = Some (page_of (connection_of q)))
  | EvCall (CSaveRepository _ _) _ => true
  | EvCall (CSaveOrganization _) _ | EvCall (CSaveUser _) _ => false
  | EvCall (CSetActiveVersion _) _ | EvCall (CCleanup _) _ => false
  | EvCall c _ =>
      match addressed_to c with
      | Some (o, n) => bool_decide (o = owner ∧ n = name)
      | None => true
      end
  end.

(** An event of a download of the organization [login]. *)
Definition of_organization (login : string) (ev : Event) : bool :=
  match ev with
  | EvQuery (QOrganization l) _ => bool_decide (l = login)
  | EvQuery (QMembersWithRole l p _) _ => bool_decide (l = login ∧ p = 100)
  | EvQuery _ _ => false
  | EvCall (CSaveOrganization _) _ | EvCall (CSaveUser _) _ => true
  | EvCall (CVersion _) _ | EvCall CBegin _ | EvCall CCommit _
  | EvCall CRollback _ => true
  | EvCall _ _ => false
  end.

(** *** The bridge *)

(** A request that goes to the configured project and repository; a
    comment's text is at most 1002 bytes long. *)
Definition addressed (c : migrate.Config) (rq : migrate.Request) : Prop :=
  match rq with
  | migrate.CreatePullRequest key slug _ =>
      key = migrate.BitBucketServerProjectKey c ∧ slug = migrate.GithubRepoName c
  | migrate.CreatePullRequestComment key slug _ params =>
      key = migrate.BitBucketServerProjectKey c ∧ slug = migrate.GithubRepoName c
      ∧ (String.length (migrate.Text params) ≤ 1002)%nat
  end.

(** The exchanges [xs] of a computation that stops at the first request
    the server refuses: all were answered when it returns normally; when it
    returns the error [e], the last one was refused with [e] and all before
    it were answered. *)
Definition stops_at_refusal {A} (res : error + A) (xs : list migrate.Exchange)
  : Prop :=
  match res with
  | inr _ => Forall (fun x => bridge.answered x = true) xs
  | inl e =>
      ∃ pre rq, xs = pre ++ [(rq, inl e)]
                ∧ Forall (fun x => bridge.answered x = true) pre
  end.


(** [sends good m]: whatever was sent before, [m] adds exchanges whose
    requests are all [good] and stops at the first request the server
    refuses. *)
Definition sends {A} (good : migrate.Request → Prop) (m : migrate.B A) : Prop :=
  ∀ st, ∃ xs,
    migrate.sent (m st).2 = migrate.sent st ++ xs
    ∧ stops_at_refusal (m st).1 xs
    ∧ Forall (fun x => good x.1) xs.

End laws.

(** ** Vocabulary for what a download leaves in the store

    The first page of every connection comes inside its parent; [Pages]
    names the pages that are fetched after it. *)
Module remote.
Import github runs laws.

Record Pages := mkPages
  { topic_pages : Repository → list (list RepositoryTopic);
    issue_pages : Repository → list (list Issue);
    issue_assignee_pages : Issue → list (list Actor);
    issue_label_pages : Issue → list (list Label);
    issue_comment_pages : Issue → list (list IssueComment);
    pull_request_pages : Repository → list (list PullRequest);
    assignee_pages : PullRequest → list (list Actor);
    label_pages : PullRequest → list (list Label);
    comment_pages : PullRequest → list (list IssueComment);
    review_pages : PullRequest → list (list PullRequestReview);
    review_comment_pages : PullRequestReview → list (list PullRequestReviewComment) }.

(** The nodes of a connection: those of the first page, then those of the
    pages fetched after it. *)
Definition all {N} (first : Connection N) (more : list (list N)) : list N :=
  Nodes first ++ concat more.

(** [lands r a Q]: the run [r] returns [a] and leaves a store where [Q]
    holds. *)
Definition lands {A} (r : Run store.Mem A) (a : A) (Q : store.Mem → Prop) : Prop :=
  out r = Ret a ∧ Q (final r).

(** An action that returns normally on a node that is [ok], and takes the
    invariant [Inv], which speaks of the nodes done so far, one node
    further. *)
Definition steps {N} (ok : N → Prop) (Inv : list N → store.Mem → Prop)
    (act : N → M store.Mem unit) : Prop :=
  ∀ done x h s, ok x → Inv done s → lands (act x h s) tt (Inv (done ++ [x])).

Section served.
Variable client : Client.
Variable fuel : nat.
Variable P : Pages.

(** [handed source first more]: following the cursors from the first
    page, the source answers with the pages [more], and the loop has a turn
    for each. *)
Definition handed {N} (source : string → M store.Mem (Connection N))
    (first : Connection N) (more : list (list N)) : Prop :=
  delivers source (PageInfo_of first) more ∧ (length more ≤ fuel)%nat.

(** The client hands over the pages of [P] for a review, a pull request,
    an issue, a repository, and for everything below them. *)
Definition review_served (rv : PullRequestReview) : Prop :=
  handed (fun cursor =>
            query client (QPullRequestReviewComments (rev_Id rv)
                            pullRequestReviewCommentsPage cursor))
    (rev_Comments rv) (review_comment_pages P rv).

Definition pull_request_served (pr : PullRequest) : Prop :=
  handed (fun cursor =>
            query client (QPullRequestAssignees (pr_Id pr) assigneesPage cursor))
    (pr_Assignees pr) (assignee_pages P pr)
  ∧ handed (fun cursor =>
              query client (QPullRequestLabels (pr_Id pr) assigneesPage cursor))
      (pr_Labels pr) (label_pages P pr)
  ∧ handed (fun cursor =>
              query client (QPullRequestComments (pr_Id pr) issueCommentsPage cursor))
      (pr_Comments pr) (comment_pages P pr)
  ∧ handed (fun cursor =>
              query client (QPullRequestReviews (pr_Id pr) pullRequestReviewsPage
                              cursor))
      (pr_Reviews pr) (review_pages P pr)
  ∧ Forall review_served (all (pr_Reviews pr) (review_pages P pr)).

Definition issue_served (issue : Issue) : Prop :=
  handed (fun cursor =>
            query client (QIssueAssignees (issue_Id issue) assigneesPage cursor))
    (issue_Assignees issue) (issue_assignee_pages P issue)
  ∧ handed (fun cursor =>
              query client (QIssueLabels (issue_Id issue) labelsPage cursor))
      (issue_Labels issue) (issue_label_pages P issue)
  ∧ handed (fun cursor =>
              query client (QIssueComments (issue_Id issue) issueCommentsPage cursor))
      (issue_Comments issue) (issue_comment_pages P issue).

Definition repository_served (q : Repository) : Prop :=
  handed (fun cursor =>
            query client (QRepositoryTopics (repo_Id (repo_Fields q))
                            repositoryTopicsPage cursor))
    (repo_RepositoryTopics q) (topic_pages P q)
  ∧ handed (fun cursor =>
              query client (QIssues (repo_Id (repo_Fields q)) issuesPage cursor))
      (repo_Issues q) (issue_pages P q)
  ∧ Forall issue_served (all (repo_Issues q) (issue_pages P q))
  ∧ handed (fun cursor =>
              query client (QPullRequests (repo_Id (repo_Fields q)) pullRequestsPage
                              cursor))
      (repo_PullRequests q) (pull_request_pages P q)
  ∧ Forall pull_request_served (all (repo_PullRequests q) (pull_request_pages P q)).

End served.

Section stored.
Variable P : Pages.

(** What the store should hold of a review: the review and all its
    comments, in the order of the pages. *)
Definition stored_review (rv : PullRequestReview) : store.PullRequestReview :=
  {| store.PullRequestReview_of := rv;
     store.review_Comments := all (rev_Comments rv) (review_comment_pages P rv) |}.

(** The reviews are filed under their [DatabaseId], one after the other:
    of two reviews with the same id the later one stays. *)
Definition file_review (g : gmap Z store.PullRequestReview) (rv : PullRequestReview)
  : gmap Z store.PullRequestReview :=
  <[rev_DatabaseId rv := stored_review rv]> g.

Definition stored_reviews (pr : PullRequest) : gmap Z store.PullRequestReview :=
  foldl file_review ∅ (all (pr_Reviews pr) (review_pages P pr)).

Definition stored_pull_request (pr : PullRequest) : store.PullRequest :=
  {| store.PullRequest_of := pr;
     store.Assignees := map Login (all (pr_Assignees pr) (assignee_pages P pr));
     store.Labels := map label_Name (all (pr_Labels pr) (label_pages P pr));
     store.Comments := all (pr_Comments pr) (comment_pages P pr);
     store.Reviews := Some (stored_reviews pr) |}.

(** The pull requests are filed under their number. *)
Definition file_pull_request (g : gmap Z store.PullRequest) (pr : PullRequest)
  : gmap Z store.PullRequest :=
  <[pr_Number pr := stored_pull_request pr]> g.

Definition stored_pull_requests (q : Repository) : gmap Z store.PullRequest :=
  foldl file_pull_request ∅ (all (repo_PullRequests q) (pull_request_pages P q)).

Definition stored_repository (q : Repository) : store.Repo :=
  {| store.RepositoryFields_of := repo_Fields q;
     store.Topics := map (fun n => topic_Name (rt_Topic n))
                       (all (repo_RepositoryTopics q) (topic_pages P q));
     store.PRs := Some (stored_pull_requests q) |}.

End stored.
End remote.

(** ** Concrete repositories and clients *)
Module scenario.
Import github.

Definition no_more : PageInfo :=
  {| HasNextPage := false; EndCursor := EmptyString |}.

Definition c1 : IssueComment :=
  {| ic_Id := "IC_1"; ic_Author := mkActor "alice"; ic_CreatedAt := "t1";
     ic_Body := "first" |}.
Definition c2 : IssueComment :=
  {| ic_Id := "IC_2"; ic_Author := mkActor "bob"; ic_CreatedAt := "t2";
     ic_Body := "second" |}.
Definition c3 : IssueComment :=
  {| ic_Id := "IC_3"; ic_Author := mkActor "alice"; ic_CreatedAt := "t3";
     ic_Body := "third" |}.

(** Issue #1: its comments come as [c1; c2] with cursor ["A"], then [c3]. *)
Definition issue1 : Issue :=
  {| issue_Id := "I_1"; issue_Number := 1; issue_Title := "crash";
     issue_Assignees := mkConnection [mkActor "alice"] no_more;
     issue_Labels := mkConnection [mkLabel "bug"] no_more;
     issue_Comments :=
       mkConnection [c1; c2] {| HasNextPage := true; EndCursor := "A" |} |}.

Definition page2 : Connection IssueComment := mkConnection [c3] no_more.

(** Pull request #42: one comment, no review. *)
Definition pr42 : PullRequest :=
  {| pr_Id := "PR_42"; pr_Number := 42; pr_Title := "fix crash";
     pr_Body := "fixes #1"; pr_State := "OPEN";
     pr_HeadRef := mkRef "fix"; pr_BaseRef := mkRef "master";
     pr_Assignees := mkConnection [mkActor "bob"] no_more;
     pr_Labels := mkConnection [] no_more;
     pr_Comments := mkConnection [c1] no_more;
     pr_Reviews := mkConnection [] no_more |}.

Definition rc1 : PullRequestReviewComment :=
  {| rc_Author := mkActor "carol"; rc_CreatedAt := "t4"; rc_Body := "nit" |}.

Definition review9 : PullRequestReview :=
  {| rev_Id := "R_9"; rev_DatabaseId := 9; rev_Author := mkActor "carol";
     rev_SubmittedAt := "t5"; rev_Body := "looks good";
     rev_Comments := mkConnection [rc1] no_more |}.

(** Pull request #7: closed, one comment, one review with one comment. *)
Definition pr7 : PullRequest :=
  {| pr_Id := "PR_7"; pr_Number := 7; pr_Title := "old";
     pr_Body := "superseded"; pr_State := "CLOSED";
     pr_HeadRef := mkRef "old"; pr_BaseRef := mkRef "master";
     pr_Assignees := mkConnection [] no_more;
     pr_Labels := mkConnection [mkLabel "wontfix"] no_more;
     pr_Comments := mkConnection [c2] no_more;
     pr_Reviews := mkConnection [review9] no_more |}.

(** Pull request #8: open, one comment, one review with one comment. *)
Definition pr8 : PullRequest :=
  {| pr_Id := "PR_8"; pr_Number := 8; pr_Title := "new";
     pr_Body := "adds a flag"; pr_State := "OPEN";
     pr_HeadRef := mkRef "flag"; pr_BaseRef := mkRef "master";
     pr_Assignees := mkConnection [] no_more;
     pr_Labels := mkConnection [] no_more;
     pr_Comments := mkConnection [c3] no_more;
     pr_Reviews := mkConnection [review9] no_more |}.

Definition fields (login : string) : RepositoryFields :=
  {| repo_Id := "REPO"; repo_Owner := mkActor login; repo_Name := "bar";
     repo_NameWithOwner := "foo/bar" |}.

Definition repository (login : string) (prs : list PullRequest) : Repository :=
  {| repo_Fields := fields login;
     repo_RepositoryTopics :=
       mkConnection [mkRepositoryTopic (mkTopic "go")] no_more;
     repo_Issues := mkConnection [issue1] no_more;
     repo_PullRequests := mkConnection prs no_more |}.

Definition unexpected {A} : error + A := inl (Opaque "unexpected query").

(** The server holds the repository under the owner login [login] and
    answers the second page of the comments of issue #1. *)
Definition client (login : string) (prs : list PullRequest) : Client :=
  fun _ q =>
    match q with
    | QRepository _ _ => inr (repository login prs)
    | QIssueComments id _ cursor =>
        if decide (id = "I_1" ∧ cursor = "A") then inr page2 else unexpected
    | _ => unexpected
    end.

(** The same server, but the query for the second page of comments fails. *)
Definition flaky_client : Client :=
  fun _ q =>
    match q with
    | QRepository _ _ => inr (repository "foo" [pr42])
    | _ => unexpected
    end.

Definition acme : Organization :=
  {| org_Login := "acme";
     org_MembersWithRole :=
       mkConnection [mkUserExtended "alice"; mkUserExtended "bob"] no_more |}.

Definition org_client : Client :=
  fun _ q =>
    match q with
    | QOrganization _ => inr acme
    | _ => unexpected
    end.

(** The store after a download of foo/bar with its three pull requests. *)
Definition downloaded : store.Mem :=
  final (DownloadRepository (client "foo" [pr42; pr7; pr8]) 3 "foo" "bar" 0 []
           NewMemDownloader).

(** A bridge: where the repository goes, a server that numbers its answers,
    [range] in the order of the keys, and bodies for texts. *)
Definition config : migrate.Config :=
  {| migrate.GithubRepoOwner := "foo";
     migrate.GithubRepoName := "bar";
     migrate.BitBucketServerAddress := "http://localhost:7990";
     migrate.BitBucketServerUser := "admin";
     migrate.BitBucketServerPass := "secret";
     migrate.BitBucketServerProjectKey := "JOH" |}.

Definition numbering : migrate.Server :=
  fun before _ => inr (100 + Z.of_nat (length before)).

Definition by_key : nat → ∀ V : Type, gmap Z V → list (Z * V) :=
  fun _ V g => map_to_list g.

Definition start : migrate.State := {| migrate.sent := []; migrate.ranged := 0 |}.

End scenario.

(** ** More of the concrete repository *)
Module examples.
Import github scenario.

(** What the server of [scenario.client] holds beyond the first pages: one
    more page of comments for issue #1. *)
Definition pages : remote.Pages :=
  {| remote.topic_pages := fun _ => [];
     remote.issue_pages := fun _ => [];
     remote.issue_assignee_pages := fun _ => [];
     remote.issue_label_pages := fun _ => [];
     remote.issue_comment_pages := fun issue =>
       if decide (issue_Id issue = "I_1") then [[c3]] else [];
     remote.pull_request_pages := fun _ => [];
     remote.assignee_pages := fun _ => [];
     remote.label_pages := fun _ => [];
     remote.comment_pages := fun _ => [];
     remote.review_pages := fun _ => [];
     remote.review_comment_pages := fun _ => [] |}.

(** The store with the repository foo/bar, then with pull request #8 in
    it, then with review 9 on that pull request. *)
Definition with_repository : store.Mem :=
  (store.SaveRepository (fields "foo") ["go"] NewMemDownloader).1.

Definition with_pr8 : store.Mem :=
  (store.SavePullRequest "foo" "bar" pr8 [] [] with_repository).1.

Definition with_review9 : store.Mem :=
  (store.SavePullRequestReview "foo" "bar" 8 review9 with_pr8).1.

(** A client that knows no organization. *)
Definition nobody : Client := fun _ _ => unexpected.

End examples.

(** * Properties *)

(** ** Rules for triples *)
Module run_rules.
Import github runs.

Section rules.
Context {S : Type} `{storer S}.
Variable client : Client.

(** *** Equations for runs *)

Lemma call_eq (c : Call) h (s : S) :
  call c h s =
  mkRun (match (invoke c s).2 with
         | OK => Ret tt
         | Fail e => Err e
         | Panicked => Panic
         end) (invoke c s).1 [EvCall c (invoke c s).2].
Proof. unfold call. by destruct (invoke c s). Qed.

Lemma bind_Ret {A B} (m : M S A) (k : A → M S B) h s a :
  out (m h s) = Ret a →
  bind m k h s =
  mkRun (out (k a (h ++ emitted (m h s)) (final (m h s))))
        (final (k a (h ++ emitted (m h s)) (final (m h s))))
        (emitted (m h s) ++ emitted (k a (h ++ emitted (m h s)) (final (m h s)))).
Proof. intros E. unfold bind. by rewrite E. Qed.

Lemma bind_Err {A B} (m : M S A) (k : A → M S B) h s e :
  out (m h s) = Err e →
  bind m k h s = mkRun (Err e) (final (m h s)) (emitted (m h s)).
Proof. intros E. unfold bind. by rewrite E. Qed.

Lemma bind_Panic {A B} (m : M S A) (k : A → M S B) h s :
  out (m h s) = Panic →
  bind m k h s = mkRun Panic (final (m h s)) (emitted (m h s)).
Proof. intros E. unfold bind. by rewrite E. Qed.

Lemma bind_OutOfFuel {A B} (m : M S A) (k : A → M S B) h s :
  out (m h s) = OutOfFuel →
  bind m k h s = mkRun OutOfFuel (final (m h s)) (emitted (m h s)).
Proof. intros E. unfold bind. by rewrite E. Qed.

Lemma wrap_out {A} format (m : M S A) h s :
  out (wrap format m h s) =
  match out (m h s) with
  | Err e => Err (Errorf format e)
  | o => o
  end.
Proof. unfold wrap. by destruct (out (m h s)) eqn:E; simpl; rewrite ?E. Qed.

Lemma wrap_final {A} format (m : M S A) h s :
  final (wrap format m h s) = final (m h s).
Proof. unfold wrap. by destruct (out (m h s)). Qed.

Lemma wrap_emitted {A} format (m : M S A) h s :
  emitted (wrap format m h s) = emitted (m h s).
Proof. unfold wrap. by destruct (out (m h s)). Qed.

Lemma bind_emitted {A B} (m : M S A) (k : A → M S B) h s :
  emitted (bind m k h s) =
  emitted (m h s) ++
  match out (m h s) with
  | Ret a => emitted (k a (h ++ emitted (m h s)) (final (m h s)))
  | _ => []
  end.
Proof. unfold bind. destruct (out (m h s)); simpl; by rewrite ?app_nil_r. Qed.

Lemma bind_out_Ret {A B} (m : M S A) (k : A → M S B) h s b :
  out (bind m k h s) = Ret b →
  ∃ a, out (m h s) = Ret a
       ∧ out (k a (h ++ emitted (m h s)) (final (m h s))) = Ret b.
Proof. unfold bind. destruct (out (m h s)) as [a| | |]; simpl; [|done..]. eauto. Qed.

Lemma wrap_out_Ret {A} format (m : M S A) h s a :
  out (wrap format m h s) = Ret a → out (m h s) = Ret a.
Proof. rewrite wrap_out. by destruct (out (m h s)). Qed.

Lemma triple_conseq {A} (P P' : assertion S) (m : M S A) Q Q' X X' :
  triple P m Q X →
  (∀ ctx s, P' ctx s → P ctx s) →
  (∀ a ctx s, Q a ctx s → Q' a ctx s) →
  (∀ k ctx s, X k ctx s → X' k ctx s) →
  triple P' m Q' X'.
Proof.
  intros Hm HP HQ HX ctx h s Hpre.
  specialize (Hm ctx h s (HP _ _ Hpre)).
  destruct (out (m h s)); auto.
Qed.

Lemma triple_ret {A} (a : A) (P : assertion S) Q X :
  (∀ ctx s, P ctx s → Q a ctx s) → triple P (ret a) Q X.
Proof. intros HQ ctx h s HP. simpl. rewrite app_nil_r. auto. Qed.

Lemma triple_out_of_fuel {A} (P : assertion S) (Q : A → assertion S) X :
  (∀ ctx s, P ctx s → X AFuel ctx s) → triple P out_of_fuel Q X.
Proof. intros HX ctx h s HP. simpl. rewrite app_nil_r. auto. Qed.

Lemma triple_bind {A B} (m : M S A) (k : A → M S B) P Q R X :
  triple P m Q X → (∀ a, triple (Q a) (k a) R X) → triple P (bind m k) R X.
Proof.
  intros Hm Hk ctx h s HP. specialize (Hm ctx h s HP). unfold bind.
  destruct (out (m h s)) as [a|e| |] eqn:E; simpl; try assumption.
  specialize (Hk a _ (h ++ emitted (m h s)) _ Hm).
  rewrite app_assoc. exact Hk.
Qed.

Lemma triple_wrap {A} format (m : M S A) P Q X :
  triple P m Q X → triple P (wrap format m) Q X.
Proof.
  intros Hm ctx h s HP. specialize (Hm ctx h s HP). unfold wrap.
  destruct (out (m h s)) eqn:E; simpl; rewrite ?E; assumption.
Qed.

Lemma triple_range {N} (nodes : list N) (body : N → M S unit) I X :
  (∀ x, x ∈ nodes → triple I (body x) (fun _ => I) X) →
  triple I (range nodes body) (fun _ => I) X.
Proof.
  induction nodes as [|x rest IH]; intros Hbody; simpl.
  - apply triple_ret; auto.
  - eapply triple_bind.
    + apply Hbody. left.
    + intros []. apply IH. intros y Hy. apply Hbody. by right.
Qed.

Lemma triple_pages {N A} fuel (fetch : string → M S (Connection N))
    (body : A → list N → M S A) info acc I X :
  (∀ cursor, triple I (fetch cursor) (fun _ => I) X) →
  (∀ a nodes, triple I (body a nodes) (fun _ => I) X) →
  (∀ ctx s, I ctx s → X AFuel ctx s) →
  triple I (pages fuel fetch body info acc) (fun _ => I) X.
Proof.
  intros Hfetch Hbody Hfuel. revert info acc.
  induction fuel as [|fuel IH]; intros info acc; simpl;
    destruct (HasNextPage info).
  - by apply triple_out_of_fuel.
  - by apply triple_ret.
  - eapply triple_bind; [apply Hfetch|]. intros q.
    eapply triple_bind; [apply Hbody|]. intros acc'. apply IH.
  - by apply triple_ret.
Qed.

Lemma triple_collect {N} (name : N → string) acc nodes (P : assertion S) Q X :
  (∀ ctx s, P ctx s → Q (acc ++ map name nodes) ctx s) →
  triple P (collect name acc nodes) Q X.
Proof. apply triple_ret. Qed.

Lemma triple_call (c : Call) (P : assertion S) Q X :
  (∀ ctx s, P ctx s →
     match (invoke c s).2 with
     | OK => Q tt (ctx ++ [EvCall c OK]) (invoke c s).1
     | Fail e => X AErr (ctx ++ [EvCall c (Fail e)]) (invoke c s).1
     | Panicked => X APanic (ctx ++ [EvCall c Panicked]) (invoke c s).1
     end) →
  triple P (call c) Q X.
Proof.
  intros Hc ctx h s HP. specialize (Hc ctx s HP). unfold call.
  destruct (invoke c s) as [s' st]; simpl in *. by destruct st.
Qed.

Lemma triple_query (q : Query) (P : assertion S) Q X :
  (∀ ctx h s, P ctx s →
     match client h q with
     | inl e => X AErr (ctx ++ [EvQuery q (Some e)]) s
     | inr r => Q r (ctx ++ [EvQuery q None]) s
     end) →
  triple P (query client q) Q X.
Proof.
  intros Hq ctx h s HP. specialize (Hq ctx h s HP). unfold query.
  by destruct (client h q).
Qed.

End rules.
End run_rules.

(** ** One invariant through a whole traversal

    If every permitted call and every permitted query maintains [I] (and
    stops in [X] when it fails), so does every function of the downloader
    that issues only permitted calls and queries. *)
Module steady.
Import github runs run_rules.

Section steady.
Context {S : Type} `{storer S}.
Variable client : Client.
Variable fuel : nat.
Variable I : assertion S.
Variable X : abort → assertion S.
Variable may_call : Call → Prop.
Variable may_ask : Query → Prop.
Hypothesis fuel_ok : ∀ ctx s, I ctx s → X AFuel ctx s.
Hypothesis call_ok : ∀ c, may_call c → triple I (call c) (fun _ => I) X.
Hypothesis query_ok : ∀ q, may_ask q → triple I (query client q) (fun _ => I) X.

Local Abbreviation steady := (runs.steady I X).

Lemma steady_ret {A} (a : A) : steady (ret a).
Proof. by apply triple_ret. Qed.

Lemma steady_bind {A B} (m : M S A) (k : A → M S B) :
  steady m → (∀ a, steady (k a)) → steady (bind m k).
Proof. intros Hm Hk. eapply triple_bind; [exact Hm | exact Hk]. Qed.

Lemma steady_wrap {A} format (m : M S A) : steady m → steady (wrap format m).
Proof. apply triple_wrap. Qed.

Lemma steady_range {N} (nodes : list N) body :
  (∀ x, steady (body x)) → steady (range nodes body).
Proof. intros Hb. apply triple_range. intros x _. apply Hb. Qed.

Lemma steady_pages {N A} (fetch : string → M S (Connection N))
    (body : A → list N → M S A) info acc :
  (∀ cursor, steady (fetch cursor)) →
  (∀ a nodes, steady (body a nodes)) →
  steady (pages fuel fetch body info acc).
Proof. intros Hf Hb. by apply triple_pages. Qed.

Lemma steady_collect {N} (name : N → string) acc nodes :
  steady (collect name acc nodes).
Proof. apply steady_ret. Qed.

Lemma steady_call c : may_call c → steady (call c).
Proof. apply call_ok. Qed.

Lemma steady_query q : may_ask q → steady (query client q).
Proof. apply query_ok. Qed.

Ltac in_list :=
  simpl in *; repeat rewrite elem_of_cons in *;
  repeat rewrite elem_of_nil in *; tauto.

Ltac walk :=
  intros;
  repeat first
    [ progress cbv beta
    | apply steady_ret
    | apply steady_collect
    | apply steady_wrap
    | apply steady_bind; [|intros]
    | apply steady_range; intros
    | apply steady_pages; intros
    | apply steady_call; solve [auto]
    | match goal with
      | |- runs.steady _ _ (query _ ?q) => apply (steady_query q); solve [auto]
      end ].

Lemma steady_downloadTopics repository :
  (∀ cur, may_ask (QRepositoryTopics (repo_Id (repo_Fields repository))
                     repositoryTopicsPage cur)) →
  steady (downloadTopics client fuel repository).
Proof. unfold downloadTopics. walk. Qed.

Lemma steady_downloadIssueAssignees issue :
  (∀ cur, may_ask (QIssueAssignees (issue_Id issue) assigneesPage cur)) →
  steady (downloadIssueAssignees client fuel issue).
Proof. unfold downloadIssueAssignees. walk. Qed.

Lemma steady_downloadIssueLabels issue :
  (∀ cur, may_ask (QIssueLabels (issue_Id issue) labelsPage cur)) →
  steady (downloadIssueLabels client fuel issue).
Proof. unfold downloadIssueLabels. walk. Qed.

Lemma steady_downloadIssueComments owner name issue :
  (∀ c, may_call (CSaveIssueComment owner name (issue_Number issue) c)) →
  (∀ cur, may_ask (QIssueComments (issue_Id issue) issueCommentsPage cur)) →
  steady (downloadIssueComments client fuel owner name issue).
Proof. unfold downloadIssueComments. walk. Qed.

Lemma steady_downloadPullRequestAssignees pr :
  (∀ cur, may_ask (QPullRequestAssignees (pr_Id pr) assigneesPage cur)) →
  steady (downloadPullRequestAssignees client fuel pr).
Proof. unfold downloadPullRequestAssignees. walk. Qed.

Lemma steady_downloadPullRequestLabels pr :
  (∀ cur, may_ask (QPullRequestLabels (pr_Id pr) assigneesPage cur)) →
  steady (downloadPullRequestLabels client fuel pr).
Proof. unfold downloadPullRequestLabels. walk. Qed.

Lemma steady_downloadPullRequestComments owner name pr :
  (∀ c, may_call (CSavePullRequestComment owner name (pr_Number pr) c)) →
  (∀ cur, may_ask (QPullRequestComments (pr_Id pr) issueCommentsPage cur)) →
  steady (downloadPullRequestComments client fuel owner name pr).
Proof. unfold downloadPullRequestComments. walk. Qed.

Lemma steady_downloadReviewComments owner name number review :
  (∀ c, may_call (CSavePullRequestReviewComment owner name number
                    (rev_DatabaseId review) c)) →
  (∀ cur, may_ask (QPullRequestReviewComments (rev_Id review)
                     pullRequestReviewCommentsPage cur)) →
  steady (downloadReviewComments client fuel owner name number review).
Proof.
  unfold downloadReviewComments, downloadReviewComments_process. walk.
Qed.

Lemma steady_downloadUsers name organization :
  (∀ u, may_call (CSaveUser u)) →
  (∀ cur, may_ask (QMembersWithRole name membersWithRolePage cur)) →
  steady (downloadUsers client fuel name organization).
Proof. unfold downloadUsers, downloadUsers_process. walk. Qed.

(** The functions that nest other walks. *)

Lemma steady_downloadPullRequestReviews owner name pr :
  (∀ r, may_call (CSavePullRequestReview owner name (pr_Number pr) r)) →
  (∀ r c, may_call (CSavePullRequestReviewComment owner name (pr_Number pr)
                      (rev_DatabaseId r) c)) →
  (∀ q, connection_of q ∈ [PullRequestReviews; PullRequestReviewComments] →
        may_ask q) →
  steady (downloadPullRequestReviews client fuel owner name pr).
Proof.
  intros Hreview Hcomment Hq.
  assert (∀ review, steady (downloadPullRequestReviews_process client fuel
                              owner name pr review)) as Hprocess.
  { intros review. unfold downloadPullRequestReviews_process.
    apply steady_bind; [by apply steady_wrap, steady_call|].
    intros _. apply steady_downloadReviewComments.
    - intros c. apply Hcomment.
    - intros cur. apply Hq. in_list. }
  unfold downloadPullRequestReviews.
  apply steady_bind; [by apply steady_range|]. intros _.
  apply steady_pages; [|intros; by apply steady_range].
  intros cur. apply steady_wrap.
  match goal with |- runs.steady _ _ (query _ ?q) => apply (steady_query q) end.
  apply Hq. in_list.
Qed.

Lemma steady_downloadPullRequests_process owner name pr :
  (∀ a l, may_call (CSavePullRequest owner name pr a l)) →
  (∀ c, may_call (CSavePullRequestComment owner name (pr_Number pr) c)) →
  (∀ r, may_call (CSavePullRequestReview owner name (pr_Number pr) r)) →
  (∀ r c, may_call (CSavePullRequestReviewComment owner name (pr_Number pr)
                      (rev_DatabaseId r) c)) →
  (∀ q, connection_of q ∈ [PullRequestAssignees; PullRequestLabels;
                           PullRequestComments; PullRequestReviews;
                           PullRequestReviewComments] → may_ask q) →
  steady (downloadPullRequests_process client fuel owner name pr).
Proof.
  intros Hpr Hcomment Hreview Hrc Hq. unfold downloadPullRequests_process.
  apply steady_bind.
  { apply steady_downloadPullRequestAssignees. intros; apply Hq; in_list. }
  intros assignees. apply steady_bind.
  { apply steady_downloadPullRequestLabels. intros; apply Hq; in_list. }
  intros labels. apply steady_bind; [by apply steady_call|].
  intros _. apply steady_bind.
  { apply steady_downloadPullRequestComments; [done|].
    intros; apply Hq; in_list. }
  intros _. apply steady_downloadPullRequestReviews; [done..|].
  intros q Hin. apply Hq. in_list.
Qed.

Lemma steady_downloadPullRequests owner name repository :
  (∀ pr a l, may_call (CSavePullRequest owner name pr a l)) →
  (∀ k c, may_call (CSavePullRequestComment owner name k c)) →
  (∀ k r, may_call (CSavePullRequestReview owner name k r)) →
  (∀ k id c, may_call (CSavePullRequestReviewComment owner name k id c)) →
  (∀ q, connection_of q ∈ [PullRequests; PullRequestAssignees; PullRequestLabels;
                           PullRequestComments; PullRequestReviews;
                           PullRequestReviewComments] → may_ask q) →
  steady (downloadPullRequests client fuel owner name repository).
Proof.
  intros Hpr Hcomment Hreview Hrc Hq.
  assert (∀ pr, steady (downloadPullRequests_process client fuel owner name pr))
    as Hprocess.
  { intros pr. apply steady_downloadPullRequests_process; try done.
    intros q Hin. apply Hq. in_list. }
  unfold downloadPullRequests.
  apply steady_bind; [apply steady_range; intros; by apply steady_wrap|].
  intros _. apply steady_pages.
  - intros cur. apply steady_wrap.
    match goal with |- runs.steady _ _ (query _ ?q) => apply (steady_query q) end.
    apply Hq. in_list.
  - intros. apply steady_range. intros. by apply steady_wrap.
Qed.

Lemma steady_downloadIssues_process owner name issue :
  (∀ a l, may_call (CSaveIssue owner name issue a l)) →
  (∀ c, may_call (CSaveIssueComment owner name (issue_Number issue) c)) →
  (∀ q, connection_of q ∈ [IssueAssignees; IssueLabels; IssueComments] → may_ask q) →
  steady (downloadIssues_process client fuel owner name issue).
Proof.
  intros Hissue Hcomment Hq. unfold downloadIssues_process.
  apply steady_bind.
  { apply steady_downloadIssueAssignees. intros; apply Hq; in_list. }
  intros assignees. apply steady_bind.
  { apply steady_downloadIssueLabels. intros; apply Hq; in_list. }
  intros labels. apply steady_bind; [by apply steady_call|].
  intros _. apply steady_downloadIssueComments; [done|].
  intros; apply Hq; in_list.
Qed.

Lemma steady_downloadIssues owner name repository :
  (∀ issue a l, may_call (CSaveIssue owner name issue a l)) →
  (∀ k c, may_call (CSaveIssueComment owner name k c)) →
  (∀ q, connection_of q ∈ [Issues; IssueAssignees; IssueLabels; IssueComments] →
        may_ask q) →
  steady (downloadIssues client fuel owner name repository).
Proof.
  intros Hissue Hcomment Hq.
  assert (∀ issue, steady (downloadIssues_process client fuel owner name issue))
    as Hprocess.
  { intros issue. apply steady_downloadIssues_process; try done.
    intros q Hin. apply Hq. in_list. }
  unfold downloadIssues.
  apply steady_bind; [apply steady_range; intros; by apply steady_wrap|].
  intros _. apply steady_pages.
  - intros cur. apply steady_wrap.
    match goal with |- runs.steady _ _ (query _ ?q) => apply (steady_query q) end.
    apply Hq. in_list.
  - intros. apply steady_range. intros. by apply steady_wrap.
Qed.

End steady.
End steady.

(** ** The failure policy of the two top-level traversals *)
Module failure_policy.
Import github runs run_rules steady.

Section policy.
Context {S : Type} `{storer S}.
Variable client : Client.
Variable fuel : nat.

Lemma clean_snoc ctx ev :
  clean ctx → succeeded ev = true → is_step ev = true → clean (ctx ++ [ev]).
Proof.
  intros Hc Hs Hq. apply Forall_app. split; [exact Hc|].
  by repeat constructor.
Qed.

Lemma call_stops c :
  is_save c = true → stops_clean (call c).
Proof.
  intros Hsave. apply triple_call. intros ctx s Hctx.
  destruct ((invoke c s).2) as [|e|].
  - by apply clean_snoc.
  - by exists ctx, (EvCall c (Fail e)).
  - by exists ctx, (EvCall c Panicked).
Qed.

Lemma query_stops q :
  stops_clean (query (S:=S) client q).
Proof.
  apply triple_query. intros ctx h s Hctx.
  destruct (client h q) as [e|r].
  - by exists ctx, (EvQuery q (Some e)).
  - by apply clean_snoc.
Qed.

Lemma stops_clean_run {A} (m : M S A) h s :
  stops_clean m →
  match out (m h s) with
  | Ret _ | OutOfFuel => clean (emitted (m h s))
  | Err _ => ∃ pre ev, emitted (m h s) = pre ++ [ev] ∧ clean pre
                       ∧ failed ev = true ∧ is_step ev = true
  | Panic => ∃ pre ev, emitted (m h s) = pre ++ [ev] ∧ clean pre
                       ∧ panicked ev = true ∧ is_step ev = true
  end.
Proof.
  intros Hm. specialize (Hm [] h s). simpl in Hm.
  assert (all_clean (S:=S) [] s) as H0 by constructor.
  specialize (Hm H0). by destruct (out (m h s)).
Qed.

Lemma deferred_shape (body : M S unit) v pre h1 s1 :
  stops_clean body →
  pre = [EvCall (CVersion v) OK; EvCall CBegin OK] →
  traversal_shape v (out (deferred body h1 s1))
    (pre ++ emitted (deferred body h1 s1)).
Proof.
  intros Hbody ->.
  pose proof (stops_clean_run body h1 s1 Hbody) as Hrun.
  unfold deferred, discard.
  destruct (out (body h1 s1)) as [[]|e| |] eqn:Eo;
    rewrite ?call_eq; simpl.
  - destruct ((Commit (final (body h1 s1))).2) as [|e2|] eqn:Est; simpl.
    + exists (emitted (body h1 s1)), OK. by repeat split.
    + exists (emitted (body h1 s1)), (Fail e2). by repeat split.
    + right. right. left. by exists (emitted (body h1 s1)).
  - destruct Hrun as (steps & ev & Hev & Hsteps & Hfail & Hstep).
    rewrite Hev, <- app_assoc. simpl.
    destruct ((Rollback (final (body h1 s1))).2) as [|e2|] eqn:Est; simpl.
    + right. exists steps, ev, OK. by repeat split.
    + right. exists steps, ev, (Fail e2). by repeat split.
    + right. right. right. by exists steps, ev.
  - destruct Hrun as (steps & ev & Hev & Hsteps & Hpanic & Hstep).
    rewrite Hev, <- app_assoc. simpl.
    destruct ((Commit (final (body h1 s1))).2) as [|e2|] eqn:Est; simpl;
      right; left; exists steps, ev; eexists; by repeat split.
  - rewrite Eo. by exists (emitted (body h1 s1)).
Qed.

Lemma transaction_shape (body : M S unit) format v h s :
  stops_clean body →
  traversal_shape v
    (out ((call (CVersion v) ;;; wrap format (call CBegin) ;;; deferred body) h s))
    (emitted ((call (CVersion v) ;;; wrap format (call CBegin) ;;; deferred body) h s)).
Proof.
  intros Hbody.
  rewrite (bind_Ret _ _ h s tt) by (by rewrite call_eq).
  rewrite call_eq. simpl.
  set (h0 := h ++ [EvCall (CVersion v) OK]).
  set (s0 := Version v s).
  destruct ((Begin s0).2) as [|e|] eqn:EB.
  - rewrite (bind_Ret _ _ h0 s0 tt)
      by (by rewrite wrap_out, call_eq; simpl; rewrite EB).
    rewrite wrap_emitted, wrap_final, call_eq. simpl. rewrite EB.
    by apply (deferred_shape body v [EvCall (CVersion v) OK; EvCall CBegin OK]).
  - rewrite (bind_Err _ _ h0 s0 (Errorf format e))
      by (by rewrite wrap_out, call_eq; simpl; rewrite EB).
    rewrite wrap_emitted, call_eq. simpl. rewrite EB. left. by exists e.
  - rewrite (bind_Panic _ _ h0 s0)
      by (by rewrite wrap_out, call_eq; simpl; rewrite EB).
    rewrite wrap_emitted, call_eq. simpl. rewrite EB. by left.
Qed.

Lemma clean_no_failure steps ev :
  clean steps → ev ∈ steps → failed ev = true → False.
Proof.
  intros Hc Hin Hf. unfold clean in Hc. rewrite Forall_forall in Hc.
  destruct (Hc ev Hin) as [Hs _]. destruct ev as [c [| |]|q [|]]; discriminate.
Qed.

Lemma clean_no_panic steps ev :
  clean steps → ev ∈ steps → panicked ev = true → False.
Proof.
  intros Hc Hin Hf. unfold clean in Hc. rewrite Forall_forall in Hc.
  destruct (Hc ev Hin) as [Hs _]. destruct ev as [c [| |]|q [|]]; discriminate.
Qed.

Lemma clean_all_steps steps ev : clean steps → ev ∈ steps → is_step ev = true.
Proof.
  intros Hc Hin. unfold clean in Hc. rewrite Forall_forall in Hc.
  by destruct (Hc ev Hin).
Qed.

(** Two descriptions of the same events agree on their last elements. *)
Lemma snoc2_inj {A} (l l' : list A) a b a' b' :
  l ++ [a; b] = l' ++ [a'; b'] → l = l' ∧ a = a' ∧ b = b'.
Proof.
  intros E.
  change (l ++ [a; b]) with (l ++ [a] ++ [b]) in E.
  change (l' ++ [a'; b']) with (l' ++ [a'] ++ [b']) in E.
  rewrite !app_assoc in E.
  apply app_inj_tail in E as [E ->]. by apply app_inj_tail in E as [-> ->].
Qed.

Lemma snoc1_snoc2 {A} (l l' : list A) a a' b' :
  l ++ [a] = l' ++ [a'; b'] → l = l' ++ [a'] ∧ a = b'.
Proof.
  intros E. change (l' ++ [a'; b']) with (l' ++ [a'] ++ [b']) in E.
  rewrite app_assoc in E. by apply app_inj_tail in E.
Qed.

Lemma shape_policy (r : Run S unit) v :
  traversal_shape v (out r) (emitted r) → follows_failure_policy v r.
Proof.
  intros Hshape. split.
  - intros ev Hin Hfail Hstep.
    assert (ev ≠ EvCall (CVersion v) OK ∧ ev ≠ EvCall CBegin OK) as [Hv Hb]
      by (split; intros ->; discriminate).
    destruct (out r) as [[]|e| |] eqn:Eo; simpl in Hshape.
    + destruct Hshape as (steps & st & Hev & Hclean & _). exfalso.
      rewrite Hev in Hin.
      rewrite !elem_of_cons, elem_of_app, list_elem_of_singleton in Hin.
      destruct Hin as [?|[?|[Hin| ->]]]; try done.
      by eapply clean_no_failure.
    + destruct Hshape as [(e' & Hev)|(steps & ev' & st & Hev & Hclean & Hf & Hs & Hst)].
      * exfalso. rewrite Hev in Hin.
        rewrite !elem_of_cons, elem_of_nil in Hin.
        destruct Hin as [?|[->|[]]]; done.
      * rewrite Hev in Hin.
        rewrite !elem_of_cons, elem_of_app, !elem_of_cons, elem_of_nil in Hin.
        destruct Hin as [?|[?|[Hin|[->|[->|[]]]]]]; try done.
        -- exfalso. by eapply clean_no_failure.
        -- exists steps, st. repeat split; eauto.
    + destruct Hshape as [Hev|[(steps & ev' & st & Hev & Hclean & Hp & Hs)
                              |[(steps & Hev & Hclean)
                               |(steps & ev' & Hev & Hclean & Hf & Hs)]]];
        rewrite Hev in Hin.
      * exfalso. rewrite !elem_of_cons, elem_of_nil in Hin.
        destruct Hin as [?|[->|[]]]; done.
      * exfalso.
        rewrite !elem_of_cons, elem_of_app, !elem_of_cons, elem_of_nil in Hin.
        destruct Hin as [?|[?|[Hin|[->|[->|[]]]]]]; try done.
        -- by eapply clean_no_failure.
        -- destruct ev' as [c [| |]|q [|]]; discriminate.
      * exfalso.
        rewrite !elem_of_cons, elem_of_app, list_elem_of_singleton in Hin.
        destruct Hin as [?|[?|[Hin| ->]]]; try done.
        by eapply clean_no_failure.
      * rewrite !elem_of_cons, elem_of_app, !elem_of_cons, elem_of_nil in Hin.
        destruct Hin as [?|[?|[Hin|[->|[->|[]]]]]]; try done.
        -- exfalso. by eapply clean_no_failure.
        -- exists steps, Panicked. by repeat split.
    + destruct Hshape as (steps & Hev & Hclean). exfalso.
      rewrite Hev in Hin. rewrite !elem_of_cons in Hin.
      destruct Hin as [?|[?|Hin]]; try done.
      by eapply clean_no_failure.
  - split.
    + intros Eo. rewrite Eo in Hshape. exact Hshape.
    + intros (steps & st & Hev & Hclean & Hst).
      destruct (out r) as [[]|e| |] eqn:Eo; simpl in Hshape; [done|exfalso..].
      * destruct Hshape as [(e' & Hev')|(steps' & ev' & st' & Hev' & _)];
          rewrite Hev in Hev'.
        -- injection Hev' as Hev'. by destruct steps.
        -- injection Hev' as Hev'. apply snoc1_snoc2 in Hev' as [_ Hev']. done.
      * destruct Hshape as [Hev'|[(steps' & ev' & st' & Hev' & Hclean' & Hp & Hs)
                                 |[(steps' & Hev' & Hclean')
                                  |(steps' & ev' & Hev' & _)]]];
          rewrite Hev in Hev'.
        -- injection Hev' as Hev'. by destruct steps.
        -- injection Hev' as Hev'. apply snoc1_snoc2 in Hev' as [-> _].
           eapply (clean_no_panic _ ev'); [exact Hclean| |done].
           apply elem_of_app. right. by left.
        -- injection Hev' as Hev'. apply app_inj_tail in Hev' as [_ Hev'].
           by injection Hev' as ->.
        -- injection Hev' as Hev'. apply snoc1_snoc2 in Hev' as [_ Hev']. done.
      * destruct Hshape as (steps' & Hev' & Hclean'). rewrite Hev in Hev'.
        injection Hev' as <-.
        assert (is_step (EvCall CCommit st) = true) as Hstep; [|done].
        eapply clean_all_steps; [exact Hclean'|].
        apply elem_of_app. right. by left.
Qed.

Ltac policy :=
  first [ done | intros; by apply call_stops | intros; by apply query_stops ].

Lemma stops_clean_DownloadRepository_body owner name :
  stops_clean (
    q <- wrap "first query failed: %v" (query client (QRepository owner name)) ;;
    topics <- downloadTopics client fuel q ;;
    wrap "failed to save repository %v: %v"
      (call (CSaveRepository (repo_Fields q) topics)) ;;;
    downloadIssues client fuel owner name q ;;;
    downloadPullRequests (S:=S) client fuel owner name q).
Proof.
  apply triple_bind with (Q := fun _ => all_clean).
  { apply triple_wrap, query_stops. }
  intros q. apply triple_bind with (Q := fun _ => all_clean).
  { eapply steady_downloadTopics with (may_ask := fun _ => True); policy. }
  intros topics. apply triple_bind with (Q := fun _ => all_clean).
  { by apply triple_wrap, call_stops. }
  intros _. apply triple_bind with (Q := fun _ => all_clean).
  { eapply steady_downloadIssues
      with (may_call := fun c => is_save c = true) (may_ask := fun _ => True);
      policy. }
  intros _.
  eapply steady_downloadPullRequests
    with (may_call := fun c => is_save c = true) (may_ask := fun _ => True);
    policy.
Qed.

Lemma stops_clean_DownloadOrganization_body name :
  stops_clean (
    q <- wrap "organization query failed: %v" (query client (QOrganization name)) ;;
    wrap "failed to save organization %v: %v" (call (CSaveOrganization q)) ;;;
    downloadUsers (S:=S) client fuel name q).
Proof.
  apply triple_bind with (Q := fun _ => all_clean).
  { apply triple_wrap, query_stops. }
  intros q. apply triple_bind with (Q := fun _ => all_clean).
  { by apply triple_wrap, call_stops. }
  intros _.
  eapply steady_downloadUsers
    with (may_call := fun c => is_save c = true) (may_ask := fun _ => True);
    policy.
Qed.

Lemma DownloadRepository_shape owner name v h (s : S) :
  traversal_shape v (out (DownloadRepository client fuel owner name v h s))
    (emitted (DownloadRepository client fuel owner name v h s)).
Proof. apply transaction_shape, stops_clean_DownloadRepository_body. Qed.

Lemma DownloadOrganization_shape name v h (s : S) :
  traversal_shape v (out (DownloadOrganization client fuel name v h s))
    (emitted (DownloadOrganization client fuel name v h s)).
Proof. apply transaction_shape, stops_clean_DownloadOrganization_body. Qed.


End policy.
End failure_policy.

(** ** Transactions: what [Rollback] leaves behind *)
Module atomicity.
Import github runs run_rules steady failure_policy.

Section transactions.
Context {S O : Type} `{storer S}.
Variable observe : S → O.
Variable client : Client.
Variable fuel : nat.

(** The run of a transaction, from the run of its deferred body. *)
Lemma transaction_begun (body : M S unit) format v h s :
  (Begin (Version v s)).2 = OK →
  let rd := deferred body ((h ++ [EvCall (CVersion v) OK]) ++ [EvCall CBegin OK])
              (Begin (Version v s)).1 in
  let r := (call (CVersion v) ;;; wrap format (call CBegin) ;;; deferred body) h s in
  out r = out rd ∧ final r = final rd
  ∧ emitted r = EvCall (CVersion v) OK :: EvCall CBegin OK :: emitted rd.
Proof.
  intros EB. cbv zeta.
  rewrite (bind_Ret _ _ h s tt) by (by rewrite call_eq).
  rewrite call_eq. simpl.
  rewrite (bind_Ret _ _ _ _ tt)
    by (by rewrite wrap_out, call_eq; simpl; rewrite EB).
  rewrite wrap_emitted, wrap_final, call_eq. simpl. by rewrite EB.
Qed.

Lemma transaction_not_begun (body : M S unit) format v h s :
  (Begin (Version v s)).2 ≠ OK →
  emitted ((call (CVersion v) ;;; wrap format (call CBegin) ;;; deferred body) h s)
  = [EvCall (CVersion v) OK; EvCall CBegin (Begin (Version v s)).2].
Proof.
  intros EB.
  rewrite (bind_Ret _ _ h s tt) by (by rewrite call_eq).
  rewrite call_eq. simpl.
  destruct ((Begin (Version v s)).2) as [|e|] eqn:Est; [done| |].
  - rewrite (bind_Err _ _ _ _ (Errorf format e))
      by (by rewrite wrap_out, call_eq; simpl; rewrite Est).
    rewrite wrap_emitted, call_eq. simpl. by rewrite Est.
  - rewrite (bind_Panic _ _ _ _)
      by (by rewrite wrap_out, call_eq; simpl; rewrite Est).
    rewrite wrap_emitted, call_eq. simpl. by rewrite Est.
Qed.

Lemma call_in_transaction s0 c :
  is_save c = true → steady (begun_at s0) (fun _ => begun_at s0) (call c).
Proof.
  intros Hsave. apply triple_call. intros ctx s Hs.
  assert (in_transaction s0 (invoke c s).1) by (by apply tx_saved).
  by destruct ((invoke c s).2).
Qed.

Lemma query_in_transaction s0 q :
  steady (begun_at s0) (fun _ => begun_at s0) (query client q).
Proof.
  apply triple_query. intros ctx h s Hs. by destruct (client h q).
Qed.

Ltac in_tx :=
  first [ done
        | intros; by apply call_in_transaction
        | intros; by apply query_in_transaction ].

Lemma DownloadRepository_body_in_transaction s0 owner name :
  steady (begun_at s0) (fun _ => begun_at s0) (
    q <- wrap "first query failed: %v" (query client (QRepository owner name)) ;;
    topics <- downloadTopics client fuel q ;;
    wrap "failed to save repository %v: %v"
      (call (CSaveRepository (repo_Fields q) topics)) ;;;
    downloadIssues client fuel owner name q ;;;
    downloadPullRequests (S:=S) client fuel owner name q).
Proof.
  apply triple_bind with (Q := fun _ => begun_at s0).
  { apply triple_wrap, query_in_transaction. }
  intros q. apply triple_bind with (Q := fun _ => begun_at s0).
  { eapply steady_downloadTopics with (may_ask := fun _ => True); in_tx. }
  intros topics. apply triple_bind with (Q := fun _ => begun_at s0).
  { by apply triple_wrap, call_in_transaction. }
  intros _. apply triple_bind with (Q := fun _ => begun_at s0).
  { eapply steady_downloadIssues
      with (may_call := fun c => is_save c = true) (may_ask := fun _ => True);
      in_tx. }
  intros _.
  eapply steady_downloadPullRequests
    with (may_call := fun c => is_save c = true) (may_ask := fun _ => True);
    in_tx.
Qed.

Lemma DownloadOrganization_body_in_transaction s0 name :
  steady (begun_at s0) (fun _ => begun_at s0) (
    q <- wrap "organization query failed: %v" (query client (QOrganization name)) ;;
    wrap "failed to save organization %v: %v" (call (CSaveOrganization q)) ;;;
    downloadUsers (S:=S) client fuel name q).
Proof.
  apply triple_bind with (Q := fun _ => begun_at s0).
  { apply triple_wrap, query_in_transaction. }
  intros q. apply triple_bind with (Q := fun _ => begun_at s0).
  { by apply triple_wrap, call_in_transaction. }
  intros _.
  eapply steady_downloadUsers
    with (may_call := fun c => is_save c = true) (may_ask := fun _ => True);
    in_tx.
Qed.

Lemma failed_save_step ev : failed_save ev = true → failed ev = true ∧ is_step ev = true.
Proof. by destruct ev as [c [| |]|q [|]]. Qed.

(** A transaction in which a step failed ends in the state [Rollback]
    leaves. *)
Lemma transaction_rolled_back (body : M S unit) format v h s ev :
  transactional observe →
  stops_clean body →
  (∀ s0, steady (begun_at s0) (fun _ => begun_at s0) body) →
  ev ∈ emitted ((call (CVersion v) ;;; wrap format (call CBegin) ;;; deferred body) h s) →
  failed ev = true → is_step ev = true →
  observe (final ((call (CVersion v) ;;; wrap format (call CBegin)
                     ;;; deferred body) h s))
  = observe (Version v s).
Proof.
  intros Htx Hclean Hbody Hin Hfail Hstep.
  assert ((Begin (Version v s)).2 = OK ∨ (Begin (Version v s)).2 ≠ OK) as [EB|EB]
    by (destruct ((Begin (Version v s)).2); auto).
  2:{ exfalso. rewrite transaction_not_begun in Hin by done.
      rewrite !elem_of_cons, elem_of_nil in Hin.
      destruct Hin as [->|[->|[]]]; done. }
  destruct (transaction_begun body format v h s EB) as (_ & -> & Hev).
  rewrite Hev in Hin. clear Hev.
  set (h1 := (h ++ [EvCall (CVersion v) OK]) ++ [EvCall CBegin OK]) in *.
  set (s1 := (Begin (Version v s)).1) in *.
  assert (in_transaction (Version v s) s1) as Hs1.
  { apply tx_begun. subst s1. destruct (Begin (Version v s)) as [s' st].
    simpl in *. by subst st. }
  pose proof (stops_clean_run body h1 s1 Hclean) as Hrun.
  pose proof (Hbody (Version v s) [] h1 s1 Hs1) as Hfinal.
  assert (in_transaction (Version v s) (final (body h1 s1))) as Hinv.
  { by destruct (out (body h1 s1)). }
  clear Hfinal.
  rewrite !elem_of_cons in Hin.
  destruct Hin as [->|[->|Hin]]; [done..|].
  unfold deferred, discard in *.
  destruct (out (body h1 s1)) as [[]|e| |] eqn:Eo;
    rewrite ?call_eq in *; simpl in *.
  - exfalso. rewrite elem_of_app, list_elem_of_singleton in Hin.
    destruct Hin as [Hin| ->]; [|done]. by eapply clean_no_failure.
  - by apply Htx.
  - exfalso. destruct Hrun as (pre & ev' & Hev & Hpre & Hp & _).
    rewrite Hev in Hin.
    rewrite !elem_of_app, !list_elem_of_singleton in Hin.
    destruct Hin as [[Hin| ->]| ->]; [|by destruct ev' as [c [| |]|q [|]]|done].
    by eapply clean_no_failure.
  - exfalso. by eapply clean_no_failure.
Qed.

(** C3 (amended).  Transaction atomicity: for every backend whose
    [Rollback] restores what [Begin] found, a run of [DownloadRepository] or
    of [DownloadOrganization] in which a Save call fails leaves the store as
    it could be observed immediately before [Begin].  The in-memory backend
    is not such a backend: its [Begin] and [Rollback] return the store as it
    is. *)
Theorem C3_rollback_restores owner name v h (s : S) :
  transactional observe →
  (∀ ev, ev ∈ emitted (DownloadRepository client fuel owner name v h s) →
         failed_save ev = true →
         observe (final (DownloadRepository client fuel owner name v h s))
         = observe (Version v s))
  ∧ (∀ ev, ev ∈ emitted (DownloadOrganization client fuel name v h s) →
           failed_save ev = true →
           observe (final (DownloadOrganization client fuel name v h s))
           = observe (Version v s))
  ∧ (∀ m : store.Mem, store.Begin m = (m, OK) ∧ store.Rollback m = (m, OK)).
Proof.
  intros Htx. split; [|split; [|done]]; intros ev Hin Hfail;
    apply failed_save_step in Hfail as [Hfail Hstep].
  - eapply transaction_rolled_back; eauto.
    + apply stops_clean_DownloadRepository_body.
    + intros s0. apply DownloadRepository_body_in_transaction.
  - eapply transaction_rolled_back; eauto.
    + apply stops_clean_DownloadOrganization_body.
    + intros s0. apply DownloadOrganization_body_in_transaction.
Qed.

End transactions.
End atomicity.

Module atomicity_cases.
Import github runs scenario.
#[local] Existing Instance durable.DB_storer.

Lemma durable_in_transaction (s0 s : durable.DB) :
  in_transaction s0 s → durable.recorded s = durable.rows s0.
Proof.
  induction 1 as [s1 Hb|s c Hs IH Hc].
  - by injection Hb as <-.
  - by destruct c.
Qed.

Lemma durable_transactional : transactional durable.rows.
Proof. intros s0 s Hs. simpl. by apply durable_in_transaction. Qed.

Lemma C3_rollback_restores_witness :
  durable.rows
    (final (DownloadRepository (client "Foo" [pr42]) 3 "foo" "bar" 0 []
              durable.empty))
  = durable.rows durable.empty.
Proof.
  refine (proj1 (atomicity.C3_rollback_restores durable.rows
                   (client "Foo" [pr42]) 3 "foo" "bar" 0 [] durable.empty
                   durable_transactional)
            (EvCall (CSavePullRequest "foo" "bar" pr42 ["bob"] []) (Fail NotFound))
            _ _).
  - apply list_elem_of_lookup. exists 9%nat. vm_compute. reflexivity.
  - reflexivity.
Defined.

(** C3 fails for the in-memory backend: starting from no repository, a run
    in which [SavePullRequest] fails ends, after [Rollback], with the
    repository saved. *)
Lemma C3_counterexample :
  let r := DownloadRepository (client "Foo" [pr42]) 3 "foo" "bar" 0 []
             NewMemDownloader in
  EvCall (CSavePullRequest "foo" "bar" pr42 ["bob"] []) (Fail NotFound)
    ∈ emitted r
  ∧ last (emitted r) = Some (EvCall CRollback OK)
  ∧ store.repo_at (Version 0 NewMemDownloader) "Foo" "bar" = None
  ∧ store.repo_at (final r) "Foo" "bar"
    = Some {| store.RepositoryFields_of := fields "Foo";
              store.Topics := ["go"];
              store.PRs := gomap.make |}.
Proof.
  cbv zeta. split; [|split; [|split]].
  - apply list_elem_of_lookup. exists 9%nat. vm_compute. reflexivity.
  - vm_compute. reflexivity.
  - reflexivity.
  - vm_compute. reflexivity.
Qed.

End atomicity_cases.

(** ** Parents are saved before their children *)
Module ordering.
Import github runs run_rules steady.

Section ordering.
Context {S : Type} `{storer S}.
Variable client : Client.
Variable fuel : nat.

Local Abbreviation anyhow := (fun _ : abort => ordered_with (S:=S) []).

Lemma parents_first_nil : parents_first [].
Proof. intros pre ev post E. by destruct pre. Qed.

Lemma parents_first_snoc ctx ev :
  parents_first ctx → parent_saved ctx ev → parents_first (ctx ++ [ev]).
Proof.
  intros Hctx Hev pre ev' post E.
  destruct post as [|x post _] using rev_ind.
  - apply app_inj_tail in E as [-> ->]. exact Hev.
  - change (pre ++ ev' :: post ++ [x]) with (pre ++ (ev' :: post) ++ [x]) in E.
    rewrite app_assoc in E. apply app_inj_tail in E as [E _].
    by apply (Hctx pre ev' post).
Qed.

Lemma ordered_snoc F ctx ev (s s' : S) :
  ordered_with F ctx s → parent_saved ctx ev → ordered_with F (ctx ++ [ev]) s'.
Proof.
  intros [Hctx HF] Hev. split; [by apply parents_first_snoc|].
  intros e He. apply elem_of_app. left. by apply HF.
Qed.

Lemma ordered_learn F ctx ev (s s' : S) :
  ordered_with F ctx s → parent_saved ctx ev →
  ordered_with (ev :: F) (ctx ++ [ev]) s'.
Proof.
  intros [Hctx HF] Hev. split; [by apply parents_first_snoc|].
  intros e He. apply elem_of_app. apply elem_of_cons in He as [->|He].
  - right. by left.
  - left. by apply HF.
Qed.

Lemma ordered_forget F F' ctx (s s' : S) :
  (∀ ev, ev ∈ F' → ev ∈ F) → ordered_with F ctx s → ordered_with F' ctx s'.
Proof. intros Hsub [Hctx HF]. split; [done|]. intros e He. by apply HF, Hsub. Qed.

Lemma call_learns F c :
  has_parent F c →
  triple (ordered_with F) (call c) (fun _ => ordered_with (EvCall c OK :: F)) anyhow.
Proof.
  intros Hc. apply triple_call. intros ctx s Hctx.
  pose proof Hctx as [_ HF].
  destruct ((invoke c s).2) as [|e|].
  - apply (ordered_learn F ctx _ s); [done|]. by apply Hc.
  - apply (ordered_forget F [] _ s); [by intros ? ?%elem_of_nil|].
    apply (ordered_snoc F ctx _ s); [done|]. by apply Hc.
  - apply (ordered_forget F [] _ s); [by intros ? ?%elem_of_nil|].
    apply (ordered_snoc F ctx _ s); [done|]. by apply Hc.
Qed.

Lemma call_ordered F c :
  has_parent F c → steady (ordered_with F) anyhow (call c).
Proof.
  intros Hc. eapply triple_conseq; [by apply call_learns| | |]; try done.
  intros [] ctx s. apply ordered_forget. intros ev Hev. by right.
Qed.

Lemma query_ordered F q : steady (ordered_with F) anyhow (query (S:=S) client q).
Proof.
  apply triple_query. intros ctx h s Hctx. destruct (client h q) as [e|r].
  - apply (ordered_forget F [] _ s); [by intros ? ?%elem_of_nil|].
    by apply (ordered_snoc F ctx _ s).
  - by apply (ordered_snoc F ctx _ s).
Qed.

Lemma ordered_fuel F ctx (s : S) : ordered_with F ctx s → ordered_with [] ctx s.
Proof. apply ordered_forget. by intros ? ?%elem_of_nil. Qed.

Ltac ask :=
  match goal with
  | |- triple _ (query _ ?q) _ _ => apply (query_ordered _ q)
  end.

Ltac ordered :=
  first [ exact (ordered_fuel _)
        | intros; by apply call_ordered
        | intros; by apply query_ordered
        | done ].

Lemma weaken_to F F' {A} (m : M S A) :
  (∀ ev, ev ∈ F → ev ∈ F') →
  triple (ordered_with F') m (fun _ => ordered_with F') anyhow →
  triple (ordered_with F') m (fun _ => ordered_with F) anyhow.
Proof.
  intros Hsub Hm. eapply triple_conseq; [exact Hm| | |]; try done.
  intros a ctx s. by apply ordered_forget.
Qed.

Lemma ordered_downloadIssueComments F owner name issue a l :
  EvCall (CSaveIssue owner name issue a l) OK ∈ F →
  steady (ordered_with F) anyhow (downloadIssueComments client fuel owner name issue).
Proof.
  intros HF.
  eapply steady_downloadIssueComments
    with (may_call := has_parent F) (may_ask := fun _ => True); try ordered.
  intros c ctx st Hctx. exists issue, a, l. split; [by apply Hctx|done].
Qed.

Lemma ordered_downloadIssues_process F owner name issue r t :
  EvCall (CSaveRepository r t) OK ∈ F →
  steady (ordered_with F) anyhow (downloadIssues_process client fuel owner name issue).
Proof.
  intros HF. unfold downloadIssues_process.
  apply triple_bind with (Q := fun _ => ordered_with F).
  { eapply steady_downloadIssueAssignees with (may_ask := fun _ => True); try ordered. }
  intros assignees. apply triple_bind with (Q := fun _ => ordered_with F).
  { eapply steady_downloadIssueLabels with (may_ask := fun _ => True); try ordered. }
  intros labels. eapply triple_bind.
  { apply call_learns. intros ctx st Hctx. exists r, t. by apply Hctx. }
  intros []. apply weaken_to; [by intros; right|].
  eapply ordered_downloadIssueComments. by left.
Qed.

Lemma ordered_downloadIssues F owner name repository r t :
  EvCall (CSaveRepository r t) OK ∈ F →
  steady (ordered_with F) anyhow (downloadIssues client fuel owner name repository).
Proof.
  intros HF. unfold downloadIssues.
  assert (∀ format issue,
            steady (ordered_with F) anyhow
              (wrap format (downloadIssues_process client fuel owner name issue)))
    as Hprocess.
  { intros. apply triple_wrap. by eapply ordered_downloadIssues_process. }
  apply triple_bind with (Q := fun _ => ordered_with F).
  { apply triple_range. intros. apply Hprocess. }
  intros []. apply triple_pages; [| |exact (ordered_fuel _)].
  - intros cur. apply triple_wrap. ask.
  - intros. apply triple_range. intros. apply Hprocess.
Qed.

Lemma ordered_downloadPullRequestComments F owner name pr a l :
  EvCall (CSavePullRequest owner name pr a l) OK ∈ F →
  steady (ordered_with F) anyhow
    (downloadPullRequestComments client fuel owner name pr).
Proof.
  intros HF.
  eapply steady_downloadPullRequestComments
    with (may_call := has_parent F) (may_ask := fun _ => True); try ordered.
  intros c ctx st Hctx. exists pr, a, l. split; [by apply Hctx|done].
Qed.

Lemma ordered_downloadReviewComments F owner name number review :
  EvCall (CSavePullRequestReview owner name number review) OK ∈ F →
  steady (ordered_with F) anyhow
    (downloadReviewComments client fuel owner name number review).
Proof.
  intros HF.
  eapply steady_downloadReviewComments
    with (may_call := has_parent F) (may_ask := fun _ => True); try ordered.
  intros c ctx st Hctx. exists review. split; [by apply Hctx|done].
Qed.

Lemma ordered_downloadPullRequestReviews_process F owner name pr a l review :
  EvCall (CSavePullRequest owner name pr a l) OK ∈ F →
  steady (ordered_with F) anyhow
    (downloadPullRequestReviews_process client fuel owner name pr review).
Proof.
  intros HF. unfold downloadPullRequestReviews_process.
  eapply triple_bind.
  { apply triple_wrap, call_learns. intros ctx st Hctx.
    exists pr, a, l. split; [by apply Hctx|done]. }
  intros []. apply weaken_to; [by intros; right|].
  apply ordered_downloadReviewComments. by left.
Qed.

Lemma ordered_downloadPullRequestReviews F owner name pr a l :
  EvCall (CSavePullRequest owner name pr a l) OK ∈ F →
  steady (ordered_with F) anyhow
    (downloadPullRequestReviews client fuel owner name pr).
Proof.
  intros HF. unfold downloadPullRequestReviews.
  apply triple_bind with (Q := fun _ => ordered_with F).
  { apply triple_range. intros.
    by eapply ordered_downloadPullRequestReviews_process. }
  intros []. apply triple_pages; [| |exact (ordered_fuel _)].
  - intros cur. apply triple_wrap. ask.
  - intros. apply triple_range. intros.
    by eapply ordered_downloadPullRequestReviews_process.
Qed.

Lemma ordered_downloadPullRequests_process F owner name pr r t :
  EvCall (CSaveRepository r t) OK ∈ F →
  steady (ordered_with F) anyhow
    (downloadPullRequests_process client fuel owner name pr).
Proof.
  intros HF. unfold downloadPullRequests_process.
  apply triple_bind with (Q := fun _ => ordered_with F).
  { eapply steady_downloadPullRequestAssignees with (may_ask := fun _ => True);
      try ordered. }
  intros assignees. apply triple_bind with (Q := fun _ => ordered_with F).
  { eapply steady_downloadPullRequestLabels with (may_ask := fun _ => True);
      try ordered. }
  intros labels. eapply triple_bind.
  { apply call_learns. intros ctx st Hctx. exists r, t. by apply Hctx. }
  intros []. eapply triple_bind.
  { eapply ordered_downloadPullRequestComments. by left. }
  intros []. apply weaken_to; [by intros; right|].
  eapply ordered_downloadPullRequestReviews. by left.
Qed.

Lemma ordered_downloadPullRequests F owner name repository r t :
  EvCall (CSaveRepository r t) OK ∈ F →
  steady (ordered_with F) anyhow
    (downloadPullRequests client fuel owner name repository).
Proof.
  intros HF. unfold downloadPullRequests.
  assert (∀ format pr,
            steady (ordered_with F) anyhow
              (wrap format (downloadPullRequests_process client fuel owner name pr)))
    as Hprocess.
  { intros. apply triple_wrap. by eapply ordered_downloadPullRequests_process. }
  apply triple_bind with (Q := fun _ => ordered_with F).
  { apply triple_range. intros. apply Hprocess. }
  intros []. apply triple_pages; [| |exact (ordered_fuel _)].
  - intros cur. apply triple_wrap. ask.
  - intros. apply triple_range. intros. apply Hprocess.
Qed.

Lemma ordered_downloadUsers F name organization org :
  EvCall (CSaveOrganization org) OK ∈ F →
  steady (ordered_with F) anyhow (downloadUsers client fuel name organization).
Proof.
  intros HF.
  eapply steady_downloadUsers
    with (may_call := has_parent F) (may_ask := fun _ => True); try ordered.
  intros u ctx st Hctx. exists org. by apply Hctx.
Qed.

Lemma free_call_ordered c :
  (∀ before st, parent_saved before (EvCall c st)) →
  steady (ordered_with []) anyhow (call c).
Proof. intros Hc. apply call_ordered. intros ctx st _. apply Hc. Qed.

Lemma ordered_deferred (body : M S unit) :
  steady (ordered_with []) anyhow body →
  steady (ordered_with []) anyhow (deferred body).
Proof.
  intros Hbody ctx h s Hctx. specialize (Hbody ctx h s Hctx).
  unfold deferred, discard.
  destruct (out (body h s)) as [[]|e| |] eqn:Eo; rewrite ?call_eq; simpl;
    [destruct ((Commit (final (body h s))).2)
    |destruct ((Rollback (final (body h s))).2)
    |destruct ((Commit (final (body h s))).2)
    |by rewrite Eo];
    simpl; rewrite app_assoc;
    by apply (ordered_snoc [] _ _ (final (body h s))).
Qed.

Lemma ordered_DownloadRepository owner name v :
  steady (ordered_with []) anyhow (DownloadRepository client fuel owner name v).
Proof.
  unfold DownloadRepository.
  apply triple_bind with (Q := fun _ => ordered_with []).
  { by apply free_call_ordered. }
  intros []. apply triple_bind with (Q := fun _ => ordered_with []).
  { by apply triple_wrap, free_call_ordered. }
  intros []. apply ordered_deferred.
  apply triple_bind with (Q := fun _ => ordered_with []).
  { apply triple_wrap. ask. }
  intros q. apply triple_bind with (Q := fun _ => ordered_with []).
  { eapply steady_downloadTopics with (may_ask := fun _ => True); try ordered. }
  intros topics. eapply triple_bind.
  { apply triple_wrap, call_learns. by intros ctx st _. }
  intros []. apply weaken_to; [by intros ? ?%elem_of_nil|].
  eapply triple_bind.
  { eapply ordered_downloadIssues. by left. }
  intros []. eapply ordered_downloadPullRequests. by left.
Qed.

Lemma ordered_DownloadOrganization name v :
  steady (ordered_with []) anyhow (DownloadOrganization client fuel name v).
Proof.
  unfold DownloadOrganization.
  apply triple_bind with (Q := fun _ => ordered_with []).
  { by apply free_call_ordered. }
  intros []. apply triple_bind with (Q := fun _ => ordered_with []).
  { by apply triple_wrap, free_call_ordered. }
  intros []. apply ordered_deferred.
  apply triple_bind with (Q := fun _ => ordered_with []).
  { apply triple_wrap. ask. }
  intros q. eapply triple_bind.
  { apply triple_wrap, call_learns. by intros ctx st _. }
  intros []. apply weaken_to; [by intros ? ?%elem_of_nil|].
  eapply ordered_downloadUsers. by left.
Qed.

Lemma steady_run_ordered (m : M S unit) h s :
  steady (ordered_with []) anyhow m → parents_first (emitted (m h s)).
Proof.
  intros Hm.
  assert (ordered_with (S:=S) [] [] s) as H0.
  { split; [apply parents_first_nil|by intros ? ?%elem_of_nil]. }
  specialize (Hm [] h s H0). simpl in Hm.
  by destruct (out (m h s)); destruct Hm.
Qed.


End ordering.
End ordering.

(** ** A connection without a next page is not fetched *)
Module last_page.
Import github runs run_rules steady.

Section last_page.
Context {S : Type} `{storer S}.
Variable client : Client.
Variable fuel : nat.

Lemma pages_done {N A} (fetch : string → M S (Connection N))
    (body : A → list N → M S A) info acc :
  HasNextPage info = false → pages fuel fetch body info acc = ret acc.
Proof. intros Hlast. destruct fuel; simpl; by rewrite Hlast. Qed.

Lemma only_snoc keep ctx ev (s s' : S) :
  only keep ctx s → keep ev = true → only keep (ctx ++ [ev]) s'.
Proof.
  intros Hctx Hev. apply Forall_app. split; [exact Hctx|]. by repeat constructor.
Qed.

Lemma only_call keep c :
  (∀ st, keep (EvCall c st) = true) →
  steady (only keep) (fun _ => only keep) (call (S:=S) c).
Proof.
  intros Hc. apply triple_call. intros ctx s Hctx.
  destruct ((invoke c s).2); by apply (only_snoc keep ctx _ s).
Qed.

Lemma only_query keep q :
  (∀ e, keep (EvQuery q e) = true) →
  steady (only keep) (fun _ => only keep) (query (S:=S) client q).
Proof.
  intros Hq. apply triple_query. intros ctx h s Hctx.
  destruct (client h q); by apply (only_snoc keep ctx _ s).
Qed.

Lemma only_run {A} keep (m : M S A) h s :
  steady (only keep) (fun _ => only keep) m →
  Forall (fun ev => keep ev = true) (emitted (m h s)).
Proof.
  intros Hm. assert (only (S:=S) keep [] s) as H0 by constructor.
  specialize (Hm [] h s H0). simpl in Hm. by destruct (out (m h s)).
Qed.

(** The test for "does not fetch a page of [k]". *)
Lemma no_fetch_run {A} k (m : M S A) h s :
  steady (only (fun ev => negb (fetches k ev)))
    (fun _ => only (fun ev => negb (fetches k ev))) m →
  no_fetch k (emitted (m h s)).
Proof.
  intros Hm. eapply Forall_impl; [by apply only_run|].
  intros ev. simpl. by destruct (fetches k ev).
Qed.

Local Abbreviation quiet k := (only (S:=S) (fun ev => negb (fetches k ev))).

Lemma quiet_call k c : steady (quiet k) (fun _ => quiet k) (call c).
Proof. by apply only_call. Qed.

Lemma quiet_query k q :
  connection_of q ≠ k → steady (quiet k) (fun _ => quiet k) (query client q).
Proof.
  intros Hk. apply only_query. intros e. simpl.
  by rewrite bool_decide_eq_false_2.
Qed.

Ltac other_connection :=
  let q := fresh "q" in
  let Hin := fresh "Hin" in
  let Heq := fresh "Heq" in
  intros q Hin Heq; rewrite Heq in Hin;
  repeat (apply elem_of_cons in Hin as [Hin|Hin]; [discriminate|]);
  by apply elem_of_nil in Hin.

Ltac quiet :=
  first [ done
        | intros; by apply quiet_call
        | intros; by apply quiet_query
        | other_connection ].

Lemma quiet_last {N A} k (fetch : string → M S (Connection N))
    (body : A → list N → M S A) info acc :
  HasNextPage info = false →
  steady (quiet k) (fun _ => quiet k) (pages fuel fetch body info acc).
Proof. intros Hlast. rewrite pages_done by done. by apply triple_ret. Qed.

Ltac first_page_only := intros; apply no_fetch_run.

Lemma last_downloadTopics repository h (s : S) :
  HasNextPage (PageInfo_of (repo_RepositoryTopics repository)) = false →
  no_fetch RepositoryTopics (emitted (downloadTopics client fuel repository h s)).
Proof.
  unfold downloadTopics. first_page_only.
  apply triple_bind with (Q := fun _ => quiet RepositoryTopics);
    [by apply triple_ret|intros; by apply quiet_last].
Qed.

Lemma last_downloadIssueAssignees issue h (s : S) :
  HasNextPage (PageInfo_of (issue_Assignees issue)) = false →
  no_fetch IssueAssignees (emitted (downloadIssueAssignees client fuel issue h s)).
Proof.
  unfold downloadIssueAssignees. first_page_only.
  apply triple_bind with (Q := fun _ => quiet IssueAssignees);
    [by apply triple_ret|intros; by apply quiet_last].
Qed.

Lemma last_downloadIssueLabels issue h (s : S) :
  HasNextPage (PageInfo_of (issue_Labels issue)) = false →
  no_fetch IssueLabels (emitted (downloadIssueLabels client fuel issue h s)).
Proof.
  unfold downloadIssueLabels. first_page_only.
  apply triple_bind with (Q := fun _ => quiet IssueLabels);
    [by apply triple_ret|intros; by apply quiet_last].
Qed.

Lemma last_downloadPullRequestAssignees pr h (s : S) :
  HasNextPage (PageInfo_of (pr_Assignees pr)) = false →
  no_fetch PullRequestAssignees
    (emitted (downloadPullRequestAssignees client fuel pr h s)).
Proof.
  unfold downloadPullRequestAssignees. first_page_only.
  apply triple_bind with (Q := fun _ => quiet PullRequestAssignees);
    [by apply triple_ret|intros; by apply quiet_last].
Qed.

Lemma last_downloadPullRequestLabels pr h (s : S) :
  HasNextPage (PageInfo_of (pr_Labels pr)) = false →
  no_fetch PullRequestLabels (emitted (downloadPullRequestLabels client fuel pr h s)).
Proof.
  unfold downloadPullRequestLabels. first_page_only.
  apply triple_bind with (Q := fun _ => quiet PullRequestLabels);
    [by apply triple_ret|intros; by apply quiet_last].
Qed.

Lemma last_downloadIssueComments owner name issue h (s : S) :
  HasNextPage (PageInfo_of (issue_Comments issue)) = false →
  no_fetch IssueComments
    (emitted (downloadIssueComments client fuel owner name issue h s)).
Proof.
  unfold downloadIssueComments. first_page_only.
  apply triple_bind with (Q := fun _ => quiet IssueComments);
    [|intros; by apply quiet_last].
  apply triple_range. intros. apply quiet_call.
Qed.

Lemma last_downloadPullRequestComments owner name pr h (s : S) :
  HasNextPage (PageInfo_of (pr_Comments pr)) = false →
  no_fetch PullRequestComments
    (emitted (downloadPullRequestComments client fuel owner name pr h s)).
Proof.
  unfold downloadPullRequestComments. first_page_only.
  apply triple_bind with (Q := fun _ => quiet PullRequestComments);
    [|intros; by apply quiet_last].
  apply triple_range. intros. apply triple_wrap, quiet_call.
Qed.

Lemma last_downloadReviewComments owner name number review h (s : S) :
  HasNextPage (PageInfo_of (rev_Comments review)) = false →
  no_fetch PullRequestReviewComments
    (emitted (downloadReviewComments client fuel owner name number review h s)).
Proof.
  unfold downloadReviewComments. first_page_only.
  apply triple_bind with (Q := fun _ => quiet PullRequestReviewComments);
    [|intros; by apply quiet_last].
  apply triple_range. intros. apply triple_wrap, quiet_call.
Qed.

Lemma last_downloadUsers name organization h (s : S) :
  HasNextPage (PageInfo_of (org_MembersWithRole organization)) = false →
  no_fetch MembersWithRole (emitted (downloadUsers client fuel name organization h s)).
Proof.
  unfold downloadUsers. first_page_only.
  apply triple_bind with (Q := fun _ => quiet MembersWithRole);
    [|intros; by apply quiet_last].
  apply triple_range. intros. apply triple_wrap, triple_wrap, quiet_call.
Qed.

Lemma last_downloadPullRequestReviews owner name pr h (s : S) :
  HasNextPage (PageInfo_of (pr_Reviews pr)) = false →
  no_fetch PullRequestReviews
    (emitted (downloadPullRequestReviews client fuel owner name pr h s)).
Proof.
  unfold downloadPullRequestReviews. first_page_only.
  apply triple_bind with (Q := fun _ => quiet PullRequestReviews);
    [|intros; by apply quiet_last].
  apply triple_range. intros review _.
  unfold downloadPullRequestReviews_process.
  apply triple_bind with (Q := fun _ => quiet PullRequestReviews);
    [apply triple_wrap, quiet_call|]. intros _.
  eapply steady_downloadReviewComments
    with (may_call := fun _ => True)
         (may_ask := fun q => connection_of q ≠ PullRequestReviews); quiet.
Qed.

Lemma last_downloadIssues owner name repository h (s : S) :
  HasNextPage (PageInfo_of (repo_Issues repository)) = false →
  no_fetch Issues (emitted (downloadIssues client fuel owner name repository h s)).
Proof.
  unfold downloadIssues. first_page_only.
  apply triple_bind with (Q := fun _ => quiet Issues);
    [|intros; by apply quiet_last].
  apply triple_range. intros issue _. apply triple_wrap.
  eapply steady_downloadIssues_process
    with (may_call := fun _ => True)
         (may_ask := fun q => connection_of q ≠ Issues); quiet.
Qed.

Lemma last_downloadPullRequests owner name repository h (s : S) :
  HasNextPage (PageInfo_of (repo_PullRequests repository)) = false →
  no_fetch PullRequests
    (emitted (downloadPullRequests client fuel owner name repository h s)).
Proof.
  unfold downloadPullRequests. first_page_only.
  apply triple_bind with (Q := fun _ => quiet PullRequests);
    [|intros; by apply quiet_last].
  apply triple_range. intros pr _. apply triple_wrap.
  eapply steady_downloadPullRequests_process
    with (may_call := fun _ => True)
         (may_ask := fun q => connection_of q ≠ PullRequests); quiet.
Qed.

(** A pull request without reviews. *)
Lemma no_reviews_nothing owner name pr h (s : S) :
  Nodes (pr_Reviews pr) = [] →
  HasNextPage (PageInfo_of (pr_Reviews pr)) = false →
  downloadPullRequestReviews client fuel owner name pr h s = mkRun (Ret tt) s [].
Proof.
  intros Hnodes Hlast. unfold downloadPullRequestReviews.
  rewrite Hnodes. simpl range.
  rewrite (bind_Ret _ _ h s tt) by done.
  by rewrite pages_done.
Qed.

Lemma no_reviews_unrelated owner name pr h (s : S) :
  Nodes (pr_Reviews pr) = [] →
  HasNextPage (PageInfo_of (pr_Reviews pr)) = false →
  Forall (fun ev => review_related ev = false)
    (emitted (downloadPullRequests_process client fuel owner name pr h s)).
Proof.
  intros Hnodes Hlast.
  set (keep := fun ev => negb (review_related ev)).
  assert (∀ c, (∀ st, keep (EvCall c st) = true) →
               steady (only keep) (fun _ => only keep) (call (S:=S) c))
    as Hcall by (intros; by apply only_call).
  assert (∀ q, connection_of q ≠ PullRequestReviews
               ∧ connection_of q ≠ PullRequestReviewComments →
               steady (only keep) (fun _ => only keep) (query (S:=S) client q))
    as Hquery.
  { intros q [H1 H2]. apply only_query. intros e. subst keep. simpl.
    by rewrite !bool_decide_eq_false_2. }
  assert (steady (only keep) (fun _ => only keep)
            (downloadPullRequests_process client fuel owner name pr)) as Hsteady.
  { unfold downloadPullRequests_process.
    apply triple_bind with (Q := fun _ => only keep).
    { eapply steady_downloadPullRequestAssignees
        with (may_ask := fun q => connection_of q ≠ PullRequestReviews
                                  ∧ connection_of q ≠ PullRequestReviewComments);
        done. }
    intros assignees. apply triple_bind with (Q := fun _ => only keep).
    { eapply steady_downloadPullRequestLabels
        with (may_ask := fun q => connection_of q ≠ PullRequestReviews
                                  ∧ connection_of q ≠ PullRequestReviewComments);
        done. }
    intros labels. apply triple_bind with (Q := fun _ => only keep).
    { by apply Hcall. }
    intros _. apply triple_bind with (Q := fun _ => only keep).
    { eapply steady_downloadPullRequestComments
        with (may_call := fun c => ∀ st, keep (EvCall c st) = true)
             (may_ask := fun q => connection_of q ≠ PullRequestReviews
                                  ∧ connection_of q ≠ PullRequestReviewComments);
        done. }
    intros _ ctx h' s' Hctx.
    rewrite no_reviews_nothing by done. simpl. by rewrite app_nil_r. }
  eapply Forall_impl; [by apply only_run|].
  intros ev. subst keep. simpl. by destruct (review_related ev).
Qed.

(** C4.  A connection whose first page has no next page is not fetched:
    each of the twelve walks, started on a first page with
    [HasNextPage = false], emits no query for a page of its connection.  A
    pull request with no review and no next page of reviews is processed
    without any event that concerns reviews: [downloadPullRequestReviews]
    returns at once, having done nothing. *)
Theorem C4_no_next_page_no_fetch owner name h (s : S) :
  (∀ repository,
     HasNextPage (PageInfo_of (repo_RepositoryTopics repository)) = false →
     no_fetch RepositoryTopics (emitted (downloadTopics client fuel repository h s)))
  ∧ (∀ repository,
       HasNextPage (PageInfo_of (repo_Issues repository)) = false →
       no_fetch Issues
         (emitted (downloadIssues client fuel owner name repository h s)))
  ∧ (∀ issue,
       HasNextPage (PageInfo_of (issue_Assignees issue)) = false →
       no_fetch IssueAssignees
         (emitted (downloadIssueAssignees client fuel issue h s)))
  ∧ (∀ issue,
       HasNextPage (PageInfo_of (issue_Labels issue)) = false →
       no_fetch IssueLabels (emitted (downloadIssueLabels client fuel issue h s)))
  ∧ (∀ issue,
       HasNextPage (PageInfo_of (issue_Comments issue)) = false →
       no_fetch IssueComments
         (emitted (downloadIssueComments client fuel owner name issue h s)))
  ∧ (∀ repository,
       HasNextPage (PageInfo_of (repo_PullRequests repository)) = false →
       no_fetch PullRequests
         (emitted (downloadPullRequests client fuel owner name repository h s)))
  ∧ (∀ pr,
       HasNextPage (PageInfo_of (pr_Assignees pr)) = false →
       no_fetch PullRequestAssignees
         (emitted (downloadPullRequestAssignees client fuel pr h s)))
  ∧ (∀ pr,
       HasNextPage (PageInfo_of (pr_Labels pr)) = false →
       no_fetch PullRequestLabels
         (emitted (downloadPullRequestLabels client fuel pr h s)))
  ∧ (∀ pr,
       HasNextPage (PageInfo_of (pr_Comments pr)) = false →
       no_fetch PullRequestComments
         (emitted (downloadPullRequestComments client fuel owner name pr h s)))
  ∧ (∀ pr,
       HasNextPage (PageInfo_of (pr_Reviews pr)) = false →
       no_fetch PullRequestReviews
         (emitted (downloadPullRequestReviews client fuel owner name pr h s)))
  ∧ (∀ number review,
       HasNextPage (PageInfo_of (rev_Comments review)) = false →
       no_fetch PullRequestReviewComments
         (emitted (downloadReviewComments client fuel owner name number review h s)))
  ∧ (∀ organization,
       HasNextPage (PageInfo_of (org_MembersWithRole organization)) = false →
       no_fetch MembersWithRole
         (emitted (downloadUsers client fuel name organization h s)))
  ∧ (∀ pr,
       Nodes (pr_Reviews pr) = [] →
       HasNextPage (PageInfo_of (pr_Reviews pr)) = false →
       downloadPullRequestReviews client fuel owner name pr h s
       = mkRun (Ret tt) s []
       ∧ Forall (fun ev => review_related ev = false)
           (emitted (downloadPullRequests_process client fuel owner name pr h s))).
Proof.
  repeat match goal with |- _ ∧ _ => split end;
    eauto using last_downloadTopics, last_downloadIssues,
      last_downloadIssueAssignees, last_downloadIssueLabels,
      last_downloadIssueComments, last_downloadPullRequests,
      last_downloadPullRequestAssignees, last_downloadPullRequestLabels,
      last_downloadPullRequestComments, last_downloadPullRequestReviews,
      last_downloadReviewComments, last_downloadUsers,
      no_reviews_nothing, no_reviews_unrelated.
Qed.

End last_page.
End last_page.

(** ** A walk visits every node of every page, in order *)
Module walks.
Import github runs run_rules steady last_page.

Section walk.
Context {S : Type} `{storer S}.
Variable fuel : nat.

(** *** Walks that save

    An action that, when it returns normally, shows exactly its node. *)
Section saving.
Context {N X : Type}.
Variable seen : Event → option X.
Variable show : N → X.
Variable act : N → M S unit.
Hypothesis act_shows :
  ∀ x h s, out (act x h s) = Ret tt → observed seen (emitted (act x h s)) = [show x].
Hypothesis queries_unseen : ∀ q e, seen (EvQuery q e) = None.

Lemma range_visits nodes h s :
  out (range nodes act h s) = Ret tt →
  observed seen (emitted (range nodes act h s)) = map show nodes.
Proof.
  revert h s. induction nodes as [|x rest IH]; intros h s; simpl; [done|].
  intros Hout. apply bind_out_Ret in Hout as ([] & Hx & Hrest).
  rewrite bind_emitted, Hx. unfold observed in *. rewrite omap_app.
  by rewrite act_shows, IH.
Qed.

Lemma pages_visit format (source : string → M S (Connection N)) info ps h s :
  delivers source info ps →
  out (pages fuel (fun cursor => wrap format (source cursor))
         (fun _ nodes => range nodes act) info tt h s) = Ret tt →
  observed seen
    (emitted (pages fuel (fun cursor => wrap format (source cursor))
                (fun _ nodes => range nodes act) info tt h s))
  = map show (concat ps).
Proof.
  intros Hps. revert h s. generalize fuel as n.
  induction Hps as [info Hlast|info q conn rest Hnext Hsource Hrest IH];
    intros n h s.
  - destruct n; simpl; by rewrite Hlast.
  - destruct n as [|n]; simpl; rewrite Hnext; [done|].
    assert (wrap format (source (EndCursor info)) h s
            = mkRun (Ret conn) s [EvQuery q None]) as Hfetch.
    { unfold wrap. by rewrite Hsource. }
    rewrite (bind_Ret _ _ h s conn) by (by rewrite Hfetch).
    rewrite Hfetch. simpl out. simpl emitted. simpl final.
    intros Hout. apply bind_out_Ret in Hout as ([] & Hpage & Hmore).
    rewrite bind_emitted, Hpage. unfold observed in *. simpl.
    rewrite queries_unseen, omap_app, map_app.
    f_equal.
    + by apply range_visits.
    + by apply IH.
Qed.

(** If moreover the action always returns normally, so does the walk, given
    one turn of the loop for each page. *)
Hypothesis act_returns : ∀ x h s, out (act x h s) = Ret tt.

Lemma range_returns nodes h s : out (range nodes act h s) = Ret tt.
Proof.
  revert h s. induction nodes as [|x rest IH]; intros h s; simpl; [done|].
  rewrite (bind_Ret _ _ h s tt) by apply act_returns. apply IH.
Qed.

Lemma pages_return format (source : string → M S (Connection N)) info ps h s :
  delivers source info ps →
  (length ps ≤ fuel)%nat →
  out (pages fuel (fun cursor => wrap format (source cursor))
         (fun _ nodes => range nodes act) info tt h s) = Ret tt.
Proof.
  intros Hps. revert h s. generalize fuel as n.
  induction Hps as [info Hlast|info q conn rest Hnext Hsource Hrest IH];
    intros n h s Hn.
  - destruct n; simpl; by rewrite Hlast.
  - destruct n as [|n]; simpl in *; [lia|]. rewrite Hnext.
    assert (wrap format (source (EndCursor info)) h s
            = mkRun (Ret conn) s [EvQuery q None]) as Hfetch.
    { unfold wrap. by rewrite Hsource. }
    rewrite (bind_Ret _ _ h s conn) by (by rewrite Hfetch).
    rewrite Hfetch. simpl.
    rewrite (bind_Ret _ _ _ _ tt) by apply range_returns. simpl.
    apply IH. lia.
Qed.

End saving.

(** The whole walk: the first page, then the pages that are fetched. *)
Lemma walk_visits {N X} (seen : Event → option X) (show : N → X)
    (act1 act2 : N → M S unit) format (source : string → M S (Connection N))
    first info ps h s :
  (∀ x h s, out (act1 x h s) = Ret tt →
            observed seen (emitted (act1 x h s)) = [show x]) →
  (∀ x h s, out (act2 x h s) = Ret tt →
            observed seen (emitted (act2 x h s)) = [show x]) →
  (∀ q e, seen (EvQuery q e) = None) →
  delivers source info ps →
  out ((range first act1 ;;;
        pages fuel (fun cursor => wrap format (source cursor))
          (fun _ nodes => range nodes act2) info tt) h s) = Ret tt →
  observed seen
    (emitted ((range first act1 ;;;
               pages fuel (fun cursor => wrap format (source cursor))
                 (fun _ nodes => range nodes act2) info tt) h s))
  = map show (first ++ concat ps).
Proof.
  intros Hact1 Hact2 Hq Hps Hout.
  apply bind_out_Ret in Hout as ([] & Hfirst & Hmore).
  rewrite bind_emitted, Hfirst. unfold observed. rewrite omap_app, map_app.
  f_equal.
  - by apply range_visits.
  - by eapply pages_visit.
Qed.

Lemma walk_returns {N} (act1 act2 : N → M S unit) format
    (source : string → M S (Connection N)) first info ps h s :
  (∀ x h s, out (act1 x h s) = Ret tt) →
  (∀ x h s, out (act2 x h s) = Ret tt) →
  delivers source info ps →
  (length ps ≤ fuel)%nat →
  out ((range first act1 ;;;
        pages fuel (fun cursor => wrap format (source cursor))
          (fun _ nodes => range nodes act2) info tt) h s) = Ret tt.
Proof.
  intros Hact1 Hact2 Hps Hfuel.
  rewrite (bind_Ret _ _ h s tt) by (by apply range_returns).
  simpl. by eapply pages_return.
Qed.

(** *** Walks that collect names *)
Lemma pages_collect {N} format (source : string → M S (Connection N))
    (name : N → string) info ps acc h s :
  delivers source info ps →
  (length ps ≤ fuel)%nat →
  out (pages fuel (fun cursor => wrap format (source cursor))
         (collect name) info acc h s) = Ret (acc ++ map name (concat ps))
  ∧ final (pages fuel (fun cursor => wrap format (source cursor))
             (collect name) info acc h s) = s
  ∧ length (emitted (pages fuel (fun cursor => wrap format (source cursor))
                       (collect name) info acc h s)) = length ps.
Proof.
  intros Hps. revert acc h s. generalize fuel as n.
  induction Hps as [info Hlast|info q conn rest Hnext Hsource Hrest IH];
    intros n acc h s Hn.
  - destruct n; simpl; rewrite Hlast; simpl; by rewrite app_nil_r.
  - destruct n as [|n]; simpl in *; [lia|]. rewrite Hnext.
    assert (wrap format (source (EndCursor info)) h s
            = mkRun (Ret conn) s [EvQuery q None]) as Hfetch.
    { unfold wrap. by rewrite Hsource. }
    rewrite (bind_Ret _ _ h s conn) by (by rewrite Hfetch).
    rewrite Hfetch. simpl.
    destruct (IH n (acc ++ map name (Nodes conn))
                ((h ++ [EvQuery q None]) ++ []) s) as (-> & -> & ->); [lia|].
    by rewrite map_app, app_assoc.
Qed.

(** *** Saving one node *)
Lemma call_seen {X} (seen : Event → option X) c x h (s : S) :
  (∀ st, seen (EvCall c st) = Some x) →
  observed seen (emitted (call c h s)) = [x].
Proof. intros Hc. rewrite call_eq. unfold observed. simpl. by rewrite Hc. Qed.

Lemma call_returns c h (s : S) :
  (invoke c s).2 = OK → out (call c h s) = Ret tt.
Proof. intros Hc. by rewrite call_eq, Hc. Qed.

Lemma wrap_returns {A} format (m : M S A) h s a :
  out (m h s) = Ret a → out (wrap format m h s) = Ret a.
Proof. intros Hm. by rewrite wrap_out, Hm. Qed.


Lemma length_concat_total {N} (ps : list (list N)) : length (concat ps) = total ps.
Proof.
  induction ps as [|p ps IH]; simpl; [done|]. rewrite length_app, IH. done.
Qed.

Lemma observed_unseen {X} (seen : Event → option X) evs :
  Forall (fun ev => seen ev = None) evs →
  observed seen evs = [].
Proof.
  induction 1 as [|ev evs Hev _ IH]; [done|].
  unfold observed in *. simpl. by rewrite Hev.
Qed.

Variable client : Client.

(** *** The four walks whose action is one Save call *)

Lemma downloadIssueComments_visits owner name issue ps h s :
  delivers (S:=S) (fun cursor =>
              query client (QIssueComments (issue_Id issue) issueCommentsPage cursor))
    (PageInfo_of (issue_Comments issue)) ps →
  (length ps ≤ fuel)%nat →
  (∀ c s', (SaveIssueComment owner name (issue_Number issue) c s').2 = OK) →
  out (downloadIssueComments client fuel owner name issue h s) = Ret tt
  ∧ saves (emitted (downloadIssueComments client fuel owner name issue h s))
    = map (CSaveIssueComment owner name (issue_Number issue))
        (Nodes (issue_Comments issue) ++ concat ps).
Proof.
  intros Hps Hfuel Hsave. unfold downloadIssueComments.
  assert (out ((range (Nodes (issue_Comments issue))
                  (fun comment => call (CSaveIssueComment owner name
                                          (issue_Number issue) comment)) ;;;
                pages fuel
                  (fun cursor =>
                     wrap "failed to query issue comments for issue #%v: %v"
                       (query client (QIssueComments (issue_Id issue)
                                        issueCommentsPage cursor)))
                  (fun _ nodes => range nodes (fun comment =>
                     wrap "failed to save issue comments for issue #%v: %v"
                       (call (CSaveIssueComment owner name (issue_Number issue)
                                comment))))
                  (PageInfo_of (issue_Comments issue)) tt) h s) = Ret tt) as Hout.
  { eapply (walk_returns _ _ _
              (fun cursor => query client (QIssueComments (issue_Id issue)
                                             issueCommentsPage cursor)));
      [| |exact Hps|exact Hfuel].
    - intros. by apply call_returns, Hsave.
    - intros. by apply wrap_returns, call_returns, Hsave. }
  split; [exact Hout|].
  eapply (walk_visits seen_save _ _ _ _
            (fun cursor => query client (QIssueComments (issue_Id issue)
                                           issueCommentsPage cursor)));
    [| | |exact Hps|exact Hout].
  - intros. by apply call_seen.
  - intros. rewrite wrap_emitted. by apply call_seen.
  - done.
Qed.

Lemma downloadPullRequestComments_visits owner name pr ps h s :
  delivers (S:=S) (fun cursor =>
              query client (QPullRequestComments (pr_Id pr) issueCommentsPage cursor))
    (PageInfo_of (pr_Comments pr)) ps →
  (length ps ≤ fuel)%nat →
  (∀ c s', (SavePullRequestComment owner name (pr_Number pr) c s').2 = OK) →
  out (downloadPullRequestComments client fuel owner name pr h s) = Ret tt
  ∧ saves (emitted (downloadPullRequestComments client fuel owner name pr h s))
    = map (CSavePullRequestComment owner name (pr_Number pr))
        (Nodes (pr_Comments pr) ++ concat ps).
Proof.
  intros Hps Hfuel Hsave. unfold downloadPullRequestComments.
  match goal with |- out ?r = _ ∧ _ => assert (out r = Ret tt) as Hout end.
  { eapply (walk_returns _ _ _
              (fun cursor => query client (QPullRequestComments (pr_Id pr)
                                             issueCommentsPage cursor)));
      [| |exact Hps|exact Hfuel];
      intros; by apply wrap_returns, call_returns, Hsave. }
  split; [exact Hout|].
  eapply (walk_visits seen_save _ _ _ _
            (fun cursor => query client (QPullRequestComments (pr_Id pr)
                                           issueCommentsPage cursor)));
    [| | |exact Hps|exact Hout]; try done;
    intros; rewrite wrap_emitted; by apply call_seen.
Qed.

Lemma downloadReviewComments_visits owner name number review ps h s :
  delivers (S:=S) (fun cursor =>
              query client (QPullRequestReviewComments (rev_Id review)
                              pullRequestReviewCommentsPage cursor))
    (PageInfo_of (rev_Comments review)) ps →
  (length ps ≤ fuel)%nat →
  (∀ c s', (SavePullRequestReviewComment owner name number
              (rev_DatabaseId review) c s').2 = OK) →
  out (downloadReviewComments client fuel owner name number review h s) = Ret tt
  ∧ saves (emitted (downloadReviewComments client fuel owner name number review h s))
    = map (CSavePullRequestReviewComment owner name number (rev_DatabaseId review))
        (Nodes (rev_Comments review) ++ concat ps).
Proof.
  intros Hps Hfuel Hsave.
  unfold downloadReviewComments, downloadReviewComments_process.
  match goal with |- out ?r = _ ∧ _ => assert (out r = Ret tt) as Hout end.
  { eapply (walk_returns _ _ _
              (fun cursor => query client (QPullRequestReviewComments
                                             (rev_Id review)
                                             pullRequestReviewCommentsPage cursor)));
      [| |exact Hps|exact Hfuel];
      intros; by apply wrap_returns, call_returns, Hsave. }
  split; [exact Hout|].
  eapply (walk_visits seen_save _ _ _ _
            (fun cursor => query client (QPullRequestReviewComments
                                           (rev_Id review)
                                           pullRequestReviewCommentsPage cursor)));
    [| | |exact Hps|exact Hout]; try done;
    intros; rewrite wrap_emitted; by apply call_seen.
Qed.

Lemma downloadUsers_visits name organization ps h s :
  delivers (S:=S) (fun cursor =>
              query client (QMembersWithRole name membersWithRolePage cursor))
    (PageInfo_of (org_MembersWithRole organization)) ps →
  (length ps ≤ fuel)%nat →
  (∀ u s', (SaveUser u s').2 = OK) →
  out (downloadUsers client fuel name organization h s) = Ret tt
  ∧ saves (emitted (downloadUsers client fuel name organization h s))
    = map CSaveUser (Nodes (org_MembersWithRole organization) ++ concat ps).
Proof.
  intros Hps Hfuel Hsave. unfold downloadUsers, downloadUsers_process.
  match goal with |- out ?r = _ ∧ _ => assert (out r = Ret tt) as Hout end.
  { eapply (walk_returns _ _ _
              (fun cursor => query client (QMembersWithRole name
                                             membersWithRolePage cursor)));
      [| |exact Hps|exact Hfuel];
      intros; by apply wrap_returns, wrap_returns, call_returns, Hsave. }
  split; [exact Hout|].
  eapply (walk_visits seen_save _ _ _ _
            (fun cursor => query client (QMembersWithRole name
                                           membersWithRolePage cursor)));
    [| | |exact Hps|exact Hout]; try done;
    intros; rewrite !wrap_emitted; by apply call_seen.
Qed.

(** *** The five walks that collect names *)

Lemma collect_walk {N} format (source : string → M S (Connection N))
    (name : N → string) first info ps h s :
  delivers source info ps →
  (length ps ≤ fuel)%nat →
  out ((names <- collect name [] first ;;
        pages fuel (fun cursor => wrap format (source cursor))
          (collect name) info names) h s)
  = Ret (map name (first ++ concat ps))
  ∧ final ((names <- collect name [] first ;;
            pages fuel (fun cursor => wrap format (source cursor))
              (collect name) info names) h s) = s.
Proof.
  intros Hps Hfuel.
  rewrite (bind_Ret _ _ h s (map name first)) by done. simpl.
  destruct (pages_collect format source name info ps (map name first)
              (h ++ []) s Hps Hfuel) as (-> & -> & _).
  by rewrite map_app.
Qed.

Lemma downloadTopics_collects repository ps h (s : S) :
  delivers (S:=S) (fun cursor =>
              query client (QRepositoryTopics (repo_Id (repo_Fields repository))
                              repositoryTopicsPage cursor))
    (PageInfo_of (repo_RepositoryTopics repository)) ps →
  (length ps ≤ fuel)%nat →
  out (downloadTopics client fuel repository h s)
  = Ret (map (fun n => topic_Name (rt_Topic n))
           (Nodes (repo_RepositoryTopics repository) ++ concat ps))
  ∧ final (downloadTopics client fuel repository h s) = s.
Proof. intros. unfold downloadTopics. by eapply collect_walk. Qed.

Lemma downloadIssueAssignees_collects issue ps h (s : S) :
  delivers (S:=S) (fun cursor =>
              query client (QIssueAssignees (issue_Id issue) assigneesPage cursor))
    (PageInfo_of (issue_Assignees issue)) ps →
  (length ps ≤ fuel)%nat →
  out (downloadIssueAssignees client fuel issue h s)
  = Ret (map Login (Nodes (issue_Assignees issue) ++ concat ps))
  ∧ final (downloadIssueAssignees client fuel issue h s) = s.
Proof. intros. unfold downloadIssueAssignees. by eapply collect_walk. Qed.

Lemma downloadIssueLabels_collects issue ps h (s : S) :
  delivers (S:=S) (fun cursor =>
              query client (QIssueLabels (issue_Id issue) labelsPage cursor))
    (PageInfo_of (issue_Labels issue)) ps →
  (length ps ≤ fuel)%nat →
  out (downloadIssueLabels client fuel issue h s)
  = Ret (map label_Name (Nodes (issue_Labels issue) ++ concat ps))
  ∧ final (downloadIssueLabels client fuel issue h s) = s.
Proof. intros. unfold downloadIssueLabels. by eapply collect_walk. Qed.

Lemma downloadPullRequestAssignees_collects pr ps h (s : S) :
  delivers (S:=S) (fun cursor =>
              query client (QPullRequestAssignees (pr_Id pr) assigneesPage cursor))
    (PageInfo_of (pr_Assignees pr)) ps →
  (length ps ≤ fuel)%nat →
  out (downloadPullRequestAssignees client fuel pr h s)
  = Ret (map Login (Nodes (pr_Assignees pr) ++ concat ps))
  ∧ final (downloadPullRequestAssignees client fuel pr h s) = s.
Proof. intros. unfold downloadPullRequestAssignees. by eapply collect_walk. Qed.

Lemma downloadPullRequestLabels_collects pr ps h (s : S) :
  delivers (S:=S) (fun cursor =>
              query client (QPullRequestLabels (pr_Id pr) assigneesPage cursor))
    (PageInfo_of (pr_Labels pr)) ps →
  (length ps ≤ fuel)%nat →
  out (downloadPullRequestLabels client fuel pr h s)
  = Ret (map label_Name (Nodes (pr_Labels pr) ++ concat ps))
  ∧ final (downloadPullRequestLabels client fuel pr h s) = s.
Proof. intros. unfold downloadPullRequestLabels. by eapply collect_walk. Qed.

(** *** The three walks whose action is a nested traversal *)

Lemma unseen_run {X A} (seen : Event → option X) (m : M S A) h s :
  steady (only (unseen_by seen)) (fun _ => only (unseen_by seen)) m →
  observed seen (emitted (m h s)) = [].
Proof.
  intros Hm. apply observed_unseen.
  eapply Forall_impl; [by apply only_run|].
  intros ev. unfold unseen_by. by destruct (seen ev).
Qed.

Lemma bind_observed {X A B} (seen : Event → option X) (m : M S A)
    (k : A → M S B) h s a :
  out (m h s) = Ret a →
  observed seen (emitted (bind m k h s))
  = observed seen (emitted (m h s))
    ++ observed seen (emitted (k a (h ++ emitted (m h s)) (final (m h s)))).
Proof.
  intros Hm. rewrite bind_emitted, Hm. unfold observed. by rewrite omap_app.
Qed.

Ltac unseen :=
  first [ done
        | intros; by apply only_call
        | intros; by apply only_query ].

Lemma review_process_shows owner name pr review h s :
  out (downloadPullRequestReviews_process client fuel owner name pr review h s)
  = Ret tt →
  observed seen_review
    (emitted (downloadPullRequestReviews_process client fuel owner name pr
                review h s))
  = [review].
Proof.
  unfold downloadPullRequestReviews_process. intros Hout.
  apply bind_out_Ret in Hout as ([] & Hsave & _).
  rewrite (bind_observed _ _ _ _ _ tt Hsave), wrap_emitted.
  rewrite (call_seen seen_review _ review) by done.
  rewrite unseen_run; [done|].
  eapply steady_downloadReviewComments
    with (may_call := fun c => ∀ st, unseen_by seen_review (EvCall c st) = true)
         (may_ask := fun _ => True); unseen.
Qed.

Lemma issue_process_shows owner name issue h s :
  out (downloadIssues_process client fuel owner name issue h s) = Ret tt →
  observed seen_issue
    (emitted (downloadIssues_process client fuel owner name issue h s))
  = [issue].
Proof.
  unfold downloadIssues_process. intros Hout.
  apply bind_out_Ret in Hout as (assignees & Hassignees & Hout).
  rewrite (bind_observed _ _ _ _ _ assignees Hassignees).
  apply bind_out_Ret in Hout as (labels & Hlabels & Hout).
  rewrite (bind_observed _ _ _ _ _ labels Hlabels).
  apply bind_out_Ret in Hout as ([] & Hsave & _).
  rewrite (bind_observed _ _ _ _ _ tt Hsave).
  rewrite (call_seen seen_issue _ issue) by done.
  rewrite !unseen_run; [done| | |].
  - eapply steady_downloadIssueComments
      with (may_call := fun c => ∀ st, unseen_by seen_issue (EvCall c st) = true)
           (may_ask := fun _ => True); unseen.
  - eapply steady_downloadIssueLabels with (may_ask := fun _ => True); unseen.
  - eapply steady_downloadIssueAssignees with (may_ask := fun _ => True); unseen.
Qed.

Lemma pull_request_process_shows owner name pr h s :
  out (downloadPullRequests_process client fuel owner name pr h s) = Ret tt →
  observed seen_pull_request
    (emitted (downloadPullRequests_process client fuel owner name pr h s))
  = [pr].
Proof.
  unfold downloadPullRequests_process. intros Hout.
  apply bind_out_Ret in Hout as (assignees & Hassignees & Hout).
  rewrite (bind_observed _ _ _ _ _ assignees Hassignees).
  apply bind_out_Ret in Hout as (labels & Hlabels & Hout).
  rewrite (bind_observed _ _ _ _ _ labels Hlabels).
  apply bind_out_Ret in Hout as ([] & Hsave & Hout).
  rewrite (bind_observed _ _ _ _ _ tt Hsave).
  apply bind_out_Ret in Hout as ([] & Hcomments & _).
  rewrite (bind_observed _ _ _ _ _ tt Hcomments).
  rewrite (call_seen seen_pull_request _ pr) by done.
  rewrite !unseen_run; [done| | | |].
  - eapply steady_downloadPullRequestReviews
      with (may_call := fun c => ∀ st, unseen_by seen_pull_request (EvCall c st) = true)
           (may_ask := fun _ => True); unseen.
  - eapply steady_downloadPullRequestComments
      with (may_call := fun c => ∀ st, unseen_by seen_pull_request (EvCall c st) = true)
           (may_ask := fun _ => True); unseen.
  - eapply steady_downloadPullRequestLabels with (may_ask := fun _ => True); unseen.
  - eapply steady_downloadPullRequestAssignees with (may_ask := fun _ => True);
      unseen.
Qed.

Lemma downloadPullRequestReviews_visits owner name pr ps h s :
  delivers (S:=S) (fun cursor =>
              query client (QPullRequestReviews (pr_Id pr) pullRequestReviewsPage
                              cursor))
    (PageInfo_of (pr_Reviews pr)) ps →
  out (downloadPullRequestReviews client fuel owner name pr h s) = Ret tt →
  observed seen_review
    (emitted (downloadPullRequestReviews client fuel owner name pr h s))
  = Nodes (pr_Reviews pr) ++ concat ps.
Proof.
  intros Hps Hout. unfold downloadPullRequestReviews in *.
  rewrite <- (map_id (Nodes (pr_Reviews pr) ++ concat ps)).
  eapply (walk_visits seen_review id _ _ _
            (fun cursor => query client (QPullRequestReviews (pr_Id pr)
                                           pullRequestReviewsPage cursor)));
    [| | |exact Hps|exact Hout]; try done;
    intros; by apply review_process_shows.
Qed.

Lemma downloadIssues_visits owner name repository ps h s :
  delivers (S:=S) (fun cursor =>
              query client (QIssues (repo_Id (repo_Fields repository)) issuesPage
                              cursor))
    (PageInfo_of (repo_Issues repository)) ps →
  out (downloadIssues client fuel owner name repository h s) = Ret tt →
  observed seen_issue (emitted (downloadIssues client fuel owner name repository h s))
  = Nodes (repo_Issues repository) ++ concat ps.
Proof.
  intros Hps Hout. unfold downloadIssues in *.
  rewrite <- (map_id (Nodes (repo_Issues repository) ++ concat ps)).
  eapply (walk_visits seen_issue id _ _ _
            (fun cursor => query client (QIssues (repo_Id (repo_Fields repository))
                                           issuesPage cursor)));
    [| | |exact Hps|exact Hout]; try done;
    intros x h' s' Hx; rewrite wrap_emitted;
    by apply issue_process_shows, (wrap_out_Ret _ _ _ _ _ Hx).
Qed.

Lemma downloadPullRequests_visits owner name repository ps h s :
  delivers (S:=S) (fun cursor =>
              query client (QPullRequests (repo_Id (repo_Fields repository))
                              pullRequestsPage cursor))
    (PageInfo_of (repo_PullRequests repository)) ps →
  out (downloadPullRequests client fuel owner name repository h s) = Ret tt →
  observed seen_pull_request
    (emitted (downloadPullRequests client fuel owner name repository h s))
  = Nodes (repo_PullRequests repository) ++ concat ps.
Proof.
  intros Hps Hout. unfold downloadPullRequests in *.
  rewrite <- (map_id (Nodes (repo_PullRequests repository) ++ concat ps)).
  eapply (walk_visits seen_pull_request id _ _ _
            (fun cursor => query client (QPullRequests
                                           (repo_Id (repo_Fields repository))
                                           pullRequestsPage cursor)));
    [| | |exact Hps|exact Hout]; try done;
    intros x h' s' Hx; rewrite wrap_emitted;
    by apply pull_request_process_shows, (wrap_out_Ret _ _ _ _ _ Hx).
Qed.

(** C1.  For every connection whose source delivers the pages [ps] after
    the first page, the walk performs its action once for every node of the
    first page and of [ps], in the order of the pages.
    - The four walks that save one node at a time ([SaveIssueComment],
      [SavePullRequestComment], [SavePullRequestReviewComment], [SaveUser]):
      if the Save call never fails and the loop may turn once per page, the
      walk returns [nil] and its Save calls are exactly those of the nodes,
      in order; for the comments of an issue their number is the sum of the
      page sizes.
    - The three walks whose action nests other walks (issues, pull requests,
      reviews): in a run that returns [nil], the Save calls of the entity
      are those of the nodes, in order.
    - The five walks that collect names (topics, assignees and labels of
      issues and of pull requests): the list returned holds the name of
      every node, in order. *)
Theorem C1_walk_visits_every_page owner name h (s : S) :
  (∀ issue ps,
     delivers (S:=S) (fun cursor =>
         query client (QIssueComments (issue_Id issue) issueCommentsPage cursor))
       (PageInfo_of (issue_Comments issue)) ps →
     (length ps ≤ fuel)%nat →
     (∀ c s', (SaveIssueComment owner name (issue_Number issue) c s').2 = OK) →
     out (downloadIssueComments client fuel owner name issue h s) = Ret tt
     ∧ saves (emitted (downloadIssueComments client fuel owner name issue h s))
       = map (CSaveIssueComment owner name (issue_Number issue))
           (Nodes (issue_Comments issue) ++ concat ps)
     ∧ length (saves (emitted (downloadIssueComments client fuel owner name
                                 issue h s)))
       = (length (Nodes (issue_Comments issue)) + total ps)%nat)
  ∧ (∀ pr ps,
       delivers (S:=S) (fun cursor =>
           query client (QPullRequestComments (pr_Id pr) issueCommentsPage cursor))
         (PageInfo_of (pr_Comments pr)) ps →
       (length ps ≤ fuel)%nat →
       (∀ c s', (SavePullRequestComment owner name (pr_Number pr) c s').2 = OK) →
       out (downloadPullRequestComments client fuel owner name pr h s) = Ret tt
       ∧ saves (emitted (downloadPullRequestComments client fuel owner name pr h s))
         = map (CSavePullRequestComment owner name (pr_Number pr))
             (Nodes (pr_Comments pr) ++ concat ps))
  ∧ (∀ number review ps,
       delivers (S:=S) (fun cursor =>
           query client (QPullRequestReviewComments (rev_Id review)
                           pullRequestReviewCommentsPage cursor))
         (PageInfo_of (rev_Comments review)) ps →
       (length ps ≤ fuel)%nat →
       (∀ c s', (SavePullRequestReviewComment owner name number
                   (rev_DatabaseId review) c s').2 = OK) →
       out (downloadReviewComments client fuel owner name number review h s)
       = Ret tt
       ∧ saves (emitted (downloadReviewComments client fuel owner name number
                           review h s))
         = map (CSavePullRequestReviewComment owner name number
                  (rev_DatabaseId review))
             (Nodes (rev_Comments review) ++ concat ps))
  ∧ (∀ organization ps,
       delivers (S:=S) (fun cursor =>
           query client (QMembersWithRole name membersWithRolePage cursor))
         (PageInfo_of (org_MembersWithRole organization)) ps →
       (length ps ≤ fuel)%nat →
       (∀ u s', (SaveUser u s').2 = OK) →
       out (downloadUsers client fuel name organization h s) = Ret tt
       ∧ saves (emitted (downloadUsers client fuel name organization h s))
         = map CSaveUser (Nodes (org_MembersWithRole organization) ++ concat ps))
  ∧ (∀ repository ps,
       delivers (S:=S) (fun cursor =>
           query client (QIssues (repo_Id (repo_Fields repository)) issuesPage
                           cursor))
         (PageInfo_of (repo_Issues repository)) ps →
       out (downloadIssues client fuel owner name repository h s) = Ret tt →
       observed seen_issue
         (emitted (downloadIssues client fuel owner name repository h s))
       = Nodes (repo_Issues repository) ++ concat ps)
  ∧ (∀ repository ps,
       delivers (S:=S) (fun cursor =>
           query client (QPullRequests (repo_Id (repo_Fields repository))
                           pullRequestsPage cursor))
         (PageInfo_of (repo_PullRequests repository)) ps →
       out (downloadPullRequests client fuel owner name repository h s) = Ret tt →
       observed seen_pull_request
         (emitted (downloadPullRequests client fuel owner name repository h s))
       = Nodes (repo_PullRequests repository) ++ concat ps)
  ∧ (∀ pr ps,
       delivers (S:=S) (fun cursor =>
           query client (QPullRequestReviews (pr_Id pr) pullRequestReviewsPage
                           cursor))
         (PageInfo_of (pr_Reviews pr)) ps →
       out (downloadPullRequestReviews client fuel owner name pr h s) = Ret tt →
       observed seen_review
         (emitted (downloadPullRequestReviews client fuel owner name pr h s))
       = Nodes (pr_Reviews pr) ++ concat ps)
  ∧ (∀ repository ps,
       delivers (S:=S) (fun cursor =>
           query client (QRepositoryTopics (repo_Id (repo_Fields repository))
                           repositoryTopicsPage cursor))
         (PageInfo_of (repo_RepositoryTopics repository)) ps →
       (length ps ≤ fuel)%nat →
       out (downloadTopics client fuel repository h s)
       = Ret (map (fun n => topic_Name (rt_Topic n))
                (Nodes (repo_RepositoryTopics repository) ++ concat ps)))
  ∧ (∀ issue ps,
       delivers (S:=S) (fun cursor =>
           query client (QIssueAssignees (issue_Id issue) assigneesPage cursor))
         (PageInfo_of (issue_Assignees issue)) ps →
       (length ps ≤ fuel)%nat →
       out (downloadIssueAssignees client fuel issue h s)
       = Ret (map Login (Nodes (issue_Assignees issue) ++ concat ps)))
  ∧ (∀ issue ps,
       delivers (S:=S) (fun cursor =>
           query client (QIssueLabels (issue_Id issue) labelsPage cursor))
         (PageInfo_of (issue_Labels issue)) ps →
       (length ps ≤ fuel)%nat →
       out (downloadIssueLabels client fuel issue h s)
       = Ret (map label_Name (Nodes (issue_Labels issue) ++ concat ps)))
  ∧ (∀ pr ps,
       delivers (S:=S) (fun cursor =>
           query client (QPullRequestAssignees (pr_Id pr) assigneesPage cursor))
         (PageInfo_of (pr_Assignees pr)) ps →
       (length ps ≤ fuel)%nat →
       out (downloadPullRequestAssignees client fuel pr h s)
       = Ret (map Login (Nodes (pr_Assignees pr) ++ concat ps)))
  ∧ (∀ pr ps,
       delivers (S:=S) (fun cursor =>
           query client (QPullRequestLabels (pr_Id pr) assigneesPage cursor))
         (PageInfo_of (pr_Labels pr)) ps →
       (length ps ≤ fuel)%nat →
       out (downloadPullRequestLabels client fuel pr h s)
       = Ret (map label_Name (Nodes (pr_Labels pr) ++ concat ps))).
Proof.
  repeat match goal with |- _ ∧ _ => split end.
  - intros issue ps Hps Hfuel Hsave.
    destruct (downloadIssueComments_visits owner name issue ps h s Hps Hfuel Hsave)
      as [Hout Hsaves].
    repeat split; [done..|].
    by rewrite Hsaves, length_map, length_app, length_concat_total.
  - intros. by apply downloadPullRequestComments_visits.
  - intros. by apply downloadReviewComments_visits.
  - intros. by apply downloadUsers_visits.
  - intros. by apply downloadIssues_visits.
  - intros. by apply downloadPullRequests_visits.
  - intros. by apply downloadPullRequestReviews_visits.
  - intros. by eapply proj1, downloadTopics_collects.
  - intros. by eapply proj1, downloadIssueAssignees_collects.
  - intros. by eapply proj1, downloadIssueLabels_collects.
  - intros. by eapply proj1, downloadPullRequestAssignees_collects.
  - intros. by eapply proj1, downloadPullRequestLabels_collects.
Qed.

End walk.
End walks.

(** ** The order in which an issue or a pull request is resolved *)
Module resolution.
Import github runs run_rules steady last_page.

Section resolution.
Context {S : Type} `{storer S}.
Variable client : Client.
Variable fuel : nat.

Lemma review_blocks_app owner name k evs evs' :
  review_blocks owner name k evs → review_blocks owner name k evs' →
  review_blocks owner name k (evs ++ evs').
Proof.
  intros Hevs Hevs'. induction Hevs as [|ev rest Hev _ IH|r st es rest Hes _ IH].
  - done.
  - simpl. by apply blocks_fetch.
  - simpl. rewrite <- app_assoc. by apply blocks_review.
Qed.

Lemma said_steady {A} (L : list Event → Prop) (m : M S A) :
  (∀ a b, L a → L b → L (a ++ b)) →
  (∀ h s, L (emitted (m h s))) →
  steady (said L) (fun _ => said L) m.
Proof.
  intros Happ Hm ctx h s Hctx.
  assert (L (ctx ++ emitted (m h s))) by (by apply Happ).
  by destruct (out (m h s)).
Qed.

Lemma said_run {A} (L : list Event → Prop) (m : M S A) h s :
  L [] → steady (said L) (fun _ => said L) m → L (emitted (m h s)).
Proof.
  intros H0 Hm. specialize (Hm [] h s H0). simpl in Hm.
  by destruct (out (m h s)).
Qed.

Lemma review_comments_of_review owner name k review h (s : S) :
  Forall (fun ev => of_review owner name k review ev = true)
    (emitted (downloadReviewComments client fuel owner name k review h s)).
Proof.
  apply only_run.
  eapply steady_downloadReviewComments
    with (may_call := fun c => ∀ st, of_review owner name k review (EvCall c st) = true)
         (may_ask := fun q => ∀ e, of_review owner name k review (EvQuery q e) = true);
    try done.
  - intros. by apply only_call.
  - intros. by apply only_query.
  - intros c st. simpl. by apply bool_decide_eq_true_2.
  - intros cur e. simpl. by apply bool_decide_eq_true_2.
Qed.

Lemma review_process_blocks owner name pr review h (s : S) :
  review_blocks owner name (pr_Number pr)
    (emitted (downloadPullRequestReviews_process client fuel owner name pr
                review h s)).
Proof.
  unfold downloadPullRequestReviews_process.
  rewrite bind_emitted, wrap_emitted, wrap_out, call_eq. simpl.
  destruct ((SavePullRequestReview owner name (pr_Number pr) review s).2); simpl.
  - rewrite <- (app_nil_r (emitted _)).
    apply blocks_review; [|constructor]. apply review_comments_of_review.
  - apply (blocks_review _ _ _ _ _ []); constructor.
  - apply (blocks_review _ _ _ _ _ []); constructor.
Qed.

Lemma reviews_blocks owner name pr h (s : S) :
  review_blocks owner name (pr_Number pr)
    (emitted (downloadPullRequestReviews client fuel owner name pr h s)).
Proof.
  apply said_run; [constructor|]. unfold downloadPullRequestReviews.
  assert (∀ review,
            steady (said (review_blocks owner name (pr_Number pr)))
              (fun _ => said (review_blocks owner name (pr_Number pr)))
              (downloadPullRequestReviews_process (S:=S) client fuel owner name pr
                 review)) as Hprocess.
  { intros review. apply said_steady; [apply review_blocks_app|].
    intros. apply review_process_blocks. }
  apply triple_bind with (Q := fun _ => said (review_blocks owner name (pr_Number pr))).
  { apply triple_range. intros. apply Hprocess. }
  intros _. apply triple_pages; [| |done].
  - intros cursor. apply triple_wrap, said_steady; [apply review_blocks_app|].
    intros h' s'. unfold query. destruct (client h' _); simpl;
      (apply blocks_fetch; [done|constructor]).
  - intros. apply triple_range. intros. apply Hprocess.
Qed.

Lemma call_Ret_emitted c h (s : S) :
  out (call c h s) = Ret tt → emitted (call c h s) = [EvCall c OK].
Proof. rewrite call_eq. simpl. by destruct ((invoke c s).2). Qed.

Lemma assignees_only_fetch pr h (s : S) :
  Forall (fun ev => fetches PullRequestAssignees ev = true)
    (emitted (downloadPullRequestAssignees client fuel pr h s)).
Proof.
  apply only_run.
  eapply steady_downloadPullRequestAssignees
    with (may_ask := fun q => connection_of q = PullRequestAssignees); try done.
  intros q Hq. apply only_query. intros e. simpl. by apply bool_decide_eq_true_2.
Qed.

Lemma labels_only_fetch pr h (s : S) :
  Forall (fun ev => fetches PullRequestLabels ev = true)
    (emitted (downloadPullRequestLabels client fuel pr h s)).
Proof.
  apply only_run.
  eapply steady_downloadPullRequestLabels
    with (may_ask := fun q => connection_of q = PullRequestLabels); try done.
  intros q Hq. apply only_query. intros e. simpl. by apply bool_decide_eq_true_2.
Qed.

Lemma issue_assignees_only_fetch issue h (s : S) :
  Forall (fun ev => fetches IssueAssignees ev = true)
    (emitted (downloadIssueAssignees client fuel issue h s)).
Proof.
  apply only_run.
  eapply steady_downloadIssueAssignees
    with (may_ask := fun q => connection_of q = IssueAssignees); try done.
  intros q Hq. apply only_query. intros e. simpl. by apply bool_decide_eq_true_2.
Qed.

Lemma issue_labels_only_fetch issue h (s : S) :
  Forall (fun ev => fetches IssueLabels ev = true)
    (emitted (downloadIssueLabels client fuel issue h s)).
Proof.
  apply only_run.
  eapply steady_downloadIssueLabels
    with (may_ask := fun q => connection_of q = IssueLabels); try done.
  intros q Hq. apply only_query. intros e. simpl. by apply bool_decide_eq_true_2.
Qed.

Lemma pr_comments_events owner name pr h (s : S) :
  Forall (fun ev => pr_comment_event owner name (pr_Number pr) ev = true)
    (emitted (downloadPullRequestComments client fuel owner name pr h s)).
Proof.
  apply only_run.
  eapply steady_downloadPullRequestComments
    with (may_call := fun c => ∀ st, pr_comment_event owner name (pr_Number pr)
                                       (EvCall c st) = true)
         (may_ask := fun q => connection_of q = PullRequestComments); try done.
  - intros. by apply only_call.
  - intros q Hq. apply only_query. intros e. simpl. by apply bool_decide_eq_true_2.
  - intros c st. simpl. by apply bool_decide_eq_true_2.
Qed.

Lemma issue_comments_events owner name issue h (s : S) :
  Forall (fun ev => issue_comment_event owner name (issue_Number issue) ev = true)
    (emitted (downloadIssueComments client fuel owner name issue h s)).
Proof.
  apply only_run.
  eapply steady_downloadIssueComments
    with (may_call := fun c => ∀ st, issue_comment_event owner name
                                       (issue_Number issue) (EvCall c st) = true)
         (may_ask := fun q => connection_of q = IssueComments); try done.
  - intros. by apply only_call.
  - intros q Hq. apply only_query. intros e. simpl. by apply bool_decide_eq_true_2.
  - intros c st. simpl. by apply bool_decide_eq_true_2.
Qed.

Lemma pull_request_process_resolved owner name pr h (s : S) :
  out (downloadPullRequests_process client fuel owner name pr h s) = Ret tt →
  pull_request_resolved
    (downloadPullRequestAssignees client fuel pr)
    (downloadPullRequestLabels client fuel pr)
    owner name pr h s
    (emitted (downloadPullRequests_process client fuel owner name pr h s)).
Proof.
  unfold downloadPullRequests_process. intros Hout.
  apply bind_out_Ret in Hout as (assignees & HA & Hout).
  rewrite bind_emitted, HA.
  apply bind_out_Ret in Hout as (labels & HL & Hout).
  rewrite bind_emitted, HL.
  apply bind_out_Ret in Hout as ([] & Hsave & Hout).
  rewrite bind_emitted, Hsave.
  apply bind_out_Ret in Hout as ([] & HC & HR).
  rewrite bind_emitted, HC.
  rewrite (call_Ret_emitted _ _ _ Hsave) at 1.
  eexists assignees, labels, _, _.
  split; [exact HA|]. split; [exact HL|]. split; [reflexivity|].
  split; [apply assignees_only_fetch|]. split; [apply labels_only_fetch|].
  split; [apply pr_comments_events|apply reviews_blocks].
Qed.

Lemma issue_process_resolved owner name issue h (s : S) :
  out (downloadIssues_process client fuel owner name issue h s) = Ret tt →
  issue_resolved
    (downloadIssueAssignees client fuel issue)
    (downloadIssueLabels client fuel issue)
    owner name issue h s
    (emitted (downloadIssues_process client fuel owner name issue h s)).
Proof.
  unfold downloadIssues_process. intros Hout.
  apply bind_out_Ret in Hout as (assignees & HA & Hout).
  rewrite bind_emitted, HA.
  apply bind_out_Ret in Hout as (labels & HL & Hout).
  rewrite bind_emitted, HL.
  apply bind_out_Ret in Hout as ([] & Hsave & HC).
  rewrite bind_emitted, Hsave.
  rewrite (call_Ret_emitted _ _ _ Hsave) at 1.
  eexists assignees, labels, _.
  split; [exact HA|]. split; [exact HL|]. split; [reflexivity|].
  split; [apply issue_assignees_only_fetch|].
  split; [apply issue_labels_only_fetch|apply issue_comments_events].
Qed.

(** C5.  Per-entity resolution order.  In every run of the closure
    [process] that returns [nil], for an issue as for a pull request, the
    events are: the walk over the assignees (queries only), the walk over
    the labels (queries only), one Save call of the entity with the two lists
    the walks returned, then the walk over its comments, each saved by a
    call of its own; for a pull request the walk over the reviews follows,
    in which the Save call of each review is followed at once by the events
    of the walk over that review's comments, before the next review or the
    next page of reviews. *)
Theorem C5_resolution_order owner name h (s : S) :
  (∀ issue,
     out (downloadIssues_process client fuel owner name issue h s) = Ret tt →
     issue_resolved
       (downloadIssueAssignees client fuel issue)
       (downloadIssueLabels client fuel issue)
       owner name issue h s
       (emitted (downloadIssues_process client fuel owner name issue h s)))
  ∧ (∀ pr,
       out (downloadPullRequests_process client fuel owner name pr h s) = Ret tt →
       pull_request_resolved
         (downloadPullRequestAssignees client fuel pr)
         (downloadPullRequestLabels client fuel pr)
         owner name pr h s
         (emitted (downloadPullRequests_process client fuel owner name pr h s)))
  ∧ (∀ pr,
       review_blocks owner name (pr_Number pr)
         (emitted (downloadPullRequestReviews client fuel owner name pr h s))).
Proof.
  split; [|split].
  - intros. by apply issue_process_resolved.
  - intros. by apply pull_request_process_resolved.
  - intros. apply reviews_blocks.
Qed.

End resolution.
End resolution.

(** ** The in-memory backend *)
Module mem.
Import github runs.

Section lookups.
Implicit Types (m : store.Mem) (owner name : string) (number id : Z).

(** Printing does not touch [Repos]. *)
Lemma repo_at_print m line owner name :
  store.repo_at (store.print m line) owner name = store.repo_at m owner name.
Proof. reflexivity. Qed.

Lemma pr_at_print m line owner name number :
  store.pr_at (store.print m line) owner name number
  = store.pr_at m owner name number.
Proof. reflexivity. Qed.

Lemma review_at_print m line owner name number id :
  store.review_at (store.print m line) owner name number id
  = store.review_at m owner name number id.
Proof. reflexivity. Qed.

(** Absence at an outer level is absence at every level below. *)
Lemma nil_Repos_absent m owner name :
  store.Repos m = None → store.repo_at m owner name = None.
Proof. unfold store.repo_at, store.owner_map. by intros ->. Qed.

Lemma owner_absent m owner name :
  gomap.get (store.Repos m) owner = None → store.repo_at m owner name = None.
Proof. unfold store.repo_at, store.owner_map. by intros ->. Qed.

Lemma nil_owner_map_absent m owner name :
  gomap.get (store.Repos m) owner = Some None → store.repo_at m owner name = None.
Proof. unfold store.repo_at, store.owner_map. by intros ->. Qed.

Lemma repo_absent_pr_absent m owner name number :
  store.repo_at m owner name = None → store.pr_at m owner name number = None.
Proof. unfold store.pr_at, store.prs_at. by intros ->. Qed.

Lemma nil_PRs_absent m owner name number r :
  store.repo_at m owner name = Some r → store.PRs r = None →
  store.pr_at m owner name number = None.
Proof. unfold store.pr_at, store.prs_at. by intros -> ->. Qed.

Lemma pr_absent_review_absent m owner name number id :
  store.pr_at m owner name number = None →
  store.review_at m owner name number id = None.
Proof. unfold store.review_at, store.reviews_at. by intros ->. Qed.

Lemma nil_Reviews_absent m owner name number id p :
  store.pr_at m owner name number = Some p → store.Reviews p = None →
  store.review_at m owner name number id = None.
Proof. unfold store.review_at, store.reviews_at. by intros -> ->. Qed.

(** What the two assignments leave in the tree. *)
Lemma store_repo_lookup m inner owner name r m' :
  store.store_repo m inner owner name r = (m', OK) →
  store.repo_at m' owner name = Some r.
Proof.
  unfold store.store_repo.
  destruct inner as [inner|]; simpl; [|done].
  destruct (store.Repos m) as [repos|] eqn:E; simpl; [|done].
  intros [= <-]. unfold store.repo_at, store.owner_map. simpl.
  rewrite lookup_insert_eq. simpl. by rewrite lookup_insert_eq.
Qed.

Lemma store_pr_lookup m owner name number p m' :
  store.store_pr m owner name number p = (m', OK) →
  store.pr_at m' owner name number = Some p.
Proof.
  unfold store.store_pr.
  destruct (store.repo_at m owner name) as [r|]; [|done].
  destruct (store.PRs r) as [prs|]; simpl; [|done].
  intros Hm'%store_repo_lookup.
  unfold store.pr_at, store.prs_at. rewrite Hm'. simpl.
  by rewrite lookup_insert_eq.
Qed.

Lemma store_pr_review_lookup m owner name number p m' id :
  store.store_pr m owner name number p = (m', OK) →
  store.review_at m' owner name number id = gomap.get (store.Reviews p) id.
Proof.
  intros Hm'%store_pr_lookup. unfold store.review_at, store.reviews_at.
  by rewrite Hm'.
Qed.

End lookups.

(** *** No Save method panics on a store without nil maps *)

Lemma sound_print m line : sound m → sound (store.print m line).
Proof. done. Qed.

Lemma repo_at_owner_map m owner name r :
  store.repo_at m owner name = Some r → store.owner_map m owner ≠ None.
Proof. unfold store.repo_at. by destruct (store.owner_map m owner). Qed.

Lemma store_repo_sound m owner name r :
  sound m → store.owner_map m owner ≠ None → sound_repo r →
  (store.store_repo m (store.owner_map m owner) owner name r).2 = OK
  ∧ sound (store.store_repo m (store.owner_map m owner) owner name r).1.
Proof.
  intros (Hrepos & Hinner & Hsound) Howner Hr.
  unfold store.store_repo.
  destruct (store.owner_map m owner) as [g|] eqn:Hg; [|done].
  destruct (store.Repos m) as [repos|] eqn:Hm; [|done].
  simpl. split; [done|]. split; [done|]. split.
  - intros o. simpl. destruct (decide (owner = o)) as [->|Hne].
    + by rewrite lookup_insert_eq.
    + rewrite lookup_insert_ne by done. by specialize (Hinner o).
  - intros o n r'. unfold store.repo_at, store.owner_map. simpl.
    destruct (decide (owner = o)) as [->|Hne].
    + rewrite lookup_insert_eq. simpl.
      destruct (decide (name = n)) as [->|Hn].
      * rewrite lookup_insert_eq. by intros [= <-].
      * rewrite lookup_insert_ne by done. intros Hr'.
        apply (Hsound o n). unfold store.repo_at. by rewrite Hg.
    + rewrite lookup_insert_ne by done. intros Hr'.
      apply (Hsound o n). unfold store.repo_at, store.owner_map.
      by rewrite Hm.
Qed.

Lemma store_pr_sound m owner name number p :
  sound m → is_Some (store.repo_at m owner name) → store.Reviews p ≠ None →
  (store.store_pr m owner name number p).2 = OK
  ∧ sound (store.store_pr m owner name number p).1.
Proof.
  intros Hm [r Hr] Hp. pose proof Hm as (_ & _ & Hsound).
  destruct (Hsound _ _ _ Hr) as (prs & Hprs & Hreviews).
  unfold store.store_pr. rewrite Hr, Hprs. simpl.
  apply store_repo_sound; [done|by eapply repo_at_owner_map|].
  exists (<[number := p]> prs). split; [done|].
  intros k p'. destruct (decide (number = k)) as [->|Hne].
  - rewrite lookup_insert_eq. by intros [= <-].
  - rewrite lookup_insert_ne by done. apply Hreviews.
Qed.

Lemma sound_pr_at m owner name number p :
  sound m → store.pr_at m owner name number = Some p →
  is_Some (store.repo_at m owner name) ∧ store.Reviews p ≠ None.
Proof.
  intros (_ & _ & Hsound). unfold store.pr_at, store.prs_at.
  destruct (store.repo_at m owner name) as [r|] eqn:Hr; [|done].
  destruct (Hsound _ _ _ Hr) as (prs & -> & Hreviews). simpl.
  intros Hp. split; [done|]. by eapply Hreviews.
Qed.

Lemma SaveRepository_sound m repository topics :
  sound m →
  (store.SaveRepository repository topics m).2 = OK
  ∧ sound (store.SaveRepository repository topics m).1.
Proof.
  intros Hm. unfold store.SaveRepository.
  set (line := store.mkPrintf _ _).
  set (r := {| store.RepositoryFields_of := repository; store.Topics := topics;
               store.PRs := gomap.make |}).
  assert (sound_repo r) as Hr by (by exists ∅).
  assert (sound (store.print m line)) as Hm1 by done.
  destruct (gomap.get (store.Repos (store.print m line))
              (Login (repo_Owner repository))) as [inner|] eqn:Hget.
  - assert (store.owner_map (store.print m line) (Login (repo_Owner repository))
            = inner) as Hinner by (unfold store.owner_map; by rewrite Hget).
    rewrite <- Hinner. apply store_repo_sound; [done| |done].
    rewrite Hinner. intros ->. by destruct Hm1 as (_ & H2 & _); eapply H2.
  - destruct Hm1 as (Hrepos & Hnonil & Hsound).
    destruct (store.Repos (store.print m line)) as [repos|] eqn:Hrs; [|done].
    simpl.
    set (m1 := store.with_Repos (store.print m line)
                 (Some (<[Login (repo_Owner repository) := gomap.make]> repos))).
    assert (store.owner_map m1 (Login (repo_Owner repository)) = gomap.make)
      as Hmake.
    { unfold store.owner_map. simpl. by rewrite lookup_insert_eq. }
    pose proof (store_repo_sound m1 (Login (repo_Owner repository))
                  (repo_Name repository) r) as Hstore.
    rewrite Hmake in Hstore. apply Hstore; [|done..].
    split; [done|]. split.
    + intros o. simpl. destruct (decide (Login (repo_Owner repository) = o)) as [->|Hne].
      * by rewrite lookup_insert_eq.
      * rewrite lookup_insert_ne by done. by specialize (Hnonil o).
    + intros o n r'. unfold store.repo_at, store.owner_map. simpl.
      destruct (decide (Login (repo_Owner repository) = o)) as [->|Hne].
      * by rewrite lookup_insert_eq.
      * rewrite lookup_insert_ne by done. intros Hr'.
        apply (Hsound o n). unfold store.repo_at, store.owner_map.
        by rewrite Hrs.
Qed.

Lemma saves_sound (m : store.Mem) (c : Call) :
  sound m → is_save c = true →
  (invoke c m).2 ≠ Panicked ∧ sound (invoke c m).1.
Proof.
  intros Hm Hc. destruct c; try discriminate; simpl.
  - done.
  - done.
  - destruct (SaveRepository_sound m repository topics Hm) as [-> ?]. done.
  - done.
  - done.
  - unfold store.SavePullRequest. set (line := store.mkPrintf _ _).
    rewrite repo_at_print.
    destruct (store.repo_at m owner name) as [r|] eqn:Hr; [|done].
    destruct (store_pr_sound (store.print m line) owner name (pr_Number pr)
                {| store.PullRequest_of := pr; store.Assignees := assignees;
                   store.Labels := labels; store.Comments := [];
                   store.Reviews := gomap.make |}) as [-> ?]; done.
  - unfold store.SavePullRequestComment. set (line := store.mkPrintf _ _).
    rewrite pr_at_print.
    destruct (store.pr_at m owner name pullRequestNumber) as [p|] eqn:Hp; [|done].
    destruct (sound_pr_at _ _ _ _ _ Hm Hp) as [Hrepo Hreviews].
    destruct (store_pr_sound (store.print m line) owner name pullRequestNumber
                {| store.PullRequest_of := store.PullRequest_of p;
                   store.Assignees := store.Assignees p;
                   store.Labels := store.Labels p;
                   store.Comments := store.Comments p ++ [comment];
                   store.Reviews := store.Reviews p |}) as [-> ?]; done.
  - unfold store.SavePullRequestReview. set (line := store.mkPrintf _ _).
    rewrite pr_at_print.
    destruct (store.pr_at m owner name pullRequestNumber) as [p|] eqn:Hp; [|done].
    destruct (sound_pr_at _ _ _ _ _ Hm Hp) as [Hrepo Hreviews].
    destruct (store.Reviews p) as [reviews|] eqn:Hrv; [|done]. simpl.
    destruct (store_pr_sound (store.print m line) owner name pullRequestNumber
                {| store.PullRequest_of := store.PullRequest_of p;
                   store.Assignees := store.Assignees p;
                   store.Labels := store.Labels p;
                   store.Comments := store.Comments p;
                   store.Reviews :=
                     Some (<[rev_DatabaseId review :=
                               {| store.PullRequestReview_of := review;
                                  store.review_Comments := [] |}]> reviews) |})
      as [-> ?]; done.
  - unfold store.SavePullRequestReviewComment. set (line := store.mkPrintf _ _).
    rewrite review_at_print, pr_at_print.
    destruct (store.pr_at m owner name pullRequestNumber) as [p|] eqn:Hp.
    2:{ by rewrite (pr_absent_review_absent _ _ _ _ _ Hp). }
    destruct (store.review_at m owner name pullRequestNumber pullRequestReviewId)
      as [rv|] eqn:Hrv; [|done].
    destruct (sound_pr_at _ _ _ _ _ Hm Hp) as [Hrepo Hreviews].
    destruct (store.Reviews p) as [reviews|] eqn:Hrs; [|done]. simpl.
    destruct (store_pr_sound (store.print m line) owner name pullRequestNumber
                {| store.PullRequest_of := store.PullRequest_of p;
                   store.Assignees := store.Assignees p;
                   store.Labels := store.Labels p;
                   store.Comments := store.Comments p;
                   store.Reviews :=
                     Some (<[pullRequestReviewId :=
                               {| store.PullRequestReview_of :=
                                    store.PullRequestReview_of rv;
                                  store.review_Comments :=
                                    store.review_Comments rv ++ [comment] |}]>
                             reviews) |})
      as [-> ?]; done.
Qed.

Lemma NewMemDownloader_sound : sound NewMemDownloader.
Proof.
  split; [done|]. split; [done|]. intros o n r. done.
Qed.

(** C10.  The Save methods of the in-memory backend that look a parent up
    are total where the parent is missing: whenever the repository (for
    [SavePullRequest]), the pull request (for [SavePullRequestComment] and
    [SavePullRequestReview]) or the review (for
    [SavePullRequestReviewComment]) is absent, at whatever level of the
    nested maps and nil maps included, the method returns [NotFound], does
    not panic, and leaves [Repos] as it was.  On a store without nil maps,
    which is what the Save methods build from [NewMemDownloader], no Save
    method panics at all. *)
Theorem C10_missing_parent_not_found (m : store.Mem) (owner name : string) :
  (∀ pr assignees labels,
     store.repo_at m owner name = None →
     (store.SavePullRequest owner name pr assignees labels m).2 = Fail NotFound
     ∧ store.Repos (store.SavePullRequest owner name pr assignees labels m).1
       = store.Repos m)
  ∧ (∀ number comment,
       store.pr_at m owner name number = None →
       (store.SavePullRequestComment owner name number comment m).2 = Fail NotFound
       ∧ store.Repos (store.SavePullRequestComment owner name number comment m).1
         = store.Repos m)
  ∧ (∀ number review,
       store.pr_at m owner name number = None →
       (store.SavePullRequestReview owner name number review m).2 = Fail NotFound
       ∧ store.Repos (store.SavePullRequestReview owner name number review m).1
         = store.Repos m)
  ∧ (∀ number id comment,
       store.review_at m owner name number id = None →
       (store.SavePullRequestReviewComment owner name number id comment m).2
       = Fail NotFound
       ∧ store.Repos
           (store.SavePullRequestReviewComment owner name number id comment m).1
         = store.Repos m)
  ∧ (∀ number id,
       (store.Repos m = None
        ∨ gomap.get (store.Repos m) owner = None
        ∨ gomap.get (store.Repos m) owner = Some None
        → store.repo_at m owner name = None)
       ∧ (store.repo_at m owner name = None
          ∨ (∃ r, store.repo_at m owner name = Some r ∧ store.PRs r = None)
          → store.pr_at m owner name number = None)
       ∧ (store.pr_at m owner name number = None
          ∨ (∃ p, store.pr_at m owner name number = Some p
                  ∧ store.Reviews p = None)
          → store.review_at m owner name number id = None))
  ∧ sound NewMemDownloader
  ∧ (sound m →
     ∀ c, is_save c = true → (invoke c m).2 ≠ Panicked ∧ sound (invoke c m).1).
Proof.
  split; [|split; [|split; [|split; [|split; [|split]]]]].
  - intros pr assignees labels Habsent. unfold store.SavePullRequest.
    rewrite repo_at_print. by rewrite Habsent.
  - intros number comment Habsent. unfold store.SavePullRequestComment.
    rewrite pr_at_print. by rewrite Habsent.
  - intros number review Habsent. unfold store.SavePullRequestReview.
    rewrite pr_at_print. by rewrite Habsent.
  - intros number id comment Habsent. unfold store.SavePullRequestReviewComment.
    rewrite review_at_print. by rewrite Habsent.
  - intros number id. split; [|split].
    + intros [?|[?|?]];
        eauto using nil_Repos_absent, owner_absent, nil_owner_map_absent.
    + intros [?|(r & ? & ?)];
        eauto using repo_absent_pr_absent, nil_PRs_absent.
    + intros [?|(p & ? & ?)];
        eauto using pr_absent_review_absent, nil_Reviews_absent.
  - apply NewMemDownloader_sound.
  - intros Hm c Hc. by apply saves_sound.
Qed.

(** C8.  In the in-memory backend [SaveIssue] and [SaveIssueComment] only
    print one line: they return [nil] and leave [Repos] unchanged for every
    input.  [SaveRepository], [SavePullRequest], [SavePullRequestComment],
    [SavePullRequestReview] and [SavePullRequestReviewComment], when they
    succeed, leave their entity in [Repos]. *)
Theorem C8_issues_printed_pull_requests_stored (m : store.Mem) :
  (∀ owner name issue assignees labels,
     ∃ line, store.SaveIssue owner name issue assignees labels m
             = (store.print m line, OK))
  ∧ (∀ owner name number comment,
       ∃ line, store.SaveIssueComment owner name number comment m
               = (store.print m line, OK))
  ∧ (∀ repository topics m',
       store.SaveRepository repository topics m = (m', OK) →
       store.repo_at m' (Login (repo_Owner repository)) (repo_Name repository)
       = Some {| store.RepositoryFields_of := repository;
                 store.Topics := topics;
                 store.PRs := gomap.make |})
  ∧ (∀ owner name pr assignees labels m',
       store.SavePullRequest owner name pr assignees labels m = (m', OK) →
       store.pr_at m' owner name (pr_Number pr)
       = Some {| store.PullRequest_of := pr;
                 store.Assignees := assignees;
                 store.Labels := labels;
                 store.Comments := [];
                 store.Reviews := gomap.make |})
  ∧ (∀ owner name number comment m',
       store.SavePullRequestComment owner name number comment m = (m', OK) →
       ∃ p, store.pr_at m owner name number = Some p
            ∧ store.pr_at m' owner name number
              = Some {| store.PullRequest_of := store.PullRequest_of p;
                        store.Assignees := store.Assignees p;
                        store.Labels := store.Labels p;
                        store.Comments := store.Comments p ++ [comment];
                        store.Reviews := store.Reviews p |})
  ∧ (∀ owner name number review m',
       store.SavePullRequestReview owner name number review m = (m', OK) →
       store.review_at m' owner name number (rev_DatabaseId review)
       = Some {| store.PullRequestReview_of := review;
                 store.review_Comments := [] |})
  ∧ (∀ owner name number id comment m',
       store.SavePullRequestReviewComment owner name number id comment m
       = (m', OK) →
       ∃ rv, store.review_at m owner name number id = Some rv
             ∧ store.review_at m' owner name number id
               = Some {| store.PullRequestReview_of := store.PullRequestReview_of rv;
                         store.review_Comments :=
                           store.review_Comments rv ++ [comment] |}).
Proof.
  split; [|split; [|split; [|split; [|split; [|split]]]]].
  - intros. by eexists.
  - intros. by eexists.
  - intros repository topics m'. unfold store.SaveRepository.
    destruct (gomap.get _ _) as [inner|].
    + apply store_repo_lookup.
    + destruct (gomap.set _ _ _); [|done]. apply store_repo_lookup.
  - intros owner name pr assignees labels m'. unfold store.SavePullRequest.
    destruct (store.repo_at _ _ _); [|done]. apply store_pr_lookup.
  - intros owner name number comment m'. unfold store.SavePullRequestComment.
    rewrite pr_at_print.
    destruct (store.pr_at m owner name number) as [p|]; [|done].
    intros Hm'%store_pr_lookup. by exists p.
  - intros owner name number review m'. unfold store.SavePullRequestReview.
    destruct (store.pr_at _ _ _ _) as [p|]; [|done].
    destruct (store.Reviews p) as [reviews|] eqn:E; simpl; [|done].
    intros Hm'. rewrite (store_pr_review_lookup _ _ _ _ _ _ _ Hm'). simpl.
    by rewrite lookup_insert_eq.
  - intros owner name number id comment m'.
    unfold store.SavePullRequestReviewComment. rewrite review_at_print.
    destruct (store.review_at m owner name number id) as [rv|]; [|done].
    rewrite pr_at_print.
    destruct (store.pr_at m owner name number) as [p|]; [|done].
    destruct (store.Reviews p) as [reviews|] eqn:E; simpl; [|done].
    intros Hm'. exists rv. split; [done|].
    rewrite (store_pr_review_lookup _ _ _ _ _ _ _ Hm'). simpl.
    by rewrite lookup_insert_eq.
Qed.

End mem.

(** ** A comment for a pull request that was never saved *)
Module not_found.
Import github run_rules.

Section not_found.
Variable client : Client.
Variable fuel : nat.

Lemma save_comment_not_found owner name number comment (m : store.Mem) :
  store.pr_at m owner name number = None →
  (invoke (CSavePullRequestComment owner name number comment) m).2 = Fail NotFound
  ∧ store.Repos (invoke (CSavePullRequestComment owner name number comment) m).1
    = store.Repos m.
Proof.
  intros Habsent. simpl. unfold store.SavePullRequestComment.
  rewrite mem.pr_at_print. by rewrite Habsent.
Qed.

Lemma comments_not_found owner name pr c cs h (m : store.Mem) :
  Nodes (pr_Comments pr) = c :: cs →
  store.pr_at m owner name (pr_Number pr) = None →
  out (downloadPullRequestComments client fuel owner name pr h m)
  = Err (Errorf "failed to save PR comments for PR #%v: %v" NotFound)
  ∧ emitted (downloadPullRequestComments client fuel owner name pr h m)
    = [EvCall (CSavePullRequestComment owner name (pr_Number pr) c) (Fail NotFound)]
  ∧ store.Repos (final (downloadPullRequestComments client fuel owner name pr h m))
    = store.Repos m.
Proof.
  intros Hnodes Habsent.
  destruct (save_comment_not_found owner name (pr_Number pr) c m Habsent)
    as [Hst Hrepos].
  unfold downloadPullRequestComments. rewrite Hnodes. simpl range.
  set (first := wrap "failed to save PR comments for PR #%v: %v"
                  (call (CSavePullRequestComment owner name (pr_Number pr) c))).
  assert (out (first h m)
          = Err (Errorf "failed to save PR comments for PR #%v: %v" NotFound))
    as Hout.
  { subst first. by rewrite wrap_out, call_eq, Hst. }
  assert (emitted (first h m)
          = [EvCall (CSavePullRequestComment owner name (pr_Number pr) c)
               (Fail NotFound)]) as Hev.
  { subst first. by rewrite wrap_emitted, call_eq, Hst. }
  assert (store.Repos (final (first h m)) = store.Repos m) as Hfin.
  { subst first. by rewrite wrap_final, call_eq. }
  assert (bind first (fun _ => range cs (fun comment =>
            wrap "failed to save PR comments for PR #%v: %v"
              (call (CSavePullRequestComment owner name (pr_Number pr) comment))))
            h m
          = mkRun (Err (Errorf "failed to save PR comments for PR #%v: %v" NotFound))
              (final (first h m)) (emitted (first h m))) as Hrange
    by (by apply bind_Err).
  rewrite (bind_Err _ _ h m
             (Errorf "failed to save PR comments for PR #%v: %v" NotFound))
    by (by rewrite Hrange).
  rewrite Hrange. simpl. by rewrite Hev, Hfin.
Qed.


End not_found.
End not_found.

(** ** The bridge: what is written to the Bitbucket server, and in which
    order *)
Module bridge_order.
Import migrate bridge.

Section bridge_order.
Variable server : Server.
Variable iteration : nat → ∀ V : Type, gmap Z V → list (Z * V).
Variable Sprintf_comment : graphql.IssueComment → string.
Variable Sprintf_review : store.PullRequestReview → string.
Variable Sprintf_review_comment : graphql.PullRequestReviewComment → string.
Variable c : Config.

(** Go visits every entry of a map once, in some order. *)
Hypothesis iteration_visits_all :
  ∀ n V (g : gmap Z V), iteration n V g ≡ₚ map_to_list g.

Local Abbreviation unanswered := (Exists (fun x : Exchange => answered x = false)).
Local Abbreviation all_answered := (Forall (fun x : Exchange => answered x = true)).

Lemma answered_not_unanswered xs : all_answered xs → unanswered xs → False.
Proof.
  intros Hall Hex. apply Exists_exists in Hex as (x & Hin & Hx).
  rewrite Forall_forall in Hall. specialize (Hall x Hin). congruence.
Qed.

Lemma createComments_loop_sent id comments result st :
  ∃ top,
    sent (createComments_loop server Sprintf_comment c id comments result st).2
    = sent st ++ top
    ∧ match (createComments_loop server Sprintf_comment c id comments result st).1 with
      | inr _ => requests top = map (top_request Sprintf_comment c id) comments
                 ∧ all_answered top
      | inl _ => unanswered top
      end.
Proof.
  revert result st. induction comments as [|cm rest IH]; intros result st.
  - exists []. simpl. by rewrite app_nil_r.
  - simpl. unfold bind, send.
    destruct (server (sent st) _) as [e|resp] eqn:Hanswer.
    + eexists [_]. simpl. split; [reflexivity|]. by left.
    + match goal with
      | |- context [createComments_loop _ _ _ _ _ ?result' ?st'] =>
          destruct (IH result' st') as (top & Hsent & Hshape)
      end.
      eexists (_ :: top). rewrite Hsent. simpl. rewrite <- app_assoc.
      split; [reflexivity|].
      destruct (createComments_loop _ _ _ _ _ _ _).1 as [e|ids].
      * by right.
      * destruct Hshape as [Hreq Hall]. split; [by rewrite <- Hreq|].
        by constructor.
Qed.

Lemma nested_sent id rid comments st :
  ∃ nested,
    sent (range comments (fun cm =>
            bind (send server
                    (CreatePullRequestComment (BitBucketServerProjectKey c)
                       (GithubRepoName c) (pretty id)
                       {| Text := trim (Sprintf_review_comment cm);
                          Parent := Some rid |}))
              (fun _ => ret tt)) st).2
    = sent st ++ nested
    ∧ match (range comments (fun cm =>
               bind (send server
                       (CreatePullRequestComment (BitBucketServerProjectKey c)
                          (GithubRepoName c) (pretty id)
                          {| Text := trim (Sprintf_review_comment cm);
                             Parent := Some rid |}))
                 (fun _ => ret tt)) st).1 with
      | inr _ =>
          requests nested
          = map (nested_request Sprintf_review_comment c id rid) comments
          ∧ all_answered nested
      | inl _ => unanswered nested
      end.
Proof.
  revert st. induction comments as [|cm rest IH]; intros st.
  - exists []. simpl. by rewrite app_nil_r.
  - simpl. unfold bind, send.
    destruct (server (sent st) _) as [e|resp] eqn:Hanswer.
    + eexists [_]. simpl. split; [reflexivity|]. by left.
    + simpl.
      match goal with
      | |- context [range rest ?body ?st'] =>
          destruct (IH st') as (nested & Hsent & Hshape)
      end.
      unfold bind, send in Hsent, Hshape.
      eexists (_ :: nested). rewrite Hsent. simpl. rewrite <- app_assoc.
      split; [reflexivity|].
      destruct (range rest _ _).1 as [e|[]].
      * by right.
      * destruct Hshape as [Hreq Hall]. split; [by rewrite <- Hreq|].
        by constructor.
Qed.

Lemma bind_inl {A C} (m : B A) (k : A → B C) st e st' :
  m st = (inl e, st') → bind m k st = (inl e, st').
Proof. intros Hm. unfold bind. by rewrite Hm. Qed.

Lemma bind_inr {A C} (m : B A) (k : A → B C) st a st' :
  m st = (inr a, st') → bind m k st = k a st'.
Proof. intros Hm. unfold bind. by rewrite Hm. Qed.

Lemma range_cons_inl {N} (x : N) rest body st e st' :
  body x st = (inl e, st') → range (x :: rest) body st = (inl e, st').
Proof. intros Hx. simpl. by apply bind_inl. Qed.

Lemma range_cons_inr {N} (x : N) rest body st st' :
  body x st = (inr tt, st') → range (x :: rest) body st = range rest body st'.
Proof. intros Hx. simpl. by rewrite (bind_inr _ _ _ _ _ Hx). Qed.

Lemma threads_sent id (es : list (Z * store.PullRequestReview)) st :
  let body := fun '((_, review) : Z * store.PullRequestReview) =>
    bind (send server
            (CreatePullRequestComment (BitBucketServerProjectKey c)
               (GithubRepoName c) (pretty id)
               {| Text := trim (Sprintf_review review); Parent := None |}))
      (fun reviewResp =>
         range (store.review_Comments review) (fun cm =>
           bind (send server
                   (CreatePullRequestComment (BitBucketServerProjectKey c)
                      (GithubRepoName c) (pretty id)
                      {| Text := trim (Sprintf_review_comment cm);
                         Parent := Some reviewResp |}))
             (fun _ => ret tt))) in
  ∃ threads,
    sent (range es body st).2 = sent st ++ threads
    ∧ match (range es body st).1 with
      | inr _ =>
          threads_of Sprintf_review Sprintf_review_comment c id (map snd es) threads
          ∧ all_answered threads
      | inl _ => unanswered threads
      end.
Proof.
  intros body. revert st. induction es as [|[k review] rest IH]; intros st.
  - exists []. simpl. rewrite app_nil_r. split; [done|]. split; constructor.
  - set (rq := CreatePullRequestComment (BitBucketServerProjectKey c)
                 (GithubRepoName c) (pretty id)
                 {| Text := trim (Sprintf_review review); Parent := None |}).
    set (st1 := {| sent := sent st ++ [(rq, server (sent st) rq)];
                   ranged := ranged st |}).
    assert (send server rq st = (server (sent st) rq, st1)) as Hsend by done.
    destruct (server (sent st) rq) as [e|rid] eqn:Hanswer.
    + rewrite (range_cons_inl _ _ body st e st1)
        by (by apply bind_inl).
      eexists [_]. simpl. split; [reflexivity|]. by left.
    + destruct (nested_sent id rid (store.review_Comments review) st1)
        as (nested & Hnested & Hshape).
      destruct (range (store.review_Comments review) _ st1)
        as [[e|[]] st2] eqn:Hrun; simpl in Hnested, Hshape.
      * rewrite (range_cons_inl _ _ body st e st2)
          by (unfold body; by rewrite (bind_inr _ _ _ _ _ Hsend)).
        eexists (_ :: nested). simpl. rewrite Hnested. simpl.
        rewrite <- app_assoc. split; [reflexivity|]. by right.
      * rewrite (range_cons_inr _ _ body st st2)
          by (unfold body; by rewrite (bind_inr _ _ _ _ _ Hsend)).
        destruct (IH st2) as (threads & Hthreads & Hrest).
        eexists ((_ :: nested) ++ threads). rewrite Hthreads, Hnested. simpl.
        rewrite <- !app_assoc. simpl. split; [reflexivity|].
        destruct (range rest body st2).1 as [e|[]].
        -- right. apply Exists_app. by right.
        -- destruct Hshape as [Hreq Hall]. destruct Hrest as [Hrest Hall'].
           split.
           ++ change ((rq, inr rid) :: nested ++ threads)
                with (((rq, @inr error Z rid) :: nested) ++ threads).
              apply threads_cons; [|done]. by constructor.
           ++ constructor; [done|]. apply Forall_app. by split.
Qed.

Lemma entries_visit_all {V} (m : gomap.t Z V) st :
  ∃ es, entries iteration m st
        = (inr es, {| sent := sent st; ranged := Datatypes.S (ranged st) |})
        ∧ es ≡ₚ match m with None => [] | Some g => map_to_list g end.
Proof.
  eexists. split; [reflexivity|]. destruct m as [g|]; [|done].
  apply iteration_visits_all.
Qed.

Lemma createReviewComments_sent id pr st :
  ∃ reviews threads,
    reviews ≡ₚ review_values pr
    ∧ sent (createReviewComments server iteration Sprintf_review
              Sprintf_review_comment c id pr st).2 = sent st ++ threads
    ∧ match (createReviewComments server iteration Sprintf_review
               Sprintf_review_comment c id pr st).1 with
      | inr _ =>
          threads_of Sprintf_review Sprintf_review_comment c id reviews threads
          ∧ all_answered threads
      | inl _ => unanswered threads
      end.
Proof.
  unfold createReviewComments.
  destruct (entries_visit_all (store.Reviews pr) st) as (es & Hes & Hperm).
  rewrite (bind_inr _ _ _ _ _ Hes).
  destruct (threads_sent id es
              {| sent := sent st; ranged := Datatypes.S (ranged st) |})
    as (threads & Hsent & Hshape).
  exists (map snd es), threads. split; [|by split].
  unfold review_values. destruct (store.Reviews pr) as [g|].
  - by apply fmap_Permutation.
  - by apply Permutation_nil_r in Hperm as ->.
Qed.

Lemma migratePR_sent prId pr st :
  ∃ seg,
    sent (migratePR server iteration Sprintf_comment Sprintf_review
            Sprintf_review_comment c prId pr st).2 = sent st ++ seg
    ∧ (∃ answer rest, seg = (create_request c pr, answer) :: rest)
    ∧ match (migratePR server iteration Sprintf_comment Sprintf_review
               Sprintf_review_comment c prId pr st).1 with
      | inr _ =>
          ∃ reviews,
            reviews ≡ₚ review_values pr
            ∧ pr_migrated Sprintf_comment Sprintf_review Sprintf_review_comment
                c pr reviews seg
      | inl _ => unanswered seg
      end.
Proof.
  unfold migratePR.
  set (st1 := {| sent := sent st
                   ++ [(create_request c pr, server (sent st) (create_request c pr))];
                 ranged := ranged st |}).
  assert (createPR server c pr st
          = (server (sent st) (create_request c pr), st1)) as Hcreate by done.
  destruct (server (sent st) (create_request c pr)) as [e|id] eqn:Hanswer.
  { rewrite (bind_inl _ _ _ _ _ Hcreate). eexists [_]. simpl.
    split; [reflexivity|]. split; [by eexists _, _|]. by left. }
  rewrite (bind_inr _ _ _ _ _ Hcreate). unfold createComments.
  destruct (createComments_loop_sent id (store.Comments pr) [] st1)
    as (top & Htop & Hshape).
  destruct (createComments_loop server Sprintf_comment c id (store.Comments pr)
              [] st1) as [[e|ids] st2] eqn:Hloop; simpl in Htop, Hshape.
  { rewrite (bind_inl _ _ _ _ _ Hloop). eexists (_ :: top). simpl.
    rewrite Htop. simpl. rewrite <- app_assoc.
    split; [reflexivity|]. split; [by eexists _, _|]. by right. }
  rewrite (bind_inr _ _ _ _ _ Hloop).
  destruct (createReviewComments_sent id pr st2)
    as (reviews & threads & Hperm & Hthreads & Hrest).
  eexists ((_ :: top) ++ threads). rewrite Hthreads, Htop. simpl.
  rewrite <- !app_assoc. simpl.
  split; [reflexivity|]. split; [by eexists _, _|].
  destruct Hshape as [Hreq Hall].
  destruct (createReviewComments _ _ _ _ _ _ _ _).1 as [e|[]].
  - right. apply Exists_app. by right.
  - destruct Hrest as [Hrest Hall']. exists reviews. split; [done|].
    by exists id, top, threads.
Qed.

Lemma migrate_body_sent prId pr st :
  (migrate_body server iteration Sprintf_comment Sprintf_review
     Sprintf_review_comment c prId pr st).1 = inr tt
  ∧ ∃ seg,
      sent (migrate_body server iteration Sprintf_comment Sprintf_review
              Sprintf_review_comment c prId pr st).2 = sent st ++ seg
      ∧ segment_of Sprintf_comment Sprintf_review Sprintf_review_comment c
          (prId, pr) seg.
Proof.
  unfold migrate_body, segment_of. simpl.
  destruct (decide (pr_State (store.PullRequest_of pr) = "OPEN")) as [Hopen|Hclosed].
  - destruct (migratePR_sent prId pr st) as (seg & Hsent & Hhead & Hshape).
    destruct (migratePR _ _ _ _ _ _ _ _ _) as [res st']. simpl in *.
    split; [done|]. exists seg. split; [done|]. split; [done|].
    intros Hall. destruct res as [e|[]]; [|done].
    exfalso. by eapply answered_not_unanswered.
  - split; [done|]. exists []. by rewrite app_nil_r.
Qed.

Lemma migrate_range_sent (prs : list (Z * store.PullRequest)) st :
  ∃ segs,
    sent (range prs (fun '(prId, pr) =>
            migrate_body server iteration Sprintf_comment Sprintf_review
              Sprintf_review_comment c prId pr) st).2 = sent st ++ concat segs
    ∧ Forall2 (segment_of Sprintf_comment Sprintf_review Sprintf_review_comment c)
        prs segs.
Proof.
  revert st. induction prs as [|[prId pr] rest IH]; intros st.
  - exists []. simpl. rewrite app_nil_r. by split.
  - destruct (migrate_body_sent prId pr st) as (Hres & seg & Hsent & Hseg).
    destruct (migrate_body _ _ _ _ _ _ prId pr st) as [res st1] eqn:Hbody.
    simpl in Hres, Hsent. subst res.
    rewrite (range_cons_inr (prId, pr) rest _ st st1) by exact Hbody.
    destruct (IH st1) as (segs & Hsegs & Hall).
    exists (seg :: segs). rewrite Hsegs, Hsent. simpl. rewrite <- app_assoc.
    split; [done|]. by constructor.
Qed.

(** C9.  The bridge: pull requests that are not open get no request; for
    each open pull request the pull request is created first, and when every
    request is answered its top-level comments follow in order, then each
    review as a comment of its own followed at once by the review's
    comments, sent as children of the comment created for that review.  The
    pull requests and the reviews are taken in the order in which Go visits
    the two maps. *)
Theorem C9_bridge_order (m : store.Mem) st :
  ∃ xs,
    sent (migrate server iteration Sprintf_comment Sprintf_review
            Sprintf_review_comment c m st).2 = sent st ++ xs
    ∧ migration_of Sprintf_comment Sprintf_review Sprintf_review_comment c m xs.
Proof.
  unfold migrate, migration_of.
  destruct (store.repo_at m (GithubRepoOwner c) (GithubRepoName c)) as [repo|].
  - destruct (entries_visit_all (store.PRs repo) st) as (prs & Hprs & Hperm).
    rewrite (bind_inr _ _ _ _ _ Hprs).
    destruct (migrate_range_sent prs
                {| sent := sent st; ranged := Datatypes.S (ranged st) |})
      as (segs & Hsent & Hsegs).
    exists (concat segs). split; [done|]. by exists prs, segs.
  - exists []. by rewrite app_nil_r.
Qed.

End bridge_order.
End bridge_order.

(** ** The theorems at work on the concrete repositories *)
Module cases.
Import github runs scenario.

(** The server delivers one more page of comments for issue #1. *)
Lemma issue1_pages :
  delivers (S:=store.Mem)
    (fun cursor =>
       query (client "foo" []) (QIssueComments (issue_Id issue1) issueCommentsPage
                                  cursor))
    (PageInfo_of (issue_Comments issue1)) [[c3]].
Proof.
  apply (delivers_next _ _ (QIssueComments "I_1" 10 "A") page2); [done|done|].
  by apply delivers_last.
Qed.

Lemma C1_walk_visits_every_page_witness :
  out (downloadIssueComments (client "foo" []) 1 "foo" "bar" issue1 []
         NewMemDownloader) = Ret tt
  ∧ saves (emitted (downloadIssueComments (client "foo" []) 1 "foo" "bar" issue1 []
                      NewMemDownloader))
    = [CSaveIssueComment "foo" "bar" 1 c1; CSaveIssueComment "foo" "bar" 1 c2;
       CSaveIssueComment "foo" "bar" 1 c3]
  ∧ length (saves (emitted (downloadIssueComments (client "foo" []) 1 "foo" "bar"
                              issue1 [] NewMemDownloader))) = 3%nat.
Proof.
  refine (proj1 (walks.C1_walk_visits_every_page 1%nat (client "foo" [])
                   "foo" "bar" [] NewMemDownloader)
            issue1 [[c3]] issue1_pages _ _).
  - simpl. lia.
  - reflexivity.
Defined.

Lemma C4_no_next_page_no_fetch_witness :
  downloadPullRequestReviews (client "foo" []) 1 "foo" "bar" pr42 [] NewMemDownloader
  = mkRun (Ret tt) NewMemDownloader []
  ∧ Forall (fun ev => review_related ev = false)
      (emitted (downloadPullRequests_process (client "foo" []) 1 "foo" "bar" pr42 []
                  NewMemDownloader)).
Proof.
  destruct (last_page.C4_no_next_page_no_fetch (client "foo" []) 1%nat
              "foo" "bar" [] NewMemDownloader)
    as (_ & _ & _ & _ & _ & _ & _ & _ & _ & _ & _ & _ & Hpr).
  exact (Hpr pr42 eq_refl eq_refl).
Defined.

(** Pull request #42, processed in the store that holds foo/bar. *)
Lemma C5_resolution_order_witness :
  pull_request_resolved
    (downloadPullRequestAssignees (client "foo" []) 1 pr42)
    (downloadPullRequestLabels (client "foo" []) 1 pr42)
    "foo" "bar" pr42 []
    (store.SaveRepository (fields "foo") ["go"] NewMemDownloader).1
    (emitted (downloadPullRequests_process (client "foo" []) 1 "foo" "bar" pr42 []
                (store.SaveRepository (fields "foo") ["go"] NewMemDownloader).1)).
Proof.
  refine (proj1 (proj2 (resolution.C5_resolution_order (client "foo" []) 1%nat
                          "foo" "bar" []
                          (store.SaveRepository (fields "foo") ["go"]
                             NewMemDownloader).1))
            pr42 _).
  vm_compute. reflexivity.
Defined.



Lemma C8_issues_printed_pull_requests_stored_witness :
  store.repo_at (store.SaveRepository (fields "foo") ["go"] NewMemDownloader).1
    "foo" "bar"
  = Some {| store.RepositoryFields_of := fields "foo";
            store.Topics := ["go"];
            store.PRs := gomap.make |}.
Proof.
  refine (proj1 (proj2 (proj2 (mem.C8_issues_printed_pull_requests_stored
                                 NewMemDownloader)))
            (fields "foo") ["go"]
            (store.SaveRepository (fields "foo") ["go"] NewMemDownloader).1 _).
  reflexivity.
Defined.

Lemma C9_bridge_order_witness :
  ∃ xs,
    migrate.sent
      (migrate.migrate numbering by_key ic_Body
         (fun r => rev_Body (store.PullRequestReview_of r)) rc_Body config
         downloaded start).2 = [] ++ xs
    ∧ bridge.migration_of ic_Body
        (fun r => rev_Body (store.PullRequestReview_of r)) rc_Body config
        downloaded xs.
Proof.
  refine (bridge_order.C9_bridge_order numbering by_key ic_Body
            (fun r => rev_Body (store.PullRequestReview_of r)) rc_Body config
            _ downloaded start).
  intros n V g. reflexivity.
Defined.

Lemma C10_missing_parent_not_found_witness :
  (store.SavePullRequestComment "foo" "bar" 7 c2 NewMemDownloader).2 = Fail NotFound
  ∧ store.Repos (store.SavePullRequestComment "foo" "bar" 7 c2 NewMemDownloader).1
    = store.Repos NewMemDownloader.
Proof.
  refine (proj1 (proj2 (mem.C10_missing_parent_not_found NewMemDownloader
                          "foo" "bar")) 7 c2 _).
  reflexivity.
Defined.

End cases.

(** ** Laws of the in-memory store *)
Module store_laws.
Import github runs laws.

Section effects.
Implicit Types (m : store.Mem) (owner name : string) (k id : Z).

Lemma repo_at_Some_maps m owner name r :
  store.repo_at m owner name = Some r →
  ∃ repos g, store.Repos m = Some repos ∧ repos !! owner = Some (Some g)
             ∧ g !! name = Some r.
Proof.
  unfold store.repo_at, store.owner_map, gomap.get.
  destruct (store.Repos m) as [repos|]; [|done].
  destruct (repos !! owner) as [[g|]|] eqn:Hg; simpl; [|done..].
  intros Hr. by exists repos, g.
Qed.

(** The assignment [m.Repos[owner][name] = r] where the inner map is the
    one [Repos] holds for [owner]. *)
Lemma store_repo_effect m owner name r :
  (store.store_repo m (store.owner_map m owner) owner name r).2 = OK →
  updated m (store.store_repo m (store.owner_map m owner) owner name r).1
    owner name r.
Proof.
  unfold store.store_repo.
  destruct (store.owner_map m owner) as [g|] eqn:Hg; simpl; [|done].
  destruct (store.Repos m) as [repos|] eqn:Hm; simpl; [|done].
  intros _ o n. unfold store.repo_at at 1. unfold store.owner_map at 1. simpl.
  destruct (decide (o = owner)) as [->|Ho].
  - rewrite lookup_insert_eq. simpl.
    destruct (decide (n = name)) as [->|Hn].
    + rewrite lookup_insert_eq. by rewrite decide_True.
    + rewrite lookup_insert_ne by done. rewrite decide_False by tauto.
      unfold store.repo_at. by rewrite Hg.
  - rewrite lookup_insert_ne by done. rewrite decide_False by tauto.
    unfold store.repo_at, store.owner_map. by rewrite Hm.
Qed.

Lemma store_repo_failed m inner owner name r :
  (store.store_repo m inner owner name r).2 ≠ OK →
  store.store_repo m inner owner name r = (m, Panicked).
Proof.
  unfold store.store_repo.
  destruct inner as [g|]; simpl; [|done].
  by destruct (store.Repos m).
Qed.

Lemma store_repo_stdout m inner owner name r :
  store.Stdout (store.store_repo m inner owner name r).1 = store.Stdout m.
Proof.
  unfold store.store_repo.
  destruct inner as [g|]; simpl; [|done].
  by destruct (store.Repos m).
Qed.

Lemma store_pr_stdout m owner name k p :
  store.Stdout (store.store_pr m owner name k p).1 = store.Stdout m.
Proof.
  unfold store.store_pr.
  destruct (store.repo_at m owner name) as [r|]; [|done].
  destruct (store.PRs r) as [prs|]; simpl; [|done].
  apply store_repo_stdout.
Qed.

Lemma store_pr_failed m owner name k p :
  (store.store_pr m owner name k p).2 ≠ OK →
  store.store_pr m owner name k p = (m, Panicked).
Proof.
  unfold store.store_pr.
  destruct (store.repo_at m owner name) as [r|]; [|done].
  destruct (store.PRs r) as [prs|]; simpl; [|done].
  apply store_repo_failed.
Qed.

Lemma store_pr_OK m owner name k p r prs :
  store.repo_at m owner name = Some r → store.PRs r = Some prs →
  (store.store_pr m owner name k p).2 = OK.
Proof.
  intros Hr Hprs. unfold store.store_pr. rewrite Hr, Hprs. simpl.
  destruct (repo_at_Some_maps _ _ _ _ Hr) as (repos & g & Hm & Hg & _).
  assert (store.owner_map m owner = Some g) as ->.
  { unfold store.owner_map. rewrite Hm. exact (f_equal (default None) Hg). }
  unfold store.store_repo. simpl. by rewrite Hm.
Qed.

Lemma put_pr_updated_pr m m' owner name k p :
  put_pr m m' owner name k p → updated_pr m m' owner name k p.
Proof.
  intros (r & prs & Hr & Hprs & Hup). split.
  - intros o n. rewrite Hup. destruct (decide (o = owner ∧ n = name)) as [[-> ->]|Hne].
    + by rewrite Hr.
    + done.
  - intros o n k'. unfold store.pr_at, store.prs_at. rewrite Hup.
    destruct (decide (o = owner ∧ n = name)) as [[-> ->]|Hne].
    + rewrite Hr, Hprs. simpl.
      destruct (decide (k' = k)) as [->|Hk].
      * rewrite lookup_insert_eq. by rewrite decide_True.
      * rewrite lookup_insert_ne by done. by rewrite decide_False by tauto.
    + by rewrite decide_False by tauto.
Qed.

Lemma store_pr_effect m owner name k p :
  (store.store_pr m owner name k p).2 = OK →
  put_pr m (store.store_pr m owner name k p).1 owner name k p.
Proof.
  intros HOK. unfold store.store_pr in *.
  destruct (store.repo_at m owner name) as [r|] eqn:Hr; [|done].
  destruct (store.PRs r) as [prs|] eqn:Hprs; simpl in *; [|done].
  exists r, prs. repeat (split; [done|]).
  by apply store_repo_effect.
Qed.

Lemma put_pr_trans m m1 m2 owner name k p1 p2 :
  put_pr m m1 owner name k p1 → put_pr m1 m2 owner name k p2 →
  put_pr m m2 owner name k p2.
Proof.
  intros (r & prs & Hr & Hprs & Hup1) (r1 & prs1 & Hr1 & Hprs1 & Hup2).
  rewrite Hup1, decide_True in Hr1 by done. injection Hr1 as <-.
  simpl in Hprs1. injection Hprs1 as <-.
  exists r, prs. repeat (split; [done|]).
  intros o n. rewrite Hup2, Hup1. unfold with_prs. simpl.
  rewrite insert_insert_eq. by destruct (decide (o = owner ∧ n = name)).
Qed.

Lemma put_pr_pr_at m m' owner name k p :
  put_pr m m' owner name k p → store.pr_at m' owner name k = Some p.
Proof.
  intros (r & prs & _ & _ & Hup). unfold store.pr_at, store.prs_at.
  rewrite Hup, decide_True by done. simpl. by rewrite lookup_insert_eq.
Qed.

Lemma pr_at_Some_repo m owner name k p :
  store.pr_at m owner name k = Some p →
  ∃ r prs, store.repo_at m owner name = Some r ∧ store.PRs r = Some prs
           ∧ prs !! k = Some p.
Proof.
  unfold store.pr_at, store.prs_at.
  destruct (store.repo_at m owner name) as [r|]; [|done].
  destruct (store.PRs r) as [prs|] eqn:Hprs; simpl; [|done].
  intros Hp. by exists r, prs.
Qed.

Lemma review_at_Some_pr m owner name k id rv :
  store.review_at m owner name k id = Some rv →
  ∃ p revs, store.pr_at m owner name k = Some p ∧ store.Reviews p = Some revs
            ∧ revs !! id = Some rv.
Proof.
  unfold store.review_at, store.reviews_at.
  destruct (store.pr_at m owner name k) as [p|]; [|done].
  destruct (store.Reviews p) as [revs|] eqn:Hrevs; simpl; [|done].
  intros Hrv. by exists p, revs.
Qed.

Lemma updated_pr_review_at m m' owner name k p :
  updated_pr m m' owner name k p →
  ∀ o n k' id,
    store.review_at m' o n k' id
    = if decide (o = owner ∧ n = name ∧ k' = k) then gomap.get (store.Reviews p) id
      else store.review_at m o n k' id.
Proof.
  intros [_ Hpr] o n k' id. unfold store.review_at, store.reviews_at.
  rewrite Hpr. by destruct (decide (o = owner ∧ n = name ∧ k' = k)).
Qed.

(** *** What each of the five methods that write does *)

Lemma SaveRepository_effect m repository topics :
  (store.SaveRepository repository topics m).2 = OK →
  updated m (store.SaveRepository repository topics m).1
    (Login (repo_Owner repository)) (repo_Name repository)
    {| store.RepositoryFields_of := repository; store.Topics := topics;
       store.PRs := gomap.make |}.
Proof.
  unfold store.SaveRepository.
  set (line := store.mkPrintf _ _). set (m1 := store.print m line).
  set (owner := Login (repo_Owner repository)).
  destruct (gomap.get (store.Repos m1) owner) as [inner|] eqn:Hget.
  - assert (store.owner_map m1 owner = inner) as <-
      by (unfold store.owner_map; by rewrite Hget).
    intros HOK. by apply store_repo_effect in HOK.
  - destruct (store.Repos m1) as [repos|] eqn:Hm; [|done].
    simpl (gomap.set _ _ _). cbv beta iota.
    set (m2 := store.with_Repos m1 (Some (<[owner := gomap.make]> repos))).
    assert (store.owner_map m2 owner = gomap.make) as Hmake
      by (unfold store.owner_map; simpl; by rewrite lookup_insert_eq).
    rewrite <- Hmake. intros HOK. apply store_repo_effect in HOK.
    intros o n. rewrite HOK.
    destruct (decide (o = owner ∧ n = repo_Name repository)); [done|].
    unfold store.repo_at, store.owner_map. simpl.
    change (store.Repos m) with (store.Repos m1). rewrite Hm. simpl.
    destruct (decide (o = owner)) as [->|Ho].
    + rewrite lookup_insert_eq. simpl in Hget. rewrite Hget. done.
    + by rewrite lookup_insert_ne.
Qed.

Lemma SaveRepository_failed m repository topics :
  (store.SaveRepository repository topics m).2 ≠ OK →
  store.Repos (store.SaveRepository repository topics m).1 = store.Repos m.
Proof.
  unfold store.SaveRepository.
  set (line := store.mkPrintf _ _). set (m1 := store.print m line).
  set (owner := Login (repo_Owner repository)).
  destruct (gomap.get (store.Repos m1) owner) as [inner|] eqn:Hget.
  - intros Hne. by rewrite (store_repo_failed _ _ _ _ _ Hne).
  - destruct (store.Repos m1) as [repos|] eqn:Hm; [|done].
    simpl (gomap.set _ _ _). cbv beta iota.
    intros Hne. exfalso. apply Hne. by unfold store.store_repo.
Qed.

Lemma SavePullRequest_effect m owner name pr assignees labels :
  (store.SavePullRequest owner name pr assignees labels m).2 = OK →
  put_pr m (store.SavePullRequest owner name pr assignees labels m).1
    owner name (pr_Number pr)
    {| store.PullRequest_of := pr; store.Assignees := assignees;
       store.Labels := labels; store.Comments := [];
       store.Reviews := gomap.make |}.
Proof.
  unfold store.SavePullRequest. set (line := store.mkPrintf _ _).
  destruct (store.repo_at (store.print m line) owner name); [|done].
  intros HOK. by apply store_pr_effect in HOK.
Qed.

Lemma SavePullRequestComment_effect m owner name k comment :
  (store.SavePullRequestComment owner name k comment m).2 = OK →
  ∃ p, store.pr_at m owner name k = Some p
       ∧ put_pr m (store.SavePullRequestComment owner name k comment m).1
           owner name k (with_comments p [comment]).
Proof.
  unfold store.SavePullRequestComment. set (line := store.mkPrintf _ _).
  rewrite mem.pr_at_print.
  destruct (store.pr_at m owner name k) as [p|]; [|done].
  intros HOK. exists p. split; [done|]. by apply store_pr_effect in HOK.
Qed.

Lemma SavePullRequestReview_effect m owner name k review :
  (store.SavePullRequestReview owner name k review m).2 = OK →
  ∃ p revs, store.pr_at m owner name k = Some p ∧ store.Reviews p = Some revs
    ∧ put_pr m (store.SavePullRequestReview owner name k review m).1
        owner name k
        (with_reviews p
           (<[rev_DatabaseId review :=
                {| store.PullRequestReview_of := review;
                   store.review_Comments := [] |}]> revs)).
Proof.
  unfold store.SavePullRequestReview. set (line := store.mkPrintf _ _).
  rewrite mem.pr_at_print.
  destruct (store.pr_at m owner name k) as [p|]; [|done].
  destruct (store.Reviews p) as [revs|] eqn:Hrevs; simpl; [|done].
  intros HOK. exists p, revs. split; [done|]. split; [done|].
  by apply store_pr_effect in HOK.
Qed.

Lemma SavePullRequestReviewComment_effect m owner name k id comment :
  (store.SavePullRequestReviewComment owner name k id comment m).2 = OK →
  ∃ p revs rv, store.pr_at m owner name k = Some p
    ∧ store.Reviews p = Some revs ∧ revs !! id = Some rv
    ∧ put_pr m (store.SavePullRequestReviewComment owner name k id comment m).1
        owner name k
        (with_reviews p (<[id := with_review_comments rv [comment]]> revs)).
Proof.
  unfold store.SavePullRequestReviewComment. set (line := store.mkPrintf _ _).
  rewrite mem.review_at_print, mem.pr_at_print.
  destruct (store.review_at m owner name k id) as [rv|] eqn:Hrv; [|done].
  destruct (review_at_Some_pr _ _ _ _ _ _ Hrv) as (p & revs & Hp & Hrevs & Hid).
  rewrite Hp, Hrevs. simpl.
  intros HOK. exists p, revs, rv. repeat (split; [done|]).
  by apply store_pr_effect in HOK.
Qed.

(** When the four methods that look a parent up return [nil]. *)
Lemma SavePullRequest_OK m owner name pr assignees labels r prs :
  store.repo_at m owner name = Some r → store.PRs r = Some prs →
  (store.SavePullRequest owner name pr assignees labels m).2 = OK.
Proof.
  intros Hr Hprs. unfold store.SavePullRequest. set (line := store.mkPrintf _ _).
  rewrite mem.repo_at_print, Hr. by eapply store_pr_OK.
Qed.

Lemma SavePullRequestComment_OK m owner name k comment p :
  store.pr_at m owner name k = Some p →
  (store.SavePullRequestComment owner name k comment m).2 = OK.
Proof.
  intros Hp. unfold store.SavePullRequestComment. set (line := store.mkPrintf _ _).
  rewrite mem.pr_at_print, Hp.
  destruct (pr_at_Some_repo _ _ _ _ _ Hp) as (r & prs & Hr & Hprs & _).
  by eapply store_pr_OK.
Qed.

Lemma SavePullRequestReview_OK m owner name k review p revs :
  store.pr_at m owner name k = Some p → store.Reviews p = Some revs →
  (store.SavePullRequestReview owner name k review m).2 = OK.
Proof.
  intros Hp Hrevs. unfold store.SavePullRequestReview.
  set (line := store.mkPrintf _ _). rewrite mem.pr_at_print, Hp, Hrevs. simpl.
  destruct (pr_at_Some_repo _ _ _ _ _ Hp) as (r & prs & Hr & Hprs & _).
  by eapply store_pr_OK.
Qed.

Lemma SavePullRequestReviewComment_OK m owner name k id comment rv :
  store.review_at m owner name k id = Some rv →
  (store.SavePullRequestReviewComment owner name k id comment m).2 = OK.
Proof.
  intros Hrv. unfold store.SavePullRequestReviewComment.
  set (line := store.mkPrintf _ _). rewrite mem.review_at_print, mem.pr_at_print, Hrv.
  destruct (review_at_Some_pr _ _ _ _ _ _ Hrv) as (p & revs & Hp & Hrevs & _).
  rewrite Hp, Hrevs. simpl.
  destruct (pr_at_Some_repo _ _ _ _ _ Hp) as (r & prs & Hr & Hprs & _).
  by eapply store_pr_OK.
Qed.

(** Records that are put back as they were. *)
Lemma with_prs_same (r : store.Repo) prs :
  store.PRs r = Some prs → with_prs r prs = r.
Proof. destruct r. simpl. by intros ->. Qed.

Lemma with_reviews_same (p : store.PullRequest) revs :
  store.Reviews p = Some revs → with_reviews p revs = p.
Proof. destruct p. simpl. by intros ->. Qed.

Lemma with_comments_nil (p : store.PullRequest) : with_comments p [] = p.
Proof. destruct p. unfold with_comments. simpl. by rewrite app_nil_r. Qed.

Lemma with_comments_app (p : store.PullRequest) cs cs' :
  with_comments (with_comments p cs) cs' = with_comments p (cs ++ cs').
Proof. unfold with_comments. simpl. by rewrite app_assoc. Qed.

Lemma with_review_comments_nil (rv : store.PullRequestReview) :
  with_review_comments rv [] = rv.
Proof. destruct rv. unfold with_review_comments. simpl. by rewrite app_nil_r. Qed.

Lemma with_review_comments_app (rv : store.PullRequestReview) cs cs' :
  with_review_comments (with_review_comments rv cs) cs'
  = with_review_comments rv (cs ++ cs').
Proof. unfold with_review_comments. simpl. by rewrite app_assoc. Qed.

Lemma updated_refl m owner name r :
  store.repo_at m owner name = Some r → updated m m owner name r.
Proof.
  intros Hr o n. destruct (decide (o = owner ∧ n = name)) as [[-> ->]|]; done.
Qed.

Lemma updated_trans m m1 m2 owner name r1 r2 :
  updated m m1 owner name r1 → updated m1 m2 owner name r2 →
  updated m m2 owner name r2.
Proof.
  intros H1 H2 o n. rewrite H2, H1.
  by destruct (decide (o = owner ∧ n = name)).
Qed.

Lemma put_pr_refl m owner name k p :
  store.pr_at m owner name k = Some p → put_pr m m owner name k p.
Proof.
  intros Hp. destruct (pr_at_Some_repo _ _ _ _ _ Hp) as (r & prs & Hr & Hprs & Hk).
  exists r, prs. repeat (split; [done|]).
  rewrite insert_id by done. rewrite with_prs_same by done.
  by apply updated_refl.
Qed.

(** A call that does not return [nil] leaves [Repos] as it was. *)
Lemma failed_Repos m (c : Call) :
  (invoke c m).2 ≠ OK → store.Repos (invoke c m).1 = store.Repos m.
Proof.
  destruct c; simpl; try done.
  - apply SaveRepository_failed.
  - unfold store.SavePullRequest. set (line := store.mkPrintf _ _).
    destruct (store.repo_at (store.print m line) owner name); [|done].
    intros Hne. by rewrite (store_pr_failed _ _ _ _ _ Hne).
  - unfold store.SavePullRequestComment. set (line := store.mkPrintf _ _).
    destruct (store.pr_at (store.print m line) owner name pullRequestNumber);
      [|done].
    intros Hne. by rewrite (store_pr_failed _ _ _ _ _ Hne).
  - unfold store.SavePullRequestReview. set (line := store.mkPrintf _ _).
    destruct (store.pr_at (store.print m line) owner name pullRequestNumber)
      as [tmp|]; [|done].
    destruct (gomap.set _ _ _); [|done].
    intros Hne. by rewrite (store_pr_failed _ _ _ _ _ Hne).
  - unfold store.SavePullRequestReviewComment. set (line := store.mkPrintf _ _).
    destruct (store.review_at (store.print m line) owner name pullRequestNumber
                pullRequestReviewId); [|done].
    destruct (store.pr_at (store.print m line) owner name pullRequestNumber)
      as [tmp|]; [|done].
    destruct (gomap.set _ _ _); [|done].
    intros Hne. by rewrite (store_pr_failed _ _ _ _ _ Hne).
Qed.

Lemma same_Repos_unchanged m m' :
  store.Repos m' = store.Repos m → unchanged m m'.
Proof.
  intros HR o n. unfold store.repo_at, store.owner_map. by rewrite HR.
Qed.

Lemma unchanged_pr_at m m' :
  unchanged m m' → ∀ o n k, store.pr_at m' o n k = store.pr_at m o n k.
Proof. intros Hun o n k. unfold store.pr_at, store.prs_at. by rewrite Hun. Qed.

Lemma unchanged_review_at m m' :
  unchanged m m' →
  ∀ o n k id, store.review_at m' o n k id = store.review_at m o n k id.
Proof.
  intros Hun o n k id. unfold store.review_at, store.reviews_at.
  by rewrite (unchanged_pr_at _ _ Hun).
Qed.

Lemma review_at_of_pr m owner name k id p :
  store.pr_at m owner name k = Some p →
  store.review_at m owner name k id = gomap.get (store.Reviews p) id.
Proof. intros Hp. unfold store.review_at, store.reviews_at. by rewrite Hp. Qed.

Lemma unchanged_framed c m m' : unchanged m m' → framed c m m'.
Proof.
  intros Hun. split; [|split].
  - intros o n _. by rewrite Hun.
  - intros o n k _ _. by rewrite (unchanged_pr_at _ _ Hun).
  - intros o n k id _ _ _. by rewrite (unchanged_review_at _ _ Hun).
Qed.

Lemma updated_framed c m m' owner name r :
  replaces c = Some (owner, name) → updated m m' owner name r → framed c m m'.
Proof.
  intros Hc Hup.
  assert (∀ o n, replaces c ≠ Some (o, n) →
                 store.repo_at m' o n = store.repo_at m o n) as Hother.
  { intros o n Hne. rewrite Hup. rewrite decide_False; [done|].
    intros [-> ->]. by apply Hne. }
  split; [|split].
  - intros o n Hne. by rewrite Hother.
  - intros o n k Hne _. unfold store.pr_at, store.prs_at. by rewrite Hother.
  - intros o n k id Hne _ _.
    unfold store.review_at, store.reviews_at, store.pr_at, store.prs_at.
    by rewrite Hother.
Qed.

(** A call that put [p'] where [p] was, under [owner], [name] and [k]. *)
Lemma updated_pr_framed c m m' owner name k p p' :
  replaces c = None →
  store.pr_at m owner name k = Some p →
  updated_pr m m' owner name k p' →
  body_of p' = body_of p →
  (comments_on c ≠ Some (owner, name, k) → store.Comments p' = store.Comments p) →
  (∀ id, writes_review c ≠ Some (owner, name, k, id) →
         gomap.get (store.Reviews p') id = gomap.get (store.Reviews p) id) →
  framed c m m'.
Proof.
  intros Hc Hp Hup Hbody Hcomments Hreviews.
  pose proof (updated_pr_review_at _ _ _ _ _ _ Hup) as Hrv.
  destruct Hup as [Hhead Hpr].
  split; [|split].
  - intros o n _. apply Hhead.
  - intros o n k' _ _. rewrite Hpr.
    destruct (decide (o = owner ∧ n = name ∧ k' = k)) as [(-> & -> & ->)|Hne];
      [|done].
    rewrite Hp. simpl. split; [by rewrite Hbody|].
    intros Hcm. by rewrite Hcomments.
  - intros o n k' id _ _ Hw. rewrite Hrv.
    destruct (decide (o = owner ∧ n = name ∧ k' = k)) as [(-> & -> & ->)|Hne];
      [|done].
    rewrite (review_at_of_pr _ _ _ _ _ _ Hp). by apply Hreviews.
Qed.

(** A call that is not [SaveRepository] for [o]/[n] leaves what
    [SaveRepository] set there. *)
Lemma head_kept m (c : Call) o n :
  replaces c ≠ Some (o, n) →
  head_of <$> store.repo_at (invoke c m).1 o n = head_of <$> store.repo_at m o n.
Proof.
  intros Hne.
  assert ((invoke c m).2 = OK ∨ (invoke c m).2 ≠ OK) as [HOK|Hfailed]
    by (destruct ((invoke c m).2); auto).
  2:{ by rewrite (same_Repos_unchanged _ _ (failed_Repos _ _ Hfailed)). }
  destruct c; simpl in *; try done.
  - apply SaveRepository_effect in HOK. rewrite HOK.
    rewrite decide_False; [done|]. intros [-> ->]. by apply Hne.
  - apply SavePullRequest_effect, put_pr_updated_pr in HOK. apply HOK.
  - apply SavePullRequestComment_effect in HOK as (p & _ & Hup).
    apply put_pr_updated_pr in Hup. apply Hup.
  - apply SavePullRequestReview_effect in HOK as (p & revs & _ & _ & Hup).
    apply put_pr_updated_pr in Hup. apply Hup.
  - apply SavePullRequestReviewComment_effect in HOK
      as (p & revs & rv & _ & _ & _ & Hup).
    apply put_pr_updated_pr in Hup. apply Hup.
Qed.

Lemma absent_kept m (c : Call) o n :
  replaces c ≠ Some (o, n) →
  store.repo_at m o n = None → store.repo_at (invoke c m).1 o n = None.
Proof.
  intros Hne Hm. pose proof (head_kept m c o n Hne) as Hhead.
  rewrite Hm in Hhead. by destruct (store.repo_at (invoke c m).1 o n).
Qed.

End effects.

(** X1.  What a call into the in-memory store leaves alone.  Only
    [SaveRepository] changes which repositories the store holds, their
    fields and their topics, and only under the owner login and name of its
    argument.  Under every other repository, only [SavePullRequest] changes
    which pull requests there are and their data, assignees and labels, and
    only under its own number; only [SavePullRequestComment] changes the
    comments of another pull request than that, and only of its own; and a
    review is changed only by [SavePullRequestReview] and
    [SavePullRequestReviewComment] under its own id.  This holds for every
    store and every result of the call, errors and panics included. *)
Theorem Mem_calls_frame (m : store.Mem) (c : Call) :
  (∀ o n, replaces c ≠ Some (o, n) →
     head_of <$> store.repo_at (invoke c m).1 o n
     = head_of <$> store.repo_at m o n)
  ∧ (∀ o n k, replaces c ≠ Some (o, n) → replaces_pr c ≠ Some (o, n, k) →
       body_of <$> store.pr_at (invoke c m).1 o n k
       = body_of <$> store.pr_at m o n k
       ∧ (comments_on c ≠ Some (o, n, k) →
          store.Comments <$> store.pr_at (invoke c m).1 o n k
          = store.Comments <$> store.pr_at m o n k))
  ∧ (∀ o n k id, replaces c ≠ Some (o, n) → replaces_pr c ≠ Some (o, n, k) →
       writes_review c ≠ Some (o, n, k, id) →
       store.review_at (invoke c m).1 o n k id = store.review_at m o n k id).
Proof.
  change (framed c m (invoke c m).1).
  assert ((invoke c m).2 = OK ∨ (invoke c m).2 ≠ OK) as [HOK|Hfailed]
    by (destruct ((invoke c m).2); auto).
  2:{ by apply unchanged_framed, same_Repos_unchanged, failed_Repos. }
  destruct c; simpl in *;
    try (by apply unchanged_framed, same_Repos_unchanged).
  - eapply updated_framed; [done|]. by apply SaveRepository_effect.
  - apply SavePullRequest_effect, put_pr_updated_pr in HOK.
    split; [|split].
    + intros o n _. apply HOK.
    + intros o n k _ Hne. destruct HOK as [_ Hpr]. rewrite Hpr.
      rewrite decide_False; [done|]. intros (-> & -> & ->). by apply Hne.
    + intros o n k id _ Hne _.
      rewrite (updated_pr_review_at _ _ _ _ _ _ HOK).
      rewrite decide_False; [done|]. intros (-> & -> & ->). by apply Hne.
  - apply SavePullRequestComment_effect in HOK as (p & Hp & Hup).
    apply put_pr_updated_pr in Hup.
    eapply updated_pr_framed; [done|exact Hp|exact Hup|done| |done].
    intros Hne. by destruct Hne.
  - apply SavePullRequestReview_effect in HOK as (p & revs & Hp & Hrevs & Hup).
    apply put_pr_updated_pr in Hup.
    eapply updated_pr_framed; [done|exact Hp|exact Hup|done|done|].
    intros id Hne. rewrite Hrevs. simpl.
    rewrite lookup_insert_ne; [done|]. intros <-. by apply Hne.
  - apply SavePullRequestReviewComment_effect in HOK
      as (p & revs & rv & Hp & Hrevs & Hrv & Hup).
    apply put_pr_updated_pr in Hup.
    eapply updated_pr_framed; [done|exact Hp|exact Hup|done|done|].
    intros id Hne. rewrite Hrevs. simpl.
    rewrite lookup_insert_ne; [done|]. intros <-. by apply Hne.
Qed.

(** X2.  Each Save method of the in-memory store prints exactly one line,
    also when it returns [NotFound] or panics: the line is printed before
    anything is looked up.  [Version], [Begin], [Commit], [Rollback],
    [SetActiveVersion] and [Cleanup] return [nil] and change nothing, the
    output included. *)
Theorem Mem_prints_one_line_per_save (m : store.Mem) (c : Call) :
  if is_save c
  then ∃ line, store.Stdout (invoke c m).1 = store.Stdout m ++ [line]
  else invoke c m = (m, OK).
Proof.
  destruct c; simpl; try done; try (by eexists).
  - unfold store.SaveRepository. set (line := store.mkPrintf _ _).
    exists line.
    destruct (gomap.get _ _) as [inner|]; [by rewrite store_repo_stdout|].
    destruct (gomap.set _ _ _) as [repos'|]; [|done].
    by rewrite store_repo_stdout.
  - unfold store.SavePullRequest. set (line := store.mkPrintf _ _).
    exists line. destruct (store.repo_at _ _ _); [|done].
    by rewrite store_pr_stdout.
  - unfold store.SavePullRequestComment. set (line := store.mkPrintf _ _).
    exists line. destruct (store.pr_at _ _ _ _); [|done].
    by rewrite store_pr_stdout.
  - unfold store.SavePullRequestReview. set (line := store.mkPrintf _ _).
    exists line. destruct (store.pr_at _ _ _ _); [|done].
    destruct (gomap.set _ _ _); [|done]. by rewrite store_pr_stdout.
  - unfold store.SavePullRequestReviewComment. set (line := store.mkPrintf _ _).
    exists line. destruct (store.review_at _ _ _ _ _); [|done].
    destruct (store.pr_at _ _ _ _); [|done].
    destruct (gomap.set _ _ _); [|done]. by rewrite store_pr_stdout.
Qed.

(** X3.  On a store without nil maps the result of every Save method is
    decided by the lookup of its parent alone: [nil] when the parent is in
    the store, [NotFound] when it is not.  [SaveOrganization], [SaveUser],
    [SaveRepository], [SaveIssue] and [SaveIssueComment] look nothing up and
    always return [nil]. *)
Theorem Mem_save_succeeds_iff_parent_present (m : store.Mem) (c : Call) :
  sound m → is_save c = true →
  (invoke c m).2 = (if parent_present m c then OK else Fail NotFound).
Proof.
  intros Hm Hc. destruct c; try discriminate; simpl; try done.
  - by destruct (mem.SaveRepository_sound m repository topics Hm).
  - unfold store.SavePullRequest. set (line := store.mkPrintf _ _).
    rewrite mem.repo_at_print.
    destruct (store.repo_at m owner name) as [r|] eqn:Hr; [|done]. simpl.
    destruct Hm as (_ & _ & Hsound).
    destruct (Hsound _ _ _ Hr) as (prs & Hprs & _).
    by eapply store_pr_OK.
  - unfold store.SavePullRequestComment. set (line := store.mkPrintf _ _).
    rewrite mem.pr_at_print.
    destruct (store.pr_at m owner name pullRequestNumber) as [p|] eqn:Hp; [|done].
    simpl. destruct (pr_at_Some_repo _ _ _ _ _ Hp) as (r & prs & Hr & Hprs & _).
    by eapply store_pr_OK.
  - unfold store.SavePullRequestReview. set (line := store.mkPrintf _ _).
    rewrite mem.pr_at_print.
    destruct (store.pr_at m owner name pullRequestNumber) as [p|] eqn:Hp; [|done].
    simpl. destruct (pr_at_Some_repo _ _ _ _ _ Hp) as (r & prs & Hr & Hprs & _).
    destruct (mem.sound_pr_at _ _ _ _ _ Hm Hp) as [_ Hrevs].
    destruct (store.Reviews p) as [revs|]; [|done]. simpl.
    by eapply store_pr_OK.
  - unfold store.SavePullRequestReviewComment. set (line := store.mkPrintf _ _).
    rewrite mem.review_at_print, mem.pr_at_print.
    destruct (store.review_at m owner name pullRequestNumber pullRequestReviewId)
      as [rv|] eqn:Hrv; [|done].
    simpl. destruct (review_at_Some_pr _ _ _ _ _ _ Hrv) as (p & revs & Hp & Hrevs & _).
    rewrite Hp, Hrevs. simpl.
    destruct (pr_at_Some_repo _ _ _ _ _ Hp) as (r & prs & Hr & Hprs & _).
    by eapply store_pr_OK.
Qed.

End store_laws.

(** ** Laws of the traversals *)
Module download_laws.
Import github runs run_rules steady laws.

(** *** Who is to blame for an error *)
Section blame.
Context {S : Type} `{storer S}.
Variable client : Client.
Variable fuel : nat.

Lemma blames_weaken {A} strict (m : M S A) : blames true m → blames strict m.
Proof.
  intros Hm h s e He. destruct (Hm h s e He) as (pre & ev & e0 & Hev & Hof & Hw).
  exists pre, ev, e0. repeat split; [done..|].
  destruct Hw as [Hw|[? _]]; [by left|done].
Qed.

Lemma blames_ret {A} strict (a : A) : blames (S:=S) strict (ret a).
Proof. intros h s e He. discriminate. Qed.

Lemma blames_collect {N} strict (name : N → string) acc nodes :
  blames (S:=S) strict (collect name acc nodes).
Proof. apply blames_ret. Qed.

Lemma blames_out_of_fuel {A} strict : blames (S:=S) (A:=A) strict out_of_fuel.
Proof. intros h s e He. discriminate. Qed.

Lemma blames_call c : blames false (call c).
Proof.
  intros h s e. rewrite call_eq. simpl.
  destruct ((invoke c s).2) as [|e'|] eqn:Est; [done| |done].
  intros [= ->]. exists [], (EvCall c (Fail e)), e. repeat split. by right.
Qed.

Lemma blames_query q : blames false (query (S:=S) client q).
Proof.
  intros h s e. unfold query. destruct (client h q) as [e'|r]; [|done].
  simpl. intros [= ->]. exists [], (EvQuery q (Some e)), e. repeat split. by right.
Qed.

Lemma blames_wrap {A} strict format (m : M S A) :
  blames false m → blames strict (wrap format m).
Proof.
  intros Hm. apply blames_weaken. intros h s e.
  rewrite wrap_out, wrap_emitted.
  destruct (out (m h s)) as [a|e'| |] eqn:Eo; [done| |done..].
  intros [= <-]. destruct (Hm h s e' Eo) as (pre & ev & e0 & Hev & Hof & Hw).
  exists pre, ev, e0. repeat split; [done..|]. left.
  destruct Hw as [Hw|[_ ->]]; by constructor.
Qed.

Lemma blames_bind {A B} strict (m : M S A) (k : A → M S B) :
  blames strict m → (∀ a, blames strict (k a)) → blames strict (bind m k).
Proof.
  intros Hm Hk h s e. rewrite bind_emitted. unfold bind.
  destruct (out (m h s)) as [a|e'| |] eqn:Eo; simpl; [| |done..].
  - intros He. destruct (Hk a _ _ e He) as (pre & ev & e0 & Hev & Hof & Hw).
    exists (emitted (m h s) ++ pre), ev, e0. rewrite Hev, app_assoc. by repeat split.
  - intros [= ->]. rewrite app_nil_r. by apply Hm.
Qed.

Lemma blames_range {N} strict (nodes : list N) (body : N → M S unit) :
  (∀ x, blames strict (body x)) → blames strict (range nodes body).
Proof.
  intros Hbody. induction nodes as [|x rest IH]; simpl.
  - apply blames_ret.
  - apply blames_bind; [apply Hbody|]. intros _. apply IH.
Qed.

Lemma blames_pages {N A} strict (fetch : string → M S (Connection N))
    (body : A → list N → M S A) info acc :
  (∀ cursor, blames strict (fetch cursor)) →
  (∀ a nodes, blames strict (body a nodes)) →
  blames strict (pages fuel fetch body info acc).
Proof.
  intros Hfetch Hbody. revert info acc.
  induction fuel as [|n IH]; intros info acc; simpl; destruct (HasNextPage info);
    try apply blames_ret; try apply blames_out_of_fuel.
  apply blames_bind; [apply Hfetch|]. intros q.
  apply blames_bind; [apply Hbody|]. intros acc'. apply IH.
Qed.

Ltac blame :=
  repeat first
    [ progress cbv beta
    | apply blames_ret
    | apply blames_collect
    | apply blames_call
    | match goal with
      | |- blames _ (query _ ?q) => apply (blames_query q)
      end
    | apply blames_wrap
    | apply blames_bind; [|intros]
    | apply blames_range; intros
    | apply blames_pages; intros ].

Lemma blames_DownloadRepository_body owner name :
  blames true (
    q <- wrap "first query failed: %v" (query client (QRepository owner name)) ;;
    topics <- downloadTopics client fuel q ;;
    wrap "failed to save repository %v: %v"
      (call (CSaveRepository (repo_Fields q) topics)) ;;;
    downloadIssues client fuel owner name q ;;;
    downloadPullRequests (S:=S) client fuel owner name q).
Proof.
  unfold downloadTopics, downloadIssues, downloadPullRequests,
    downloadIssues_process, downloadPullRequests_process,
    downloadIssueAssignees, downloadIssueLabels, downloadIssueComments,
    downloadPullRequestAssignees, downloadPullRequestLabels,
    downloadPullRequestComments, downloadPullRequestReviews,
    downloadPullRequestReviews_process, downloadReviewComments,
    downloadReviewComments_process.
  blame.
Qed.

Lemma blames_DownloadOrganization_body name :
  blames true (
    q <- wrap "organization query failed: %v" (query client (QOrganization name)) ;;
    wrap "failed to save organization %v: %v" (call (CSaveOrganization q)) ;;;
    downloadUsers (S:=S) client fuel name q).
Proof. unfold downloadUsers, downloadUsers_process. blame. Qed.

(** The run of a transaction, by the result of [Begin]. *)
Lemma transaction_run (body : M S unit) format v h s :
  let s0 := Version v s in
  let rd := deferred body ((h ++ [EvCall (CVersion v) OK]) ++ [EvCall CBegin OK])
              (Begin s0).1 in
  (call (CVersion v) ;;; wrap format (call CBegin) ;;; deferred body) h s
  = match (Begin s0).2 with
    | OK => mkRun (out rd) (final rd)
              (EvCall (CVersion v) OK :: EvCall CBegin OK :: emitted rd)
    | Fail e => mkRun (Err (Errorf format e)) (Begin s0).1
                  [EvCall (CVersion v) OK; EvCall CBegin (Fail e)]
    | Panicked => mkRun Panic (Begin s0).1
                    [EvCall (CVersion v) OK; EvCall CBegin Panicked]
    end.
Proof.
  cbv zeta. unfold bind at 1. rewrite call_eq. simpl.
  unfold bind. rewrite wrap_out, wrap_emitted, wrap_final, call_eq. simpl.
  by destruct ((Begin (Version v s)).2).
Qed.

Lemma deferred_Err (body : M S unit) h s e :
  out (deferred body h s) = Err e →
  out (body h s) = Err e
  ∧ ∃ st, emitted (deferred body h s) = emitted (body h s) ++ [EvCall CRollback st].
Proof.
  unfold deferred, discard.
  destruct (out (body h s)) as [[]|e'| |] eqn:Eo; rewrite ?call_eq; simpl.
  - by destruct ((Commit (final (body h s))).2).
  - destruct ((Rollback (final (body h s))).2) eqn:Est; simpl; try done.
    + intros [= ->]. split; [done|]. by eexists.
    + intros [= ->]. split; [done|]. by eexists.
  - by destruct ((Commit (final (body h s))).2).
  - by rewrite Eo.
Qed.

Lemma transaction_blames (body : M S unit) format v h s e :
  blames true body →
  out ((call (CVersion v) ;;; wrap format (call CBegin) ;;; deferred body) h s)
  = Err e →
  ∃ pre ev e0 rest,
    emitted ((call (CVersion v) ;;; wrap format (call CBegin) ;;; deferred body) h s)
    = pre ++ ev :: rest
    ∧ (rest = [] ∨ ∃ st, rest = [EvCall CRollback st])
    ∧ error_of ev = Some e0
    ∧ wraps e e0.
Proof.
  intros Hbody. rewrite transaction_run. cbv zeta.
  destruct ((Begin (Version v s)).2) as [|e1|] eqn:EB; simpl; [| |done].
  - intros He. apply deferred_Err in He as [He [st Hev]].
    destruct (Hbody _ _ _ He) as (pre & ev & e0 & Hpre & Hof & Hw).
    exists (EvCall (CVersion v) OK :: EvCall CBegin OK :: pre), ev, e0,
      [EvCall CRollback st].
    rewrite Hev, Hpre, <- app_assoc. simpl. repeat split; eauto.
    by destruct Hw as [Hw|[? _]].
  - intros [= <-].
    exists [EvCall (CVersion v) OK], (EvCall CBegin (Fail e1)), e1, [].
    repeat split; eauto. constructor.
Qed.

(** X4.  An error returned by a public method of the downloader is never
    the error of the store or of the client itself: it is that error inside
    one [fmt.Errorf] or more.  For [DownloadRepository] and
    [DownloadOrganization] the error wrapped is the one returned by the call
    or query that failed, which is the last event of the run, or the last
    before [Rollback].  [SetCurrent] and [Cleanup] make one call into the
    store and wrap its error once. *)
Theorem download_error_wraps_its_cause owner name v h (s : S) e :
  (out (DownloadRepository client fuel owner name v h s) = Err e →
   ∃ pre ev e0 rest,
     emitted (DownloadRepository client fuel owner name v h s) = pre ++ ev :: rest
     ∧ (rest = [] ∨ ∃ st, rest = [EvCall CRollback st])
     ∧ error_of ev = Some e0
     ∧ wraps e e0)
  ∧ (out (DownloadOrganization client fuel name v h s) = Err e →
     ∃ pre ev e0 rest,
       emitted (DownloadOrganization client fuel name v h s) = pre ++ ev :: rest
       ∧ (rest = [] ∨ ∃ st, rest = [EvCall CRollback st])
       ∧ error_of ev = Some e0
       ∧ wraps e e0)
  ∧ (out (SetCurrent v h s) = Err e →
     ∃ e0, emitted (SetCurrent v h s) = [EvCall (CSetActiveVersion v) (Fail e0)]
           ∧ e = Errorf "failed to set current DB version to %v: %v" e0)
  ∧ (out (Cleanup' v h s) = Err e →
     ∃ e0, emitted (Cleanup' v h s) = [EvCall (CCleanup v) (Fail e0)]
           ∧ e = Errorf "failed to do cleanup for DB version %v: %v" e0).
Proof.
  split; [|split; [|split]]; intros He.
  - eapply transaction_blames; [|exact He].
    apply blames_DownloadRepository_body.
  - eapply transaction_blames; [|exact He].
    apply blames_DownloadOrganization_body.
  - unfold SetCurrent in *. rewrite wrap_out, call_eq in He.
    rewrite wrap_emitted, call_eq. simpl in *.
    destruct ((SetActiveVersion v s).2) as [|e0|]; try done.
    injection He as <-. by exists e0.
  - unfold Cleanup' in *. rewrite wrap_out, call_eq in He.
    rewrite wrap_emitted, call_eq. simpl in *.
    destruct ((Cleanup v s).2) as [|e0|]; try done.
    injection He as <-. by exists e0.
Qed.

Ltac in_list :=
  simpl in *; repeat rewrite elem_of_cons in *;
  repeat rewrite elem_of_nil in *; tauto.

Lemma deferred_emitted (body : M S unit) h s :
  ∃ tail,
    emitted (deferred body h s) = emitted (body h s) ++ tail
    ∧ (tail = [] ∨ ∃ st, tail = [EvCall CCommit st] ∨ tail = [EvCall CRollback st]).
Proof.
  unfold deferred, discard.
  destruct (out (body h s)) as [[]|e'| |] eqn:Eo; rewrite ?call_eq; simpl;
    try (eexists; split; [reflexivity|]; right; eexists; eauto).
  exists []. rewrite app_nil_r. auto.
Qed.

(** The events of a transaction pass the test [keep], when those of its
    body do and [keep] lets [Version], [Begin], [Commit] and [Rollback]
    through. *)
Lemma transaction_only keep (body : M S unit) format v h s :
  (∀ c st, c ∈ [CVersion v; CBegin; CCommit; CRollback] →
           keep (EvCall c st) = true) →
  steady (only keep) (fun _ => only keep) body →
  Forall (fun ev => keep ev = true)
    (emitted ((call (CVersion v) ;;; wrap format (call CBegin)
                 ;;; deferred body) h s)).
Proof.
  intros Hkeep Hbody. rewrite transaction_run. cbv zeta.
  destruct ((Begin (Version v s)).2) as [|e1|] eqn:EB; simpl.
  - repeat (constructor; [apply Hkeep; in_list|]).
    destruct (deferred_emitted body
                ((h ++ [EvCall (CVersion v) OK]) ++ [EvCall CBegin OK])
                (Begin (Version v s)).1) as (tail & -> & Htail).
    apply Forall_app. split; [by apply last_page.only_run|].
    destruct Htail as [->|[st [->| ->]]]; repeat constructor;
      apply Hkeep; in_list.
  - repeat (constructor; [apply Hkeep; in_list|]). constructor.
  - repeat (constructor; [apply Hkeep; in_list|]). constructor.
Qed.

Ltac addressed :=
  repeat first
    [ progress cbv beta
    | apply triple_ret; solve [auto]
    | apply triple_collect; solve [auto]
    | apply triple_wrap
    | apply steady_bind; [|intros]
    | apply triple_range; intros
    | apply triple_pages; [intros|intros|solve [auto]]
    | apply last_page.only_call; intros; simpl;
      solve [done | by rewrite bool_decide_eq_true_2]
    | match goal with
      | |- triple _ (query _ ?q) _ _ =>
          apply (last_page.only_query client _ q); intros; solve [done]
      end ].

Lemma only_DownloadRepository_body owner name :
  steady (only (of_repository owner name)) (fun _ => only (of_repository owner name)) (
    q <- wrap "first query failed: %v" (query client (QRepository owner name)) ;;
    topics <- downloadTopics client fuel q ;;
    wrap "failed to save repository %v: %v"
      (call (CSaveRepository (repo_Fields q) topics)) ;;;
    downloadIssues client fuel owner name q ;;;
    downloadPullRequests (S:=S) client fuel owner name q).
Proof.
  unfold steady, downloadTopics, downloadIssues, downloadPullRequests,
    downloadIssues_process, downloadPullRequests_process,
    downloadIssueAssignees, downloadIssueLabels, downloadIssueComments,
    downloadPullRequestAssignees, downloadPullRequestLabels,
    downloadPullRequestComments, downloadPullRequestReviews,
    downloadPullRequestReviews_process, downloadReviewComments,
    downloadReviewComments_process.
  addressed.
  apply (last_page.only_query client _ (QRepository owner name)).
  intros e. simpl. by rewrite bool_decide_eq_true_2.
Qed.

Lemma only_DownloadOrganization_body name :
  steady (only (of_organization name)) (fun _ => only (of_organization name)) (
    q <- wrap "organization query failed: %v" (query client (QOrganization name)) ;;
    wrap "failed to save organization %v: %v" (call (CSaveOrganization q)) ;;;
    downloadUsers (S:=S) client fuel name q).
Proof.
  unfold steady, downloadUsers, downloadUsers_process.
  addressed.
  - apply (last_page.only_query client _ (QOrganization name)).
    intros e. simpl. by rewrite bool_decide_eq_true_2.
  - apply (last_page.only_query client _
             (QMembersWithRole name membersWithRolePage cursor)).
    intros e. simpl. by rewrite bool_decide_eq_true_2.
Qed.

(** X5.  What a download asks and whom it calls.  [DownloadRepository]
    sends the root query for the owner and name it was given; every other
    query is for one page of a connection of the repository, with the page
    size the source fixes for that connection (2 for assignees and labels,
    5 for reviews and review comments, 10 for comments, 50 for topics,
    issues and pull requests).  Every Save call below [SaveRepository]
    passes on the owner and name given to [DownloadRepository], not those
    of the repository that came back.  [DownloadOrganization] asks for the
    organization and for pages of 100 members, and calls only
    [SaveOrganization] and [SaveUser].  Neither calls [SetActiveVersion]
    or [Cleanup]. *)
Theorem download_asks_and_calls owner name v h (s : S) :
  Forall (fun ev => of_repository owner name ev = true)
    (emitted (DownloadRepository client fuel owner name v h s))
  ∧ Forall (fun ev => of_organization name ev = true)
      (emitted (DownloadOrganization client fuel name v h s)).
Proof.
  split.
  - apply transaction_only; [|apply only_DownloadRepository_body].
    intros c st Hc. rewrite !elem_of_cons, elem_of_nil in Hc.
    by destruct Hc as [->|[->|[->|[->|[]]]]].
  - apply transaction_only; [|apply only_DownloadOrganization_body].
    intros c st Hc. rewrite !elem_of_cons, elem_of_nil in Hc.
    by destruct Hc as [->|[->|[->|[->|[]]]]].
Qed.

End blame.

(** *** Downloads into the in-memory store *)
Section into_Mem.
Variable client : Client.
Variable fuel : nat.

(** [Begin], [Commit] and [Rollback] do nothing in memory: a transaction
    is its body. *)
Lemma Mem_transaction (body : M store.Mem unit) format v h (m : store.Mem) :
  let rb := body ((h ++ [EvCall (CVersion v) OK]) ++ [EvCall CBegin OK]) m in
  let r := (call (CVersion v) ;;; wrap format (call CBegin) ;;; deferred body) h m in
  out r = out rb
  ∧ final r = final rb
  ∧ emitted r
    = EvCall (CVersion v) OK :: EvCall CBegin OK :: emitted rb
        ++ match out rb with
           | Ret _ | Panic => [EvCall CCommit OK]
           | Err _ => [EvCall CRollback OK]
           | OutOfFuel => []
           end.
Proof.
  cbv zeta. rewrite transaction_run. cbv zeta. simpl.
  unfold deferred, discard, store.Version.
  destruct (out (body _ m)) as [[]|e| |] eqn:Eo; rewrite ?call_eq; simpl;
    rewrite ?Eo, ?app_nil_r; done.
Qed.

Local Abbreviation safe :=
  (fun (_ : list Event) (s : store.Mem) => sound s).
Local Abbreviation safely :=
  (fun (k : abort) (_ : list Event) (s : store.Mem) => k ≠ APanic ∧ sound s).

Lemma call_safe c : is_save c = true → steady safe safely (call c).
Proof.
  intros Hc. apply triple_call. intros ctx s Hs.
  destruct (mem.saves_sound s c Hs Hc) as [Hnp Hsound].
  by destruct ((invoke c s).2).
Qed.

Lemma query_safe q : steady safe safely (query (S:=store.Mem) client q).
Proof. apply triple_query. intros ctx h s Hs. by destruct (client h q). Qed.

Ltac safe_walk :=
  first [ done | intros; by apply call_safe | intros; by apply query_safe ].

Lemma safe_DownloadRepository_body owner name :
  steady safe safely (
    q <- wrap "first query failed: %v" (query client (QRepository owner name)) ;;
    topics <- downloadTopics client fuel q ;;
    wrap "failed to save repository %v: %v"
      (call (CSaveRepository (repo_Fields q) topics)) ;;;
    downloadIssues client fuel owner name q ;;;
    downloadPullRequests (S:=store.Mem) client fuel owner name q).
Proof.
  apply triple_bind with (Q := fun _ => safe).
  { apply triple_wrap, query_safe. }
  intros q. apply triple_bind with (Q := fun _ => safe).
  { eapply steady_downloadTopics with (may_ask := fun _ => True); safe_walk. }
  intros topics. apply triple_bind with (Q := fun _ => safe).
  { by apply triple_wrap, call_safe. }
  intros _. apply triple_bind with (Q := fun _ => safe).
  { eapply steady_downloadIssues
      with (may_call := fun c => is_save c = true) (may_ask := fun _ => True);
      safe_walk. }
  intros _.
  eapply steady_downloadPullRequests
    with (may_call := fun c => is_save c = true) (may_ask := fun _ => True);
    safe_walk.
Qed.

Lemma safe_DownloadOrganization_body name :
  steady safe safely (
    q <- wrap "organization query failed: %v" (query client (QOrganization name)) ;;
    wrap "failed to save organization %v: %v" (call (CSaveOrganization q)) ;;;
    downloadUsers (S:=store.Mem) client fuel name q).
Proof.
  apply triple_bind with (Q := fun _ => safe).
  { apply triple_wrap, query_safe. }
  intros q. apply triple_bind with (Q := fun _ => safe).
  { by apply triple_wrap, call_safe. }
  intros _.
  eapply steady_downloadUsers
    with (may_call := fun c => is_save c = true) (may_ask := fun _ => True);
    safe_walk.
Qed.

Lemma safe_transaction (body : M store.Mem unit) format v h m :
  steady safe safely body → sound m →
  out ((call (CVersion v) ;;; wrap format (call CBegin) ;;; deferred body) h m)
  ≠ Panic
  ∧ sound (final ((call (CVersion v) ;;; wrap format (call CBegin)
                     ;;; deferred body) h m)).
Proof.
  intros Hbody Hm.
  destruct (Mem_transaction body format v h m) as (-> & -> & _).
  specialize (Hbody [] ((h ++ [EvCall (CVersion v) OK]) ++ [EvCall CBegin OK])
                m Hm).
  destruct (out (body _ m)); simpl in Hbody; try done; by destruct Hbody.
Qed.

Lemma safe_DownloadRepository owner name v h m :
  sound m →
  out (DownloadRepository client fuel owner name v h m) ≠ Panic
  ∧ sound (final (DownloadRepository client fuel owner name v h m)).
Proof.
  intros Hm.
  exact (safe_transaction _ "could not call Begin(): %v" v h m
           (safe_DownloadRepository_body owner name) Hm).
Qed.

Lemma safe_DownloadOrganization name v h m :
  sound m →
  out (DownloadOrganization client fuel name v h m) ≠ Panic
  ∧ sound (final (DownloadOrganization client fuel name v h m)).
Proof.
  intros Hm.
  exact (safe_transaction _ "could not call Begin(): %v" v h m
           (safe_DownloadOrganization_body name) Hm).
Qed.

(** X6.  A download into the in-memory store never panics.  Started on a
    store without nil maps, [DownloadRepository] and [DownloadOrganization]
    return or run on, whatever the client answers, and leave a store
    without nil maps; so does [GetMemStore], which starts on the store of
    [NewMemDownloader], and the store it returns has no nil map. *)
Theorem Mem_download_never_panics owner name v h (m : store.Mem) :
  (sound m →
   out (DownloadRepository client fuel owner name v h m) ≠ Panic
   ∧ sound (final (DownloadRepository client fuel owner name v h m))
   ∧ out (DownloadOrganization client fuel name v h m) ≠ Panic
   ∧ sound (final (DownloadOrganization client fuel name v h m)))
  ∧ out (getmemstore.GetMemStore client fuel owner name h) ≠ Panic
  ∧ (∀ m', out (getmemstore.GetMemStore client fuel owner name h) = Ret m' →
           sound m').
Proof.
  split.
  - intros Hm.
    destruct (safe_DownloadRepository owner name v h m Hm) as [? ?].
    by destruct (safe_DownloadOrganization name v h m Hm) as [? ?].
  - destruct (safe_DownloadRepository owner name 0 h NewMemDownloader
                mem.NewMemDownloader_sound) as [Hnp Hsound].
    unfold getmemstore.GetMemStore. cbv zeta.
    set (r := DownloadRepository client fuel owner name 0 h NewMemDownloader) in *.
    clearbody r. simpl. destruct (out r) as [[]|e| |]; split; try done.
    intros m' Hm'. by injection Hm' as <-.
Qed.

(** **** An organization is only printed *)

Local Abbreviation printing R :=
  (fun (ctx : list Event) (s : store.Mem) =>
     store.Repos s = R
     ∧ Forall (fun ev => match ev with EvCall _ st => st = OK | _ => True end) ctx).

Lemma call_printing R c :
  (∀ s, ∃ line, invoke c s = (store.print s line, OK)) →
  steady (printing R) (fun _ => printing R) (call c).
Proof.
  intros Hc. apply triple_call. intros ctx s [HR Hctx].
  destruct (Hc s) as [line ->]. simpl. split; [done|].
  apply Forall_app. split; [done|]. by repeat constructor.
Qed.

Lemma query_printing R q :
  steady (printing R) (fun _ => printing R) (query (S:=store.Mem) client q).
Proof.
  apply triple_query. intros ctx h s [HR Hctx].
  destruct (client h q); (split; [done|]);
    apply Forall_app; split; try done; by repeat constructor.
Qed.

Lemma printing_DownloadOrganization_body R name :
  steady (printing R) (fun _ => printing R) (
    q <- wrap "organization query failed: %v" (query client (QOrganization name)) ;;
    wrap "failed to save organization %v: %v" (call (CSaveOrganization q)) ;;;
    downloadUsers (S:=store.Mem) client fuel name q).
Proof.
  apply triple_bind with (Q := fun _ => printing R).
  { apply triple_wrap, query_printing. }
  intros q. apply triple_bind with (Q := fun _ => printing R).
  { apply triple_wrap, call_printing. intros s. by eexists. }
  intros _.
  eapply steady_downloadUsers
    with (may_call := fun c => ∀ s, ∃ line, invoke c s = (store.print s line, OK))
         (may_ask := fun _ => True);
    first [ done
          | intros; by apply call_printing
          | intros; by apply query_printing
          | intros u s; by eexists ].
Qed.

(** X7.  [DownloadOrganization] into the in-memory store only prints: it
    leaves [Repos] as it was, and no call into the store returns an error
    or panics, so that only a failed query makes it return an error. *)
Theorem Mem_organization_is_only_printed name v h (m : store.Mem) :
  store.Repos (final (DownloadOrganization client fuel name v h m)) = store.Repos m
  ∧ (∀ c st, EvCall c st ∈ emitted (DownloadOrganization client fuel name v h m) →
             st = OK)
  ∧ (∀ e, out (DownloadOrganization client fuel name v h m) = Err e →
          ∃ pre q e0,
            emitted (DownloadOrganization client fuel name v h m)
            = pre ++ [EvQuery q (Some e0); EvCall CRollback OK]).
Proof.
  destruct (Mem_transaction
              (q <- wrap "organization query failed: %v"
                      (query client (QOrganization name)) ;;
               wrap "failed to save organization %v: %v"
                 (call (CSaveOrganization q)) ;;;
               downloadUsers client fuel name q)
              "could not call Begin(): %v" v h m) as (Hout & Hfinal & Hev).
  cbv zeta in Hout, Hfinal, Hev.
  fold (DownloadOrganization client fuel name v h m) in Hout, Hfinal, Hev.
  set (h1 := (h ++ [EvCall (CVersion v) OK]) ++ [EvCall CBegin OK]) in *.
  pose proof (printing_DownloadOrganization_body (store.Repos m) name [] h1 m)
    as Hbody.
  pose proof (failure_policy.stops_clean_run _ h1 m
                (failure_policy.stops_clean_DownloadOrganization_body
                   client fuel name)) as Hstop.
  set (rb := bind _ _ h1 m) in *. clearbody rb.
  assert (store.Repos (final rb) = store.Repos m
          ∧ Forall (fun ev => match ev with EvCall _ st => st = OK | _ => True end)
              (emitted rb)) as [HR Hcalls].
  { assert (printing (store.Repos m) [] m) as H0 by (split; [done|constructor]).
    specialize (Hbody H0). by destruct (out rb). }
  rewrite Hfinal, Hev, Hout. split; [done|]. split.
  - intros c st Hin.
    assert (Forall (fun ev => match ev with EvCall _ st => st = OK | _ => True end)
              (EvCall (CVersion v) OK :: EvCall CBegin OK :: emitted rb
                 ++ match out rb with
                    | Ret _ | Panic => [EvCall CCommit OK]
                    | Err _ => [EvCall CRollback OK]
                    | OutOfFuel => []
                    end)) as Hall.
    { repeat (constructor; [done|]). apply Forall_app. split; [done|].
      destruct (out rb); by repeat constructor. }
    rewrite Forall_forall in Hall. apply (Hall _ Hin).
  - intros e He. rewrite He in *.
    destruct Hstop as (pre & ev & Hpre & _ & Hfail & _).
    rewrite Hpre in *.
    apply Forall_app in Hcalls as [_ Hlast].
    apply Forall_cons in Hlast as [Hlast _].
    destruct ev as [c [|e1|]|q [e1|]]; try done.
    exists (EvCall (CVersion v) OK :: EvCall CBegin OK :: pre), q, e1.
    by rewrite <- app_assoc.
Qed.

(** **** The repository that was saved stays *)

Local Abbreviation holding :=
  (fun (ctx : list Event) (s : store.Mem) =>
     ∃ f topics,
       EvCall (CSaveRepository f topics) OK ∈ ctx
       ∧ head_of <$> store.repo_at s (Login (repo_Owner f)) (repo_Name f)
         = Some (f, topics)).

Lemma call_holding c :
  replaces c = None → steady holding (fun _ => holding) (call c).
Proof.
  intros Hc. apply triple_call. intros ctx s (f & topics & Hin & Hhead).
  assert (holding (ctx ++ [EvCall c (invoke c s).2]) (invoke c s).1) as Hnext.
  { exists f, topics. split; [apply elem_of_app; by left|].
    rewrite store_laws.head_kept; [done|]. by rewrite Hc. }
  by destruct ((invoke c s).2).
Qed.

Lemma query_holding q :
  steady holding (fun _ => holding) (query (S:=store.Mem) client q).
Proof.
  apply triple_query. intros ctx h s (f & topics & Hin & Hhead).
  destruct (client h q); exists f, topics; (split; [apply elem_of_app; by left|done]).
Qed.

Lemma holding_DownloadRepository_body owner name :
  triple (fun _ _ => True) (
    q <- wrap "first query failed: %v" (query client (QRepository owner name)) ;;
    topics <- downloadTopics client fuel q ;;
    wrap "failed to save repository %v: %v"
      (call (CSaveRepository (repo_Fields q) topics)) ;;;
    downloadIssues client fuel owner name q ;;;
    downloadPullRequests (S:=store.Mem) client fuel owner name q)
    (fun _ => holding) (fun _ _ _ => True).
Proof.
  apply triple_bind with (Q := fun _ _ _ => True).
  { apply triple_wrap, triple_query. intros ctx h s _. by destruct (client h _). }
  intros q. apply triple_bind with (Q := fun _ _ _ => True).
  { intros ctx h s _. by destruct (out _). }
  intros topics. apply triple_bind with (Q := fun _ => holding).
  { apply triple_wrap, triple_call. intros ctx s _.
    destruct ((invoke (CSaveRepository (repo_Fields q) topics) s).2) eqn:Est;
      [|done..].
    exists (repo_Fields q), topics. split; [apply elem_of_app; right; by left|].
    simpl in *. apply store_laws.SaveRepository_effect in Est.
    rewrite Est. by rewrite decide_True. }
  intros _.
  assert (∀ {A} (m : M store.Mem A),
            steady holding (fun _ => holding) m →
            triple holding m (fun _ => holding) (fun _ _ _ => True)) as Hweak.
  { intros A m Hm. by eapply triple_conseq; [exact Hm|..]. }
  apply triple_bind with (Q := fun _ => holding).
  { apply Hweak.
    eapply steady_downloadIssues
      with (may_call := fun c => replaces c = None) (may_ask := fun _ => True);
      first [ done | intros; by apply call_holding | intros; by apply query_holding ]. }
  intros _. apply Hweak.
  eapply steady_downloadPullRequests
    with (may_call := fun c => replaces c = None) (may_ask := fun _ => True);
    first [ done | intros; by apply call_holding | intros; by apply query_holding ].
Qed.

(** X8.  When [DownloadRepository] into the in-memory store returns
    [nil], the repository it passed to [SaveRepository] is in the store it
    leaves, under the owner login and the name of the repository that came
    back from GitHub, with the fields and the list of topics of that call:
    no Save call made after it touches them. *)
Theorem Mem_download_keeps_the_repository owner name v h (m : store.Mem) :
  out (DownloadRepository client fuel owner name v h m) = Ret tt →
  ∃ f topics,
    EvCall (CSaveRepository f topics) OK
      ∈ emitted (DownloadRepository client fuel owner name v h m)
    ∧ head_of <$> store.repo_at (final (DownloadRepository client fuel owner name v h m))
                    (Login (repo_Owner f)) (repo_Name f)
      = Some (f, topics).
Proof.
  destruct (Mem_transaction
              (q <- wrap "first query failed: %v"
                      (query client (QRepository owner name)) ;;
               topics <- downloadTopics client fuel q ;;
               wrap "failed to save repository %v: %v"
                 (call (CSaveRepository (repo_Fields q) topics)) ;;;
               downloadIssues client fuel owner name q ;;;
               downloadPullRequests client fuel owner name q)
              "could not call Begin(): %v" v h m) as (Hout & Hfinal & Hev).
  cbv zeta in Hout, Hfinal, Hev.
  fold (DownloadRepository client fuel owner name v h m) in Hout, Hfinal, Hev.
  set (h1 := (h ++ [EvCall (CVersion v) OK]) ++ [EvCall CBegin OK]) in *.
  pose proof (holding_DownloadRepository_body owner name [] h1 m I) as Hbody.
  set (rb := bind _ _ h1 m) in *. clearbody rb.
  rewrite Hout, Hfinal, Hev. intros He. rewrite He in Hbody. simpl in Hbody.
  destruct Hbody as (f & topics & Hin & Hhead).
  exists f, topics. split; [|done].
  rewrite !elem_of_cons, elem_of_app. auto.
Qed.

(** **** A repository that comes back under another name *)

Local Abbreviation missing owner name :=
  (fun (_ : list Event) (s : store.Mem) => store.repo_at s owner name = None).

Lemma call_missing owner name c :
  replaces c ≠ Some (owner, name) →
  steady (missing owner name) (fun _ => missing owner name) (call c).
Proof.
  intros Hc. apply triple_call. intros ctx s Hs.
  pose proof (store_laws.absent_kept s c owner name Hc Hs).
  by destruct ((invoke c s).2).
Qed.

Lemma query_missing owner name q :
  steady (missing owner name) (fun _ => missing owner name)
    (query (S:=store.Mem) client q).
Proof. apply triple_query. intros ctx h s Hs. by destruct (client h q). Qed.

Lemma missing_DownloadRepository_body owner name :
  (∀ h q, client h (QRepository owner name) = inr q →
          (Login (repo_Owner (repo_Fields q)), repo_Name (repo_Fields q))
          ≠ (owner, name)) →
  steady (missing owner name) (fun _ => missing owner name) (
    q <- wrap "first query failed: %v" (query client (QRepository owner name)) ;;
    topics <- downloadTopics client fuel q ;;
    wrap "failed to save repository %v: %v"
      (call (CSaveRepository (repo_Fields q) topics)) ;;;
    downloadIssues client fuel owner name q ;;;
    downloadPullRequests (S:=store.Mem) client fuel owner name q).
Proof.
  intros Hclient.
  apply triple_bind
    with (Q := fun q ctx s =>
                 missing owner name ctx s
                 ∧ (Login (repo_Owner (repo_Fields q)), repo_Name (repo_Fields q))
                   ≠ (owner, name)).
  { apply triple_wrap, (triple_query client (QRepository owner name)).
    intros ctx h s Hs.
    destruct (client h (QRepository owner name)) as [e|q] eqn:Eq; [done|].
    split; [done|]. by eapply Hclient. }
  intros q ctx h s [Hs Hq]. revert ctx h s Hs.
  change (steady (missing owner name) (fun _ => missing owner name)
            (topics <- downloadTopics client fuel q ;;
             wrap "failed to save repository %v: %v"
               (call (CSaveRepository (repo_Fields q) topics)) ;;;
             downloadIssues client fuel owner name q ;;;
             downloadPullRequests (S:=store.Mem) client fuel owner name q)).
  apply triple_bind with (Q := fun _ => missing owner name).
  { eapply steady_downloadTopics with (may_ask := fun _ => True);
      first [ done | intros; by apply query_missing ]. }
  intros topics. apply triple_bind with (Q := fun _ => missing owner name).
  { apply triple_wrap, call_missing. simpl. intros [= Ho Hn].
    apply Hq. by rewrite Ho, Hn. }
  intros _. apply triple_bind with (Q := fun _ => missing owner name).
  { eapply steady_downloadIssues
      with (may_call := fun c => replaces c = None) (may_ask := fun _ => True);
      first [ done
            | intros c Hc; apply call_missing; by rewrite Hc
            | intros; by apply query_missing ]. }
  intros _.
  eapply steady_downloadPullRequests
    with (may_call := fun c => replaces c = None) (may_ask := fun _ => True);
    first [ done
          | intros c Hc; apply call_missing; by rewrite Hc
          | intros; by apply query_missing ].
Qed.

Section executing.
Variable server : migrate.Server.
Variable iteration : nat → ∀ V : Type, gmap Z V → list (Z * V).
Variable Sprintf_comment : IssueComment → string.
Variable Sprintf_review : store.PullRequestReview → string.
Variable Sprintf_review_comment : PullRequestReviewComment → string.

(** X9.  [Execute] migrates nothing unless GitHub answers with a
    repository that carries exactly the owner login and the name it was
    asked for.  The in-memory store files the repository under the login
    and name that came back, while every later Save call and the bridge
    look it up under those of the configuration: if the two differ (in
    letter case, say), the download fails at its first pull request or the
    bridge fails to obtain the repository, and no request reaches the
    Bitbucket server. *)
Theorem Execute_needs_the_names_it_asked_for (c : migrate.Config) h st :
  (∀ h' q, client h' (QRepository (migrate.GithubRepoOwner c)
                        (migrate.GithubRepoName c)) = inr q →
           (Login (repo_Owner (repo_Fields q)), repo_Name (repo_Fields q))
           ≠ (migrate.GithubRepoOwner c, migrate.GithubRepoName c)) →
  command.result (command.Execute client fuel server iteration Sprintf_comment
                    Sprintf_review Sprintf_review_comment c h st) ≠ Ret tt
  ∧ command.bitbucket (command.Execute client fuel server iteration Sprintf_comment
                         Sprintf_review Sprintf_review_comment c h st) = st.
Proof.
  intros Hclient.
  set (owner := migrate.GithubRepoOwner c) in *.
  set (name := migrate.GithubRepoName c) in *.
  destruct (Mem_transaction
              (q <- wrap "first query failed: %v"
                      (query client (QRepository owner name)) ;;
               topics <- downloadTopics client fuel q ;;
               wrap "failed to save repository %v: %v"
                 (call (CSaveRepository (repo_Fields q) topics)) ;;;
               downloadIssues client fuel owner name q ;;;
               downloadPullRequests client fuel owner name q)
              "could not call Begin(): %v" 0 h NewMemDownloader)
    as (Hout & Hfinal & _).
  cbv zeta in Hout, Hfinal.
  fold (DownloadRepository client fuel owner name 0 h NewMemDownloader)
    in Hout, Hfinal.
  pose proof (missing_DownloadRepository_body owner name Hclient []
                ((h ++ [EvCall (CVersion 0) OK]) ++ [EvCall CBegin OK])
                NewMemDownloader eq_refl) as Hbody.
  set (rb := bind _ _ _ NewMemDownloader) in *. clearbody rb.
  assert (store.repo_at (final rb) owner name = None) as Hmissing
    by (by destruct (out rb)).
  unfold command.Execute, getmemstore.GetMemStore. cbv zeta.
  fold owner name.
  set (r := DownloadRepository client fuel owner name 0 h NewMemDownloader) in *.
  clearbody r. simpl.
  destruct (out r) as [[]|e| |]; simpl; try done.
  unfold migrate.migrate. fold owner name. rewrite Hfinal, Hmissing. done.
Qed.

End executing.
End into_Mem.
End download_laws.

(** ** What a download leaves in the in-memory store *)
Module contents.
Import github runs run_rules laws remote.

(** *** Runs that return *)
Lemma lands_bind {A B} (m : M store.Mem A) (k : A → M store.Mem B) h s a b Q :
  lands (m h s) a (fun s1 => ∀ h1, lands (k a h1 s1) b Q) →
  lands (bind m k h s) b Q.
Proof.
  intros [Hm Hk]. unfold lands. rewrite (bind_Ret _ _ h s a) by done. simpl.
  apply Hk.
Qed.

Lemma lands_weaken {A} (r : Run store.Mem A) a (Q Q' : store.Mem → Prop) :
  lands r a Q → (∀ s, Q s → Q' s) → lands r a Q'.
Proof. intros [Hout HQ] Himpl. split; [done|]. by apply Himpl. Qed.

Lemma lands_wrap {A} format (m : M store.Mem A) h s a Q :
  lands (m h s) a Q → lands (wrap format m h s) a Q.
Proof. intros [Hout HQ]. unfold lands. by rewrite wrap_out, wrap_final, Hout. Qed.

Lemma lands_call c h (s : store.Mem) (Q : store.Mem → Prop) :
  (invoke c s).2 = OK → Q (invoke c s).1 → lands (call c h s) tt Q.
Proof. intros HOK HQ. unfold lands. rewrite call_eq. simpl. by rewrite HOK. Qed.

Lemma lands_ret {A} (a : A) h s (Q : store.Mem → Prop) :
  Q s → lands (ret a h s) a Q.
Proof. by split. Qed.

Lemma lands_same {A} (r : Run store.Mem A) a s :
  out r = Ret a ∧ final r = s → lands r a (fun s' => s' = s).
Proof. done. Qed.

(** *** A walk that threads an invariant through its nodes *)
Section threading.
Context {N : Type}.
Variable fuel : nat.
Variable ok : N → Prop.
Variable Inv : list N → store.Mem → Prop.

Lemma range_threads act nodes done h s :
  steps ok Inv act → Forall ok nodes → Inv done s →
  lands (range nodes act h s) tt (Inv (done ++ nodes)).
Proof.
  intros Hact Hok. revert done h s.
  induction Hok as [|x rest Hx Hrest IH]; intros done h s Hinv; simpl.
  - apply lands_ret. by rewrite app_nil_r.
  - apply (lands_bind _ _ _ _ tt).
    eapply lands_weaken; [by apply Hact|].
    intros s1 Hs1 h1.
    replace (done ++ x :: rest) with ((done ++ [x]) ++ rest)
      by (by rewrite <- app_assoc).
    by apply IH.
Qed.

Lemma pages_thread act format (source : string → M store.Mem (Connection N))
    info ps done h s :
  steps ok Inv act → delivers source info ps → (length ps ≤ fuel)%nat →
  Forall ok (concat ps) → Inv done s →
  lands (pages fuel (fun cursor => wrap format (source cursor))
           (fun _ nodes => range nodes act) info tt h s) tt
    (Inv (done ++ concat ps)).
Proof.
  intros Hact Hps. revert done h s. generalize fuel as n.
  induction Hps as [info Hlast|info q conn rest Hnext Hsource Hrest IH];
    intros n done h s Hn Hok Hinv.
  - destruct n; simpl; rewrite Hlast; apply lands_ret; by rewrite app_nil_r.
  - destruct n as [|n]; simpl in *; [lia|]. rewrite Hnext.
    apply Forall_app in Hok as [Hpage Hmore].
    apply (lands_bind _ _ _ _ conn). apply lands_wrap.
    rewrite Hsource. split; [done|]. simpl. intros h1.
    apply (lands_bind _ _ _ _ tt).
    eapply lands_weaken; [by apply range_threads|].
    intros s1 Hs1 h2. rewrite (app_assoc done (Nodes conn) (concat rest)).
    apply IH; [lia|done..].
Qed.

Lemma walk_threads act1 act2 format (source : string → M store.Mem (Connection N))
    first more h s :
  steps ok Inv act1 → steps ok Inv act2 →
  handed fuel source first more → Forall ok (all first more) → Inv [] s →
  lands ((range (Nodes first) act1 ;;;
          pages fuel (fun cursor => wrap format (source cursor))
            (fun _ nodes => range nodes act2) (PageInfo_of first) tt) h s) tt
    (Inv (all first more)).
Proof.
  intros Hact1 Hact2 [Hps Hfuel] Hok Hinv.
  apply Forall_app in Hok as [Hfirst Hmore].
  apply (lands_bind _ _ _ _ tt).
  eapply lands_weaken; [by apply (range_threads act1 (Nodes first) [])|].
  intros s1 Hs1 h1. by apply pages_thread.
Qed.

End threading.

(** *** The walks of a repository *)
Section into_Mem.
Variable client : Client.
Variable fuel : nat.

(** **** The comments of a pull request *)
Lemma comment_saved owner name k p comment format h s :
  store.pr_at s owner name k = Some p →
  lands (wrap format (call (CSavePullRequestComment owner name k comment)) h s) tt
    (fun s' => put_pr s s' owner name k (with_comments p [comment])).
Proof.
  intros Hp.
  pose proof (store_laws.SavePullRequestComment_OK s owner name k comment p Hp)
    as HOK.
  apply lands_wrap, lands_call; [done|].
  apply store_laws.SavePullRequestComment_effect in HOK as (p0 & Hp0 & Hput).
  rewrite Hp in Hp0. by injection Hp0 as <-.
Qed.

Lemma comments_stored owner name pr more p h s :
  store.pr_at s owner name (pr_Number pr) = Some p →
  handed fuel (fun cursor =>
                 query client (QPullRequestComments (pr_Id pr) issueCommentsPage
                                 cursor))
    (pr_Comments pr) more →
  lands (downloadPullRequestComments client fuel owner name pr h s) tt
    (fun s' => put_pr s s' owner name (pr_Number pr)
                 (with_comments p (all (pr_Comments pr) more))).
Proof.
  intros Hp Hmore. unfold downloadPullRequestComments.
  set (Inv := fun done s' =>
                put_pr s s' owner name (pr_Number pr) (with_comments p done)).
  assert (steps (fun _ => True) Inv
            (fun comment =>
               wrap "failed to save PR comments for PR #%v: %v"
                 (call (CSavePullRequestComment owner name (pr_Number pr) comment))))
    as Hstep.
  { intros done x h' s' _ Hinv. unfold Inv in *.
    eapply lands_weaken.
    - apply comment_saved. by eapply store_laws.put_pr_pr_at.
    - intros s2 Hput. cbv beta in Hput.
      rewrite store_laws.with_comments_app in Hput.
      by eapply store_laws.put_pr_trans. }
  apply (walk_threads fuel (fun _ => True) Inv _ _ _
           (fun cursor =>
              query client (QPullRequestComments (pr_Id pr) issueCommentsPage cursor)));
    try done.
  - by apply Forall_true.
  - unfold Inv. rewrite store_laws.with_comments_nil.
    by apply store_laws.put_pr_refl.
Qed.

(** **** The comments of a review *)
Lemma review_comment_saved owner name k review p revs rv comment h s :
  store.pr_at s owner name k = Some p → store.Reviews p = Some revs →
  revs !! rev_DatabaseId review = Some rv →
  lands (downloadReviewComments_process owner name k review comment h s) tt
    (fun s' =>
       put_pr s s' owner name k
         (with_reviews p
            (<[rev_DatabaseId review := with_review_comments rv [comment]]> revs))).
Proof.
  intros Hp Hrevs Hrv. unfold downloadReviewComments_process.
  assert (store.review_at s owner name k (rev_DatabaseId review) = Some rv) as Hat.
  { rewrite (store_laws.review_at_of_pr _ _ _ _ _ _ Hp), Hrevs. done. }
  pose proof (store_laws.SavePullRequestReviewComment_OK s owner name k
                (rev_DatabaseId review) comment rv Hat) as HOK.
  apply lands_wrap, lands_call; [done|].
  apply store_laws.SavePullRequestReviewComment_effect in HOK
    as (p0 & revs0 & rv0 & Hp0 & Hrevs0 & Hrv0 & Hput).
  rewrite Hp in Hp0. injection Hp0 as <-.
  rewrite Hrevs in Hrevs0. injection Hrevs0 as <-.
  rewrite Hrv in Hrv0. by injection Hrv0 as <-.
Qed.

Lemma review_comments_stored owner name k review more p revs rv h s :
  store.pr_at s owner name k = Some p → store.Reviews p = Some revs →
  revs !! rev_DatabaseId review = Some rv →
  handed fuel (fun cursor =>
                 query client (QPullRequestReviewComments (rev_Id review)
                                 pullRequestReviewCommentsPage cursor))
    (rev_Comments review) more →
  lands (downloadReviewComments client fuel owner name k review h s) tt
    (fun s' =>
       put_pr s s' owner name k
         (with_reviews p
            (<[rev_DatabaseId review
                 := with_review_comments rv (all (rev_Comments review) more)]> revs))).
Proof.
  intros Hp Hrevs Hrv Hmore. unfold downloadReviewComments.
  set (Inv := fun done s' =>
                put_pr s s' owner name k
                  (with_reviews p
                     (<[rev_DatabaseId review := with_review_comments rv done]> revs))).
  assert (steps (fun _ => True) Inv
            (downloadReviewComments_process owner name k review)) as Hstep.
  { intros done x h' s' _ Hinv. unfold Inv in *.
    eapply lands_weaken.
    - eapply (review_comment_saved owner name k review _
                (<[rev_DatabaseId review := with_review_comments rv done]> revs)
                (with_review_comments rv done));
        [by eapply store_laws.put_pr_pr_at|done|by rewrite lookup_insert_eq].
    - intros s2 Hput. cbv beta in Hput.
      rewrite insert_insert_eq, store_laws.with_review_comments_app in Hput.
      by eapply store_laws.put_pr_trans. }
  apply (walk_threads fuel (fun _ => True) Inv _ _ _
           (fun cursor =>
              query client (QPullRequestReviewComments (rev_Id review)
                              pullRequestReviewCommentsPage cursor)));
    try done.
  - by apply Forall_true.
  - unfold Inv. rewrite store_laws.with_review_comments_nil.
    rewrite insert_id by done. rewrite store_laws.with_reviews_same by done.
    by apply store_laws.put_pr_refl.
Qed.

(** **** The reviews of a pull request *)
Variable P : Pages.

Lemma review_processed owner name pr review p revs h s :
  store.pr_at s owner name (pr_Number pr) = Some p → store.Reviews p = Some revs →
  review_served client fuel P review →
  lands (downloadPullRequestReviews_process client fuel owner name pr review h s) tt
    (fun s' => put_pr s s' owner name (pr_Number pr)
                 (with_reviews p (file_review P revs review))).
Proof.
  intros Hp Hrevs Hserved. unfold downloadPullRequestReviews_process.
  pose proof (store_laws.SavePullRequestReview_OK s owner name (pr_Number pr)
                review p revs Hp Hrevs) as HOK.
  apply (lands_bind _ _ _ _ tt). apply lands_wrap, lands_call; [done|].
  apply store_laws.SavePullRequestReview_effect in HOK
    as (p0 & revs0 & Hp0 & Hrevs0 & Hput).
  rewrite Hp in Hp0. injection Hp0 as <-.
  rewrite Hrevs in Hrevs0. injection Hrevs0 as <-.
  intros h1.
  set (fresh := {| store.PullRequestReview_of := review;
                   store.review_Comments := [] |}) in *.
  eapply lands_weaken.
  - eapply (review_comments_stored owner name (pr_Number pr) review
              (review_comment_pages P review) _
              (<[rev_DatabaseId review := fresh]> revs) fresh);
      [by eapply store_laws.put_pr_pr_at|done|by rewrite lookup_insert_eq|done].
  - intros s2 Hput'. cbv beta in Hput'. rewrite insert_insert_eq in Hput'.
    by eapply store_laws.put_pr_trans.
Qed.

Lemma reviews_stored owner name pr p revs h s :
  store.pr_at s owner name (pr_Number pr) = Some p → store.Reviews p = Some revs →
  handed fuel (fun cursor =>
                 query client (QPullRequestReviews (pr_Id pr) pullRequestReviewsPage
                                 cursor))
    (pr_Reviews pr) (review_pages P pr) →
  Forall (review_served client fuel P) (all (pr_Reviews pr) (review_pages P pr)) →
  lands (downloadPullRequestReviews client fuel owner name pr h s) tt
    (fun s' =>
       put_pr s s' owner name (pr_Number pr)
         (with_reviews p
            (foldl (file_review P) revs (all (pr_Reviews pr) (review_pages P pr))))).
Proof.
  intros Hp Hrevs Hmore Hserved. unfold downloadPullRequestReviews.
  set (Inv := fun done s' =>
                put_pr s s' owner name (pr_Number pr)
                  (with_reviews p (foldl (file_review P) revs done))).
  assert (steps (review_served client fuel P) Inv
            (downloadPullRequestReviews_process client fuel owner name pr)) as Hstep.
  { intros done x h' s' Hx Hinv. unfold Inv in *.
    eapply lands_weaken.
    - eapply (review_processed owner name pr x _ (foldl (file_review P) revs done));
        [by eapply store_laws.put_pr_pr_at|done|done].
    - intros s2 Hput. cbv beta in Hput. rewrite foldl_app. simpl.
      by eapply store_laws.put_pr_trans. }
  apply (walk_threads fuel (review_served client fuel P) Inv _ _ _
           (fun cursor =>
              query client (QPullRequestReviews (pr_Id pr) pullRequestReviewsPage
                              cursor)));
    try done.
  unfold Inv. simpl. rewrite store_laws.with_reviews_same by done.
  by apply store_laws.put_pr_refl.
Qed.

(** **** One pull request *)
Lemma pull_request_processed owner name pr r prs h s :
  store.repo_at s owner name = Some r → store.PRs r = Some prs →
  pull_request_served client fuel P pr →
  lands (downloadPullRequests_process client fuel owner name pr h s) tt
    (fun s' => updated s s' owner name (with_prs r (file_pull_request P prs pr))).
Proof.
  intros Hr Hprs ([HA HAfuel] & [HL HLfuel] & HC & HR & Hreviews).
  unfold downloadPullRequests_process.
  set (assignees := map Login (Nodes (pr_Assignees pr) ++ concat (assignee_pages P pr))).
  set (labels := map label_Name (Nodes (pr_Labels pr) ++ concat (label_pages P pr))).
  apply (lands_bind _ _ _ _ assignees).
  eapply lands_weaken;
    [exact (lands_same _ _ _
              (walks.downloadPullRequestAssignees_collects fuel client pr
                 (assignee_pages P pr) h s HA HAfuel))|].
  intros s0 -> h1. apply (lands_bind _ _ _ _ labels).
  eapply lands_weaken;
    [exact (lands_same _ _ _
              (walks.downloadPullRequestLabels_collects fuel client pr
                 (label_pages P pr) h1 s HL HLfuel))|].
  intros s0 -> h2.
  pose proof (store_laws.SavePullRequest_OK s owner name pr assignees labels r prs
                Hr Hprs) as HOK.
  apply (lands_bind _ _ _ _ tt). apply lands_call; [done|].
  apply store_laws.SavePullRequest_effect in HOK as Hput1.
  set (s1 := (invoke (CSavePullRequest owner name pr assignees labels) s).1) in *.
  set (fresh := {| store.PullRequest_of := pr; store.Assignees := assignees;
                   store.Labels := labels; store.Comments := [];
                   store.Reviews := gomap.make |}) in *.
  intros h3. apply (lands_bind _ _ _ _ tt).
  eapply lands_weaken.
  { apply (comments_stored owner name pr (comment_pages P pr) fresh); [|done].
    by eapply store_laws.put_pr_pr_at. }
  intros s2 Hput2 h4. cbv beta in Hput2.
  eapply lands_weaken.
  { apply (reviews_stored owner name pr
             (with_comments fresh (all (pr_Comments pr) (comment_pages P pr))) ∅);
      [by eapply store_laws.put_pr_pr_at|done|done|done]. }
  intros s3 Hput3. cbv beta in Hput3.
  pose proof (store_laws.put_pr_trans _ _ _ _ _ _ _ _
                (store_laws.put_pr_trans _ _ _ _ _ _ _ _ Hput1 Hput2) Hput3)
    as (r0 & prs0 & Hr0 & Hprs0 & Hup).
  rewrite Hr in Hr0. injection Hr0 as <-.
  rewrite Hprs in Hprs0. injection Hprs0 as <-.
  exact Hup.
Qed.

Lemma pull_requests_stored owner name q r prs h s :
  store.repo_at s owner name = Some r → store.PRs r = Some prs →
  handed fuel (fun cursor =>
                 query client (QPullRequests (repo_Id (repo_Fields q))
                                 pullRequestsPage cursor))
    (repo_PullRequests q) (pull_request_pages P q) →
  Forall (pull_request_served client fuel P)
    (all (repo_PullRequests q) (pull_request_pages P q)) →
  lands (downloadPullRequests client fuel owner name q h s) tt
    (fun s' =>
       updated s s' owner name
         (with_prs r (foldl (file_pull_request P) prs
                        (all (repo_PullRequests q) (pull_request_pages P q))))).
Proof.
  intros Hr Hprs Hmore Hserved. unfold downloadPullRequests.
  set (Inv := fun done s' =>
                updated s s' owner name
                  (with_prs r (foldl (file_pull_request P) prs done))).
  assert (steps (pull_request_served client fuel P) Inv
            (fun pr =>
               wrap "failed to process PR %v/%v #%v: %v"
                 (downloadPullRequests_process client fuel owner name pr)))
    as Hstep.
  { intros done x h' s' Hx Hinv. unfold Inv in *.
    assert (store.repo_at s' owner name
            = Some (with_prs r (foldl (file_pull_request P) prs done))) as Hr'
      by (by rewrite Hinv, decide_True).
    apply lands_wrap. eapply lands_weaken.
    - by apply (pull_request_processed owner name x _ _ h' s' Hr' eq_refl).
    - intros s2 Hup. cbv beta in Hup. rewrite foldl_app. simpl.
      by eapply store_laws.updated_trans. }
  apply (walk_threads fuel (pull_request_served client fuel P) Inv _ _ _
           (fun cursor =>
              query client (QPullRequests (repo_Id (repo_Fields q))
                              pullRequestsPage cursor)));
    try done.
  unfold Inv. simpl. rewrite store_laws.with_prs_same by done.
  by apply store_laws.updated_refl.
Qed.

(** **** The issues *)
Lemma issue_comments_printed owner name issue more h s :
  handed fuel (fun cursor =>
                 query client (QIssueComments (issue_Id issue) issueCommentsPage
                                 cursor))
    (issue_Comments issue) more →
  lands (downloadIssueComments client fuel owner name issue h s) tt
    (fun s' => store.Repos s' = store.Repos s).
Proof.
  intros Hmore. unfold downloadIssueComments.
  apply (walk_threads fuel (fun _ => True)
           (fun _ s' => store.Repos s' = store.Repos s) _ _ _
           (fun cursor =>
              query client (QIssueComments (issue_Id issue) issueCommentsPage cursor))
           _ more);
    try done.
  by apply Forall_true.
Qed.

Lemma issue_processed owner name issue h s :
  issue_served client fuel P issue →
  lands (downloadIssues_process client fuel owner name issue h s) tt
    (fun s' => store.Repos s' = store.Repos s).
Proof.
  intros ([HA HAfuel] & [HL HLfuel] & HC). unfold downloadIssues_process.
  eapply lands_bind. eapply lands_weaken;
    [exact (lands_same _ _ _
              (walks.downloadIssueAssignees_collects fuel client issue
                 (issue_assignee_pages P issue) h s HA HAfuel))|].
  intros s0 -> h1. eapply lands_bind. eapply lands_weaken;
    [exact (lands_same _ _ _
              (walks.downloadIssueLabels_collects fuel client issue
                 (issue_label_pages P issue) h1 s HL HLfuel))|].
  intros s0 -> h2. apply (lands_bind _ _ _ _ tt). apply lands_call; [done|].
  intros h3.
  eapply lands_weaken;
    [by apply (issue_comments_printed owner name issue
                 (issue_comment_pages P issue))|].
  by intros s2 ->.
Qed.

Lemma issues_printed owner name q h s :
  handed fuel (fun cursor =>
                 query client (QIssues (repo_Id (repo_Fields q)) issuesPage cursor))
    (repo_Issues q) (issue_pages P q) →
  Forall (issue_served client fuel P) (all (repo_Issues q) (issue_pages P q)) →
  lands (downloadIssues client fuel owner name q h s) tt
    (fun s' => store.Repos s' = store.Repos s).
Proof.
  intros Hmore Hserved. unfold downloadIssues.
  apply (walk_threads fuel (issue_served client fuel P)
           (fun _ s' => store.Repos s' = store.Repos s) _ _ _
           (fun cursor =>
              query client (QIssues (repo_Id (repo_Fields q)) issuesPage cursor))
           _ (issue_pages P q));
    try done.
  - intros done x h' s' Hx Hinv. apply lands_wrap.
    eapply lands_weaken; [by apply issue_processed|].
    intros s2 ->. done.
  - intros done x h' s' Hx Hinv. apply lands_wrap.
    eapply lands_weaken; [by apply issue_processed|].
    intros s2 ->. done.
Qed.

(** **** The repository *)
Lemma repository_downloaded owner name q h s :
  (∀ h', client h' (QRepository owner name) = inr q) →
  Login (repo_Owner (repo_Fields q)) = owner → repo_Name (repo_Fields q) = name →
  repository_served client fuel P q →
  sound s →
  lands ((q <- wrap "first query failed: %v" (query client (QRepository owner name)) ;;
          topics <- downloadTopics client fuel q ;;
          wrap "failed to save repository %v: %v"
            (call (CSaveRepository (repo_Fields q) topics)) ;;;
          downloadIssues client fuel owner name q ;;;
          downloadPullRequests client fuel owner name q) h s) tt
    (fun s' => updated s s' owner name (stored_repository P q)).
Proof.
  intros Hclient Howner Hname ([HT HTfuel] & HI & Hissues & HP & Hprs) Hs.
  apply (lands_bind _ _ _ _ q).
  { apply lands_wrap. unfold query. rewrite Hclient. split; [done|]. simpl.
    intros h1.
    set (topics := map (fun n => topic_Name (rt_Topic n))
                     (Nodes (repo_RepositoryTopics q) ++ concat (topic_pages P q))).
    apply (lands_bind _ _ _ _ topics).
    eapply lands_weaken;
      [exact (lands_same _ _ _
                (walks.downloadTopics_collects fuel client q (topic_pages P q)
                   h1 s HT HTfuel))|].
    intros s0 -> h2.
    destruct (mem.SaveRepository_sound s (repo_Fields q) topics Hs) as [HOK _].
    apply (lands_bind _ _ _ _ tt). apply lands_wrap, lands_call; [done|].
    apply store_laws.SaveRepository_effect in HOK as Hup1.
    rewrite Howner, Hname in Hup1.
    set (s1 := (invoke (CSaveRepository (repo_Fields q) topics) s).1) in *.
    intros h3. apply (lands_bind _ _ _ _ tt).
    eapply lands_weaken; [by apply issues_printed|].
    intros s2 Hs2 h4. cbv beta in Hs2.
    apply store_laws.same_Repos_unchanged in Hs2.
    eapply lands_weaken.
    { apply (pull_requests_stored owner name q
               {| store.RepositoryFields_of := repo_Fields q;
                  store.Topics := topics; store.PRs := gomap.make |} ∅);
        [|done|done|done].
      by rewrite Hs2, Hup1, decide_True. }
    intros s3 Hup3. cbv beta in Hup3.
    intros o n. rewrite Hup3.
    destruct (decide (o = owner ∧ n = name)) as [_|Hne]; [done|].
    rewrite Hs2, Hup1. by rewrite decide_False. }
Qed.

(** *** The entries of a map that was filled in order *)
Lemma filed_other {A B} (key : A → Z) (val : A → B) l (g : gmap Z B) k :
  k ∉ map key l →
  foldl (fun g a => <[key a := val a]> g) g l !! k = g !! k.
Proof.
  revert g. induction l as [|a l IH]; intros g Hk; simpl; [done|].
  simpl in Hk. rewrite not_elem_of_cons in Hk. destruct Hk as [Hne Hk].
  rewrite IH by done. by rewrite lookup_insert_ne.
Qed.

Lemma filed_last {A B} (key : A → Z) (val : A → B) l (g : gmap Z B) x :
  NoDup (map key l) → x ∈ l →
  foldl (fun g a => <[key a := val a]> g) g l !! key x = Some (val x).
Proof.
  revert g. induction l as [|a l IH]; intros g Hnd Hx; simpl.
  - by apply elem_of_nil in Hx.
  - simpl in Hnd. apply NoDup_cons in Hnd as [Ha Hnd].
    apply elem_of_cons in Hx as [->|Hx].
    + rewrite filed_other by done. by rewrite lookup_insert_eq.
    + by apply IH.
Qed.

(** X14.  [downloadPullRequestComments] into the in-memory store, for a
    pull request that is in the store: when the client hands over the pages
    of comments, the walk returns [nil] and the pull request holds the
    comments it had, then those of the first page, then those of every page
    fetched, in order.  No other pull request is touched. *)
Theorem Mem_pull_request_comments_stored owner name pr more p h (s : store.Mem) :
  store.pr_at s owner name (pr_Number pr) = Some p →
  handed fuel (fun cursor =>
                 query client (QPullRequestComments (pr_Id pr) issueCommentsPage
                                 cursor))
    (pr_Comments pr) more →
  out (downloadPullRequestComments client fuel owner name pr h s) = Ret tt
  ∧ store.pr_at (final (downloadPullRequestComments client fuel owner name pr h s))
      owner name (pr_Number pr)
    = Some (with_comments p (Nodes (pr_Comments pr) ++ concat more))
  ∧ ∀ o n k, ¬ (o = owner ∧ n = name ∧ k = pr_Number pr) →
             store.pr_at (final (downloadPullRequestComments client fuel owner name
                                   pr h s)) o n k
             = store.pr_at s o n k.
Proof.
  intros Hp Hmore.
  destruct (comments_stored owner name pr more p h s Hp Hmore) as [Hout Hput].
  split; [done|]. split; [by eapply store_laws.put_pr_pr_at|].
  intros o n k Hne. apply store_laws.put_pr_updated_pr in Hput as [_ Hpr].
  rewrite Hpr. by rewrite decide_False.
Qed.

(** X15.  [downloadReviewComments] into the in-memory store, for a review
    that is in the store: when the client hands over the pages of its
    comments, the walk returns [nil] and the review holds the comments it
    had, then those of the first page, then those of every page fetched,
    in order.  No other review is touched. *)
Theorem Mem_review_comments_stored owner name k review more rv h (s : store.Mem) :
  store.review_at s owner name k (rev_DatabaseId review) = Some rv →
  handed fuel (fun cursor =>
                 query client (QPullRequestReviewComments (rev_Id review)
                                 pullRequestReviewCommentsPage cursor))
    (rev_Comments review) more →
  out (downloadReviewComments client fuel owner name k review h s) = Ret tt
  ∧ store.review_at (final (downloadReviewComments client fuel owner name k review h s))
      owner name k (rev_DatabaseId review)
    = Some (with_review_comments rv (Nodes (rev_Comments review) ++ concat more))
  ∧ ∀ o n k' id, ¬ (o = owner ∧ n = name ∧ k' = k ∧ id = rev_DatabaseId review) →
                 store.review_at (final (downloadReviewComments client fuel owner name
                                           k review h s)) o n k' id
                 = store.review_at s o n k' id.
Proof.
  intros Hrv Hmore.
  destruct (store_laws.review_at_Some_pr _ _ _ _ _ _ Hrv)
    as (p & revs & Hp & Hrevs & Hid).
  destruct (review_comments_stored owner name k review more p revs rv h s
              Hp Hrevs Hid Hmore) as [Hout Hput].
  split; [done|].
  apply store_laws.put_pr_updated_pr in Hput.
  pose proof (store_laws.updated_pr_review_at _ _ _ _ _ _ Hput) as Hat.
  split.
  - rewrite Hat, decide_True by done. simpl. by rewrite lookup_insert_eq.
  - intros o n k' id Hne. rewrite Hat.
    destruct (decide (o = owner ∧ n = name ∧ k' = k)) as [(-> & -> & ->)|]; [|done].
    simpl. rewrite lookup_insert_ne by (intros <-; by apply Hne).
    by rewrite (store_laws.review_at_of_pr _ _ _ _ _ _ Hp), Hrevs.
Qed.

(** X16.  [downloadPullRequestReviews] into the in-memory store, for a
    pull request that is in the store: when the client hands over the pages
    of reviews and, for each review, the pages of its comments, the walk
    returns [nil] and every review is filed under its [DatabaseId] with all
    its comments in order.  The reviews are filed one after the other, so
    that of two reviews with the same id the later one stays; a review
    filed before under an id that does not come up is kept. *)
Theorem Mem_reviews_stored owner name pr p revs h (s : store.Mem) :
  store.pr_at s owner name (pr_Number pr) = Some p → store.Reviews p = Some revs →
  handed fuel (fun cursor =>
                 query client (QPullRequestReviews (pr_Id pr) pullRequestReviewsPage
                                 cursor))
    (pr_Reviews pr) (review_pages P pr) →
  Forall (review_served client fuel P) (all (pr_Reviews pr) (review_pages P pr)) →
  out (downloadPullRequestReviews client fuel owner name pr h s) = Ret tt
  ∧ store.pr_at (final (downloadPullRequestReviews client fuel owner name pr h s))
      owner name (pr_Number pr)
    = Some (with_reviews p
              (foldl (file_review P) revs (all (pr_Reviews pr) (review_pages P pr))))
  ∧ (NoDup (map rev_DatabaseId (all (pr_Reviews pr) (review_pages P pr))) →
     ∀ rv, rv ∈ all (pr_Reviews pr) (review_pages P pr) →
           store.review_at (final (downloadPullRequestReviews client fuel owner name
                                     pr h s))
             owner name (pr_Number pr) (rev_DatabaseId rv)
           = Some (stored_review P rv))
  ∧ (∀ id, id ∉ map rev_DatabaseId (all (pr_Reviews pr) (review_pages P pr)) →
           store.review_at (final (downloadPullRequestReviews client fuel owner name
                                     pr h s))
             owner name (pr_Number pr) id
           = revs !! id).
Proof.
  intros Hp Hrevs Hmore Hserved.
  destruct (reviews_stored owner name pr p revs h s Hp Hrevs Hmore Hserved)
    as [Hout Hput].
  apply store_laws.put_pr_pr_at in Hput.
  split; [done|]. split; [done|]. split.
  - intros Hnd rv Hrv. rewrite (store_laws.review_at_of_pr _ _ _ _ _ _ Hput).
    simpl. by apply (filed_last rev_DatabaseId (stored_review P)).
  - intros id Hid. rewrite (store_laws.review_at_of_pr _ _ _ _ _ _ Hput).
    simpl. by apply (filed_other rev_DatabaseId (stored_review P)).
Qed.

(** X17.  The closure [process] of [downloadPullRequests] into the
    in-memory store, for a repository that is in the store: when the client
    hands over every page below the pull request, it returns [nil] and the
    pull request is in the store under its number, with all its assignees
    and labels, all its comments in order and its reviews filed by id.
    What was stored under that number before is replaced; no other pull
    request is touched. *)
Theorem Mem_pull_request_stored owner name pr r prs h (s : store.Mem) :
  store.repo_at s owner name = Some r → store.PRs r = Some prs →
  pull_request_served client fuel P pr →
  out (downloadPullRequests_process client fuel owner name pr h s) = Ret tt
  ∧ store.pr_at (final (downloadPullRequests_process client fuel owner name pr h s))
      owner name (pr_Number pr)
    = Some (stored_pull_request P pr)
  ∧ ∀ o n k, ¬ (o = owner ∧ n = name ∧ k = pr_Number pr) →
             store.pr_at (final (downloadPullRequests_process client fuel owner name
                                   pr h s)) o n k
             = store.pr_at s o n k.
Proof.
  intros Hr Hprs Hserved.
  destruct (pull_request_processed owner name pr r prs h s Hr Hprs Hserved)
    as [Hout Hup].
  assert (put_pr s (final (downloadPullRequests_process client fuel owner name pr h s))
            owner name (pr_Number pr) (stored_pull_request P pr)) as Hput
    by (by exists r, prs).
  split; [done|]. split; [by eapply store_laws.put_pr_pr_at|].
  intros o n k Hne. apply store_laws.put_pr_updated_pr in Hput as [_ Hpr].
  rewrite Hpr. by rewrite decide_False.
Qed.

(** X18.  [downloadPullRequests] into the in-memory store, for a
    repository that is in the store: when the client hands over the pages
    of pull requests and every page below each pull request, the walk
    returns [nil] and the pull requests are filed under their numbers, one
    after the other.  When the numbers are distinct each pull request is in
    the store as GitHub holds it; what was stored under another number, or
    for another repository, is as it was. *)
Theorem Mem_pull_requests_stored owner name q r prs h (s : store.Mem) :
  store.repo_at s owner name = Some r → store.PRs r = Some prs →
  handed fuel (fun cursor =>
                 query client (QPullRequests (repo_Id (repo_Fields q))
                                 pullRequestsPage cursor))
    (repo_PullRequests q) (pull_request_pages P q) →
  Forall (pull_request_served client fuel P)
    (all (repo_PullRequests q) (pull_request_pages P q)) →
  out (downloadPullRequests client fuel owner name q h s) = Ret tt
  ∧ (NoDup (map pr_Number (all (repo_PullRequests q) (pull_request_pages P q))) →
     ∀ pr, pr ∈ all (repo_PullRequests q) (pull_request_pages P q) →
           store.pr_at (final (downloadPullRequests client fuel owner name q h s))
             owner name (pr_Number pr)
           = Some (stored_pull_request P pr))
  ∧ (∀ k, k ∉ map pr_Number (all (repo_PullRequests q) (pull_request_pages P q)) →
          store.pr_at (final (downloadPullRequests client fuel owner name q h s))
            owner name k
          = store.pr_at s owner name k)
  ∧ (∀ o n, ¬ (o = owner ∧ n = name) →
            store.repo_at (final (downloadPullRequests client fuel owner name q h s))
              o n
            = store.repo_at s o n).
Proof.
  intros Hr Hprs Hmore Hserved.
  destruct (pull_requests_stored owner name q r prs h s Hr Hprs Hmore Hserved)
    as [Hout Hup].
  split; [done|].
  assert (∀ k, store.pr_at (final (downloadPullRequests client fuel owner name q h s))
                 owner name k
               = foldl (file_pull_request P) prs
                   (all (repo_PullRequests q) (pull_request_pages P q)) !! k)
    as Hat.
  { intros k. unfold store.pr_at, store.prs_at. by rewrite Hup, decide_True. }
  split; [|split].
  - intros Hnd pr Hpr. rewrite Hat.
    by apply (filed_last pr_Number (stored_pull_request P)).
  - intros k Hk. rewrite Hat.
    rewrite (filed_other pr_Number (stored_pull_request P)) by done.
    unfold store.pr_at, store.prs_at. by rewrite Hr, Hprs.
  - intros o n Hne. rewrite Hup. by rewrite decide_False.
Qed.

(** X19.  [downloadIssues] into the in-memory store: when the client
    hands over the pages of issues and, for each issue, the pages of its
    assignees, labels and comments, the walk returns [nil]; the issues and
    their comments are printed, and [Repos] is as it was. *)
Theorem Mem_issues_are_only_printed owner name q h (s : store.Mem) :
  handed fuel (fun cursor =>
                 query client (QIssues (repo_Id (repo_Fields q)) issuesPage cursor))
    (repo_Issues q) (issue_pages P q) →
  Forall (issue_served client fuel P) (all (repo_Issues q) (issue_pages P q)) →
  out (downloadIssues client fuel owner name q h s) = Ret tt
  ∧ store.Repos (final (downloadIssues client fuel owner name q h s))
    = store.Repos s.
Proof. intros Hmore Hserved. by apply issues_printed. Qed.

Lemma DownloadRepository_lands owner name v q h s :
  (∀ h', client h' (QRepository owner name) = inr q) →
  Login (repo_Owner (repo_Fields q)) = owner → repo_Name (repo_Fields q) = name →
  repository_served client fuel P q →
  sound s →
  lands (DownloadRepository client fuel owner name v h s) tt
    (fun s' => updated s s' owner name (stored_repository P q)).
Proof.
  intros Hclient Howner Hname Hserved Hs.
  destruct (download_laws.Mem_transaction
              (q <- wrap "first query failed: %v"
                      (query client (QRepository owner name)) ;;
               topics <- downloadTopics client fuel q ;;
               wrap "failed to save repository %v: %v"
                 (call (CSaveRepository (repo_Fields q) topics)) ;;;
               downloadIssues client fuel owner name q ;;;
               downloadPullRequests client fuel owner name q)
              "could not call Begin(): %v" v h s)
    as (Hout & Hfinal & _).
  cbv zeta in Hout, Hfinal.
  fold (DownloadRepository client fuel owner name v h s) in Hout, Hfinal.
  destruct (repository_downloaded owner name q
              ((h ++ [EvCall (CVersion v) OK]) ++ [EvCall CBegin OK])
              s Hclient Howner Hname Hserved Hs) as [Hbody Hup].
  split; [by rewrite Hout|]. by rewrite Hfinal.
Qed.

(** X20.  [GetMemStore] returns what GitHub holds.  When the client
    answers the root query with a repository that carries the owner login
    and the name asked for, and hands over every page below it, [GetMemStore]
    returns a store that holds exactly that repository: its fields, all its
    topics, and its pull requests filed by number, each with all its
    assignees, labels, comments and reviews.  Issues leave nothing in the
    store. *)
Theorem GetMemStore_returns_the_repository owner name q h :
  (∀ h', client h' (QRepository owner name) = inr q) →
  Login (repo_Owner (repo_Fields q)) = owner → repo_Name (repo_Fields q) = name →
  repository_served client fuel P q →
  ∃ m, out (getmemstore.GetMemStore client fuel owner name h) = Ret m
       ∧ ∀ o n, store.repo_at m o n
                = if decide (o = owner ∧ n = name)
                  then Some (stored_repository P q) else None.
Proof.
  intros Hclient Howner Hname Hserved.
  destruct (DownloadRepository_lands owner name 0 q h NewMemDownloader
              Hclient Howner Hname Hserved mem.NewMemDownloader_sound)
    as [Hout Hup].
  exists (final (DownloadRepository client fuel owner name 0 h NewMemDownloader)).
  split.
  - unfold getmemstore.GetMemStore. cbv zeta.
    set (r := DownloadRepository client fuel owner name 0 h NewMemDownloader) in *.
    clearbody r. simpl. by rewrite Hout.
  - intros o n. rewrite Hup. by destruct (decide (o = owner ∧ n = name)).
Qed.

(** X22.  [DownloadRepository] into an in-memory store that already holds
    repositories.  When the client answers with the repository asked for
    and hands over every page below it, the download returns [nil] and
    replaces that one repository by what GitHub holds; every other
    repository in the store is as it was.  A second download of the same
    repository returns [nil] again and leaves every repository as the first
    download left it: pull requests are not filed twice. *)
Theorem Mem_download_replaces_one_repository owner name v v' q h h' (s : store.Mem) :
  (∀ h0, client h0 (QRepository owner name) = inr q) →
  Login (repo_Owner (repo_Fields q)) = owner → repo_Name (repo_Fields q) = name →
  repository_served client fuel P q →
  sound s →
  out (DownloadRepository client fuel owner name v h s) = Ret tt
  ∧ (∀ o n, store.repo_at (final (DownloadRepository client fuel owner name v h s)) o n
            = if decide (o = owner ∧ n = name) then Some (stored_repository P q)
              else store.repo_at s o n)
  ∧ out (DownloadRepository client fuel owner name v' h'
           (final (DownloadRepository client fuel owner name v h s))) = Ret tt
  ∧ (∀ o n, store.repo_at
              (final (DownloadRepository client fuel owner name v' h'
                        (final (DownloadRepository client fuel owner name v h s))))
              o n
            = store.repo_at (final (DownloadRepository client fuel owner name v h s))
                o n).
Proof.
  intros Hclient Howner Hname Hserved Hs.
  destruct (DownloadRepository_lands owner name v q h s
              Hclient Howner Hname Hserved Hs) as [Hout Hup].
  destruct (download_laws.safe_DownloadRepository client fuel owner name v h s Hs)
    as [_ Hs1].
  destruct (DownloadRepository_lands owner name v' q h'
              (final (DownloadRepository client fuel owner name v h s))
              Hclient Howner Hname Hserved Hs1) as [Hout' Hup'].
  split; [done|]. split; [done|]. split; [done|].
  intros o n. rewrite Hup'.
  destruct (decide (o = owner ∧ n = name)) as [Hkey|Hother]; [|done].
  by rewrite Hup, decide_True.
Qed.

End into_Mem.

End contents.

(** ** Laws of the bridge *)
Module bridge_laws.
Import migrate laws.

(** *** Strings cut to a length *)

Lemma length_append (s1 s2 : string) :
  String.length (String.append s1 s2) = (String.length s1 + String.length s2)%nat.
Proof. induction s1 as [|a s1 IH]; simpl; [done|]. by rewrite IH. Qed.

Lemma length_substring (k : nat) (s : string) :
  (k ≤ String.length s)%nat → String.length (String.substring 0 k s) = k.
Proof.
  revert s. induction k as [|k IH]; intros s Hk.
  - by destruct s.
  - destruct s as [|a s]; simpl in *; [lia|]. rewrite IH; [done|lia].
Qed.

Lemma substring_append (k : nat) (s1 s2 : string) :
  (k ≤ String.length s1)%nat →
  String.substring 0 k (String.append s1 s2) = String.substring 0 k s1.
Proof.
  revert s1. induction k as [|k IH]; intros s1 Hk.
  - by destruct s1, s2.
  - destruct s1 as [|a s1]; simpl in *; [lia|]. rewrite IH; [done|lia].
Qed.

Lemma substring_all (k : nat) (s : string) :
  (String.length s ≤ k)%nat → String.substring 0 k s = s.
Proof.
  revert s. induction k as [|k IH]; intros s Hk.
  - destruct s; simpl in *; [done|lia].
  - destruct s as [|a s]; simpl in *; [done|]. rewrite IH; [done|lia].
Qed.

(** What cutting after [k] bytes, when there are more than [n], does. *)
Lemma cut_length (n k : nat) (s : string) :
  (k ≤ n)%nat →
  String.length (if (n <? String.length s)%nat
                 then String.append (String.substring 0 k s) "..." else s)
  = if (n <? String.length s)%nat then (k + 3)%nat else String.length s.
Proof.
  intros Hk. destruct (Nat.ltb_spec n (String.length s)) as [Hlong|Hshort]; [|done].
  rewrite length_append, length_substring by lia. done.
Qed.

Lemma cut_idempotent (n k : nat) (s : string) :
  (k ≤ n)%nat →
  let t := if (n <? String.length s)%nat
           then String.append (String.substring 0 k s) "..." else s in
  (if (n <? String.length t)%nat
   then String.append (String.substring 0 k t) "..." else t) = t.
Proof.
  intros Hk t.
  destruct (Nat.ltb_spec n (String.length t)) as [Hlong|Hshort]; [|done].
  subst t. destruct (Nat.ltb_spec n (String.length s)) as [Hs|Hs].
  - rewrite substring_append by (rewrite length_substring; lia).
    rewrite (substring_all k (String.substring 0 k s))
      by (rewrite length_substring; lia).
    done.
  - lia.
Qed.

Lemma trim_length (s : string) : (String.length (trim s) ≤ 1002)%nat.
Proof.
  unfold trim. rewrite (cut_length 1000 999 s) by lia.
  destruct (Nat.ltb_spec 1000 (String.length s)); lia.
Qed.

(** X10.  [trim] leaves a text of at most 1000 bytes as it is; of a longer
    text it keeps the first 999 bytes and appends three dots, so that the
    result is 1002 bytes long: never longer than that, but one byte longer
    than a text of 1001 bytes.  Trimming twice is trimming once.  The
    [trim] of the test file does the same at 40 bytes, keeping 39. *)
Theorem trim_cuts_long_texts (s : string) :
  ((String.length s ≤ 1000)%nat → trim s = s)
  ∧ ((1000 < String.length s)%nat →
     String.length (trim s) = 1002%nat
     ∧ String.substring 0 999 (trim s) = String.substring 0 999 s)
  ∧ (String.length (trim s) ≤ 1002)%nat
  ∧ trim (trim s) = trim s
  ∧ ((String.length s ≤ 40)%nat → bitbucket_test.trim s = s)
  ∧ ((40 < String.length s)%nat → String.length (bitbucket_test.trim s) = 42%nat)
  ∧ bitbucket_test.trim (bitbucket_test.trim s) = bitbucket_test.trim s.
Proof.
  split; [|split; [|split; [|split; [|split; [|split]]]]].
  - intros Hshort. unfold trim.
    destruct (Nat.ltb_spec 1000 (String.length s)); [lia|done].
  - intros Hlong. split.
    + unfold trim. rewrite (cut_length 1000 999 s) by lia.
      destruct (Nat.ltb_spec 1000 (String.length s)); [done|lia].
    + unfold trim. destruct (Nat.ltb_spec 1000 (String.length s)); [|lia].
      rewrite substring_append by (rewrite length_substring; lia).
      apply substring_all. rewrite length_substring; lia.
  - apply trim_length.
  - apply (cut_idempotent 1000 999 s). lia.
  - intros Hshort. unfold bitbucket_test.trim.
    destruct (Nat.ltb_spec 40 (String.length s)); [lia|done].
  - intros Hlong. unfold bitbucket_test.trim.
    rewrite (cut_length 40 39 s) by lia.
    destruct (Nat.ltb_spec 40 (String.length s)); [done|lia].
  - apply (cut_idempotent 40 39 s). lia.
Qed.

(** *** What the bridge sends *)
Section sending.
Variable server : Server.
Variable iteration : nat → ∀ V : Type, gmap Z V → list (Z * V).
Variable Sprintf_comment : graphql.IssueComment → string.
Variable Sprintf_review : store.PullRequestReview → string.
Variable Sprintf_review_comment : graphql.PullRequestReviewComment → string.
Variable c : Config.

Lemma sends_ret {A} good (a : A) : sends good (ret a).
Proof. intros st. exists []. simpl. rewrite app_nil_r. by repeat split. Qed.

Lemma sends_send good rq : good rq → sends good (send server rq).
Proof.
  intros Hrq st. exists [(rq, server (sent st) rq)]. unfold send. simpl.
  split; [done|]. split; [|by repeat constructor].
  destruct (server (sent st) rq) as [e|z] eqn:Ea; simpl.
  - by exists [], rq.
  - by repeat constructor.
Qed.

Lemma sends_entries {V} good (m : gomap.t Z V) : sends good (entries iteration m).
Proof. intros st. exists []. unfold entries. simpl. rewrite app_nil_r. by repeat split. Qed.

Lemma sends_bind {A C} good (m : B A) (k : A → B C) :
  sends good m → (∀ a, sends good (k a)) → sends good (bind m k).
Proof.
  intros Hm Hk st. destruct (Hm st) as (xs1 & Hsent1 & Hstop1 & Hgood1).
  unfold bind. destruct (m st) as [[e|a] st1]; simpl in *.
  - by exists xs1.
  - destruct (Hk a st1) as (xs2 & Hsent2 & Hstop2 & Hgood2).
    exists (xs1 ++ xs2). rewrite Hsent2, Hsent1, app_assoc.
    split; [done|]. split; [|by apply Forall_app].
    destruct ((k a st1).1) as [e|c']; simpl in *.
    + destruct Hstop2 as (pre & rq & -> & Hpre).
      exists (xs1 ++ pre), rq. rewrite app_assoc. split; [done|].
      by apply Forall_app.
    + by apply Forall_app.
Qed.

Lemma sends_range {N} good (nodes : list N) (body : N → B unit) :
  (∀ x, sends good (body x)) → sends good (range nodes body).
Proof.
  intros Hbody. induction nodes as [|x rest IH]; simpl.
  - apply sends_ret.
  - apply sends_bind; [apply Hbody|]. intros _. apply IH.
Qed.

Lemma comment_addressed prId text parent :
  addressed c (CreatePullRequestComment (BitBucketServerProjectKey c)
                 (GithubRepoName c) prId {| Text := trim text; Parent := parent |}).
Proof. repeat split. apply trim_length. Qed.

Lemma sends_createComments_loop prId comments result :
  sends (addressed c)
    (createComments_loop server Sprintf_comment c prId comments result).
Proof.
  revert result. induction comments as [|cm rest IH]; intros result; simpl.
  - apply sends_ret.
  - apply sends_bind; [apply sends_send, comment_addressed|].
    intros resp. apply IH.
Qed.

Lemma sends_createReviewComments prId pr :
  sends (addressed c)
    (createReviewComments server iteration Sprintf_review Sprintf_review_comment
       c prId pr).
Proof.
  unfold createReviewComments.
  apply sends_bind; [apply sends_entries|]. intros reviews.
  apply sends_range. intros [k review].
  apply sends_bind; [apply sends_send, comment_addressed|]. intros reviewResp.
  apply sends_range. intros cm.
  apply sends_bind; [apply sends_send, comment_addressed|]. intros _.
  apply sends_ret.
Qed.

Lemma sends_migratePR prId pr :
  sends (addressed c)
    (migratePR server iteration Sprintf_comment Sprintf_review
       Sprintf_review_comment c prId pr).
Proof.
  unfold migratePR.
  apply sends_bind; [by apply sends_send|]. intros bitPRId.
  apply sends_bind; [apply sends_createComments_loop|]. intros _.
  apply sends_createReviewComments.
Qed.

(** X11.  [migratePR] stops at the first request the Bitbucket server
    refuses and returns the error of that request: every request before it
    was answered, none is sent after it.  When it returns [nil], every
    request was answered.  The GitHub number of the pull request plays no
    part in it. *)
Theorem migratePR_stops_at_first_refusal prId pr st :
  (∃ xs,
     sent (migratePR server iteration Sprintf_comment Sprintf_review
             Sprintf_review_comment c prId pr st).2 = sent st ++ xs
     ∧ stops_at_refusal
         (migratePR server iteration Sprintf_comment Sprintf_review
            Sprintf_review_comment c prId pr st).1 xs)
  ∧ ∀ prId',
      migratePR server iteration Sprintf_comment Sprintf_review
        Sprintf_review_comment c prId' pr st
      = migratePR server iteration Sprintf_comment Sprintf_review
          Sprintf_review_comment c prId pr st.
Proof.
  split; [|done].
  destruct (sends_migratePR prId pr st) as (xs & Hsent & Hstop & _).
  by exists xs.
Qed.

Lemma migrate_body_sends prId pr st :
  (migrate_body server iteration Sprintf_comment Sprintf_review
     Sprintf_review_comment c prId pr st).1 = inr tt
  ∧ ∃ xs,
      sent (migrate_body server iteration Sprintf_comment Sprintf_review
              Sprintf_review_comment c prId pr st).2 = sent st ++ xs
      ∧ Forall (fun x => addressed c x.1) xs.
Proof.
  unfold migrate_body.
  destruct (decide (pr_State (store.PullRequest_of pr) = "OPEN")).
  - destruct (sends_migratePR prId pr st) as (xs & Hsent & _ & Hgood).
    destruct (migratePR _ _ _ _ _ _ _ _ _) as [res st']. simpl in *.
    split; [done|]. by exists xs.
  - split; [done|]. exists []. by rewrite app_nil_r.
Qed.

Lemma migrate_range_sends (prs : list (Z * store.PullRequest)) st :
  (range prs (fun '(prId, pr) =>
     migrate_body server iteration Sprintf_comment Sprintf_review
       Sprintf_review_comment c prId pr) st).1 = inr tt
  ∧ ∃ xs,
      sent (range prs (fun '(prId, pr) =>
              migrate_body server iteration Sprintf_comment Sprintf_review
                Sprintf_review_comment c prId pr) st).2 = sent st ++ xs
      ∧ Forall (fun x => addressed c x.1) xs.
Proof.
  revert st. induction prs as [|[prId pr] rest IH]; intros st; simpl.
  - split; [done|]. exists []. by rewrite app_nil_r.
  - unfold bind.
    destruct (migrate_body_sends prId pr st) as (Hres & xs1 & Hsent1 & Hgood1).
    destruct (migrate_body _ _ _ _ _ _ prId pr st) as [res st1]. simpl in *.
    subst res. destruct (IH st1) as (Hres2 & xs2 & Hsent2 & Hgood2).
    split; [done|]. exists (xs1 ++ xs2).
    rewrite Hsent2, Hsent1, app_assoc. split; [done|]. by apply Forall_app.
Qed.

(** X12.  [migrate] fails only when the repository of the configuration
    is not in the store, and then sends nothing.  Once the repository is
    found it returns [nil] whatever the Bitbucket server answers: the error
    of a pull request that could not be migrated is logged and dropped. *)
Theorem migrate_fails_only_without_repository (m : store.Mem) st :
  match store.repo_at m (GithubRepoOwner c) (GithubRepoName c) with
  | None =>
      ∃ e, migrate server iteration Sprintf_comment Sprintf_review
             Sprintf_review_comment c m st = (inl e, st)
  | Some _ =>
      (migrate server iteration Sprintf_comment Sprintf_review
         Sprintf_review_comment c m st).1 = inr tt
  end.
Proof.
  unfold migrate.
  destruct (store.repo_at m (GithubRepoOwner c) (GithubRepoName c)) as [repo|].
  - unfold bind, entries. simpl. apply migrate_range_sends.
  - by eexists.
Qed.

(** X13.  Every request [migrate] sends goes to the project key and the
    repository name of the configuration, and the text of every comment
    it posts is at most 1002 bytes long. *)
Theorem migrate_requests_are_addressed (m : store.Mem) st :
  ∃ xs,
    sent (migrate server iteration Sprintf_comment Sprintf_review
            Sprintf_review_comment c m st).2 = sent st ++ xs
    ∧ Forall (fun x => addressed c x.1) xs.
Proof.
  unfold migrate.
  destruct (store.repo_at m (GithubRepoOwner c) (GithubRepoName c)) as [repo|].
  - unfold bind, entries. simpl.
    destruct (migrate_range_sends
                (match store.PRs repo with
                 | Some g => iteration (ranged st) store.PullRequest g
                 | None => []
                 end)
                {| sent := sent st; ranged := Datatypes.S (ranged st) |})
      as (_ & xs & Hsent & Hgood).
    by exists xs.
  - exists []. by rewrite app_nil_r.
Qed.

End sending.
End bridge_laws.

(** ** From GitHub to Bitbucket *)
Module end_to_end.
Import github runs laws remote.

Section executing.
Variable client : Client.
Variable fuel : nat.
Variable P : Pages.
Variable server : migrate.Server.
Variable iteration : nat → ∀ V : Type, gmap Z V → list (Z * V).
Variable Sprintf_comment : IssueComment → string.
Variable Sprintf_review : store.PullRequestReview → string.
Variable Sprintf_review_comment : PullRequestReviewComment → string.
Variable c : migrate.Config.

(** Go visits every entry of a map once, in some order. *)
Hypothesis iteration_visits_all :
  ∀ n V (g : gmap Z V), iteration n V g ≡ₚ map_to_list g.

(** X21.  [Execute], end to end.  When GitHub answers the root query
    with a repository under the owner login and name of the configuration
    and hands over every page below it, [Execute] returns [nil], whatever
    the Bitbucket server answers; and what it sends is one segment for each
    number under which a pull request was filed, in the order in which Go
    visits the map: nothing for a pull request that is not open, and for an
    open one the request that creates it, followed, as long as the server
    answers, by its comments and its review threads. *)
Theorem Execute_migrates_what_GitHub_holds q h st :
  (∀ h', client h' (QRepository (migrate.GithubRepoOwner c)
                        (migrate.GithubRepoName c)) = inr q) →
  Login (repo_Owner (repo_Fields q)) = migrate.GithubRepoOwner c →
  repo_Name (repo_Fields q) = migrate.GithubRepoName c →
  repository_served client fuel P q →
  command.result (command.Execute client fuel server iteration Sprintf_comment
                    Sprintf_review Sprintf_review_comment c h st) = Ret tt
  ∧ ∃ prs segs,
      prs ≡ₚ map_to_list (stored_pull_requests P q)
      ∧ migrate.sent
          (command.bitbucket
             (command.Execute client fuel server iteration Sprintf_comment
                Sprintf_review Sprintf_review_comment c h st))
        = migrate.sent st ++ concat segs
      ∧ Forall2 (bridge.segment_of Sprintf_comment Sprintf_review
                   Sprintf_review_comment c) prs segs.
Proof.
  intros Hclient Howner Hname Hserved.
  destruct (contents.DownloadRepository_lands client fuel P
              (migrate.GithubRepoOwner c) (migrate.GithubRepoName c) 0 q h
              NewMemDownloader Hclient Howner Hname Hserved
              mem.NewMemDownloader_sound) as [Hout Hup].
  unfold command.Execute, getmemstore.GetMemStore. cbv zeta.
  set (r := DownloadRepository client fuel (migrate.GithubRepoOwner c)
              (migrate.GithubRepoName c) 0 h NewMemDownloader) in *.
  clearbody r. simpl. rewrite Hout. unfold migrate.migrate.
  rewrite Hup, decide_True by done.
  destruct (bridge_order.entries_visit_all iteration iteration_visits_all
              (store.PRs (stored_repository P q)) st) as (prs & Hprs & Hperm).
  rewrite (bridge_order.bind_inr _ _ _ _ _ Hprs).
  destruct (bridge_order.migrate_range_sent server iteration Sprintf_comment
              Sprintf_review Sprintf_review_comment c iteration_visits_all prs
              {| migrate.sent := migrate.sent st;
                 migrate.ranged := Datatypes.S (migrate.ranged st) |})
    as (segs & Hsent & Hsegs).
  destruct (bridge_laws.migrate_range_sends server iteration Sprintf_comment
              Sprintf_review Sprintf_review_comment c prs
              {| migrate.sent := migrate.sent st;
                 migrate.ranged := Datatypes.S (migrate.ranged st) |})
    as (Hres & _).
  destruct (migrate.range prs _ _) as [[e|[]] st']; simpl in *; [done|].
  split; [done|]. by exists prs, segs.
Qed.

End executing.
End end_to_end.

(** ** The laws at work on the concrete repository *)
Module more_cases.
Import github runs laws remote scenario examples.

Ltac no_more_pages := split; [by apply delivers_last|simpl; lia].

(** The server hands over what [pages] says. *)
Lemma review9_served fuel prs : review_served (client "foo" prs) fuel pages review9.
Proof. no_more_pages. Qed.

Lemma pr42_served fuel prs : pull_request_served (client "foo" prs) fuel pages pr42.
Proof. repeat split; try (by apply delivers_last); try (simpl; lia). constructor. Qed.

Lemma pr7_served fuel prs : pull_request_served (client "foo" prs) fuel pages pr7.
Proof.
  repeat split; try (by apply delivers_last); try (simpl; lia).
  repeat constructor; try (by apply delivers_last). simpl. lia.
Qed.

Lemma pr8_served fuel prs : pull_request_served (client "foo" prs) fuel pages pr8.
Proof.
  repeat split; try (by apply delivers_last); try (simpl; lia).
  repeat constructor; try (by apply delivers_last). simpl. lia.
Qed.

Lemma issue1_served prs : issue_served (client "foo" prs) 3 pages issue1.
Proof.
  repeat split; try (by apply delivers_last); try (simpl; lia).
  apply (delivers_next _ _ (QIssueComments "I_1" 10 "A") page2); [done|done|].
  by apply delivers_last.
Qed.

Lemma repository_is_served :
  repository_served (client "foo" [pr42; pr7; pr8]) 3 pages
    (repository "foo" [pr42; pr7; pr8]).
Proof.
  split; [no_more_pages|]. split; [no_more_pages|]. split.
  { repeat constructor; try (by apply delivers_last); try (simpl; lia).
    apply (delivers_next _ _ (QIssueComments "I_1" 10 "A") page2); [done|done|].
    by apply delivers_last. }
  split; [no_more_pages|].
  repeat (constructor; [first [apply pr42_served|apply pr7_served|apply pr8_served]|]).
  constructor.
Qed.

Lemma Mem_calls_frame_witness :
  head_of <$> store.repo_at
                (invoke (CSavePullRequest "foo" "bar" pr42 [] []) with_repository).1
                "foo" "bar"
  = head_of <$> store.repo_at with_repository "foo" "bar".
Proof.
  apply (proj1 (store_laws.Mem_calls_frame with_repository
                  (CSavePullRequest "foo" "bar" pr42 [] []))).
  simpl. discriminate.
Defined.

Lemma Mem_save_succeeds_iff_parent_present_witness :
  (invoke (CSavePullRequestComment "foo" "bar" 7 c2) NewMemDownloader).2
  = Fail NotFound.
Proof.
  apply (store_laws.Mem_save_succeeds_iff_parent_present NewMemDownloader
           (CSavePullRequestComment "foo" "bar" 7 c2)).
  - split; [done|]. split; [done|]. intros o n r. done.
  - reflexivity.
Defined.

Lemma download_error_wraps_its_cause_witness :
  ∃ pre ev e0 rest,
    emitted (DownloadRepository flaky_client 3 "foo" "bar" 0 [] NewMemDownloader)
    = pre ++ ev :: rest
    ∧ (rest = [] ∨ ∃ st, rest = [EvCall CRollback st])
    ∧ error_of ev = Some e0
    ∧ wraps (Errorf "failed to process issue %v/%v #%v: %v"
               (Errorf "failed to query issue comments for issue #%v: %v"
                  (Opaque "unexpected query"))) e0.
Proof.
  apply (proj1 (download_laws.download_error_wraps_its_cause flaky_client 3%nat
                  "foo" "bar" 0 [] NewMemDownloader _)).
  vm_compute. reflexivity.
Defined.

Lemma Mem_download_never_panics_witness :
  out (DownloadRepository flaky_client 3 "foo" "bar" 0 [] NewMemDownloader) ≠ Panic
  ∧ sound (final (DownloadRepository flaky_client 3 "foo" "bar" 0 [] NewMemDownloader))
  ∧ out (DownloadOrganization flaky_client 3 "bar" 0 [] NewMemDownloader) ≠ Panic
  ∧ sound (final (DownloadOrganization flaky_client 3 "bar" 0 [] NewMemDownloader)).
Proof.
  apply (proj1 (download_laws.Mem_download_never_panics flaky_client 3%nat
                  "foo" "bar" 0 [] NewMemDownloader)).
  split; [done|]. split; [done|]. intros o n r. done.
Defined.

Lemma Mem_organization_is_only_printed_witness :
  ∃ pre q e0,
    emitted (DownloadOrganization nobody 3 "acme" 0 [] NewMemDownloader)
    = pre ++ [EvQuery q (Some e0); EvCall CRollback OK].
Proof.
  apply (proj2 (proj2 (download_laws.Mem_organization_is_only_printed nobody 3%nat
                         "acme" 0 [] NewMemDownloader))
           (Errorf "organization query failed: %v" (Opaque "unexpected query"))).
  vm_compute. reflexivity.
Defined.

Lemma Mem_download_keeps_the_repository_witness :
  ∃ f topics,
    EvCall (CSaveRepository f topics) OK
      ∈ emitted (DownloadRepository (client "foo" [pr42]) 3 "foo" "bar" 0 []
                   NewMemDownloader)
    ∧ head_of <$> store.repo_at
                    (final (DownloadRepository (client "foo" [pr42]) 3 "foo" "bar" 0 []
                              NewMemDownloader))
                    (Login (repo_Owner f)) (repo_Name f)
      = Some (f, topics).
Proof.
  apply (download_laws.Mem_download_keeps_the_repository (client "foo" [pr42])
           3%nat "foo" "bar" 0 [] NewMemDownloader).
  vm_compute. reflexivity.
Defined.

Lemma Execute_needs_the_names_it_asked_for_witness :
  command.result
    (command.Execute (client "Foo" [pr42]) 3 numbering by_key ic_Body
       (fun r => rev_Body (store.PullRequestReview_of r)) rc_Body config [] start)
  ≠ Ret tt
  ∧ command.bitbucket
      (command.Execute (client "Foo" [pr42]) 3 numbering by_key ic_Body
         (fun r => rev_Body (store.PullRequestReview_of r)) rc_Body config [] start)
    = start.
Proof.
  apply (download_laws.Execute_needs_the_names_it_asked_for (client "Foo" [pr42])
           3%nat numbering by_key ic_Body
           (fun r => rev_Body (store.PullRequestReview_of r)) rc_Body config [] start).
  intros h' q Hq. injection Hq as <-. simpl. discriminate.
Defined.

Lemma trim_cuts_long_texts_witness : migrate.trim "looks good" = "looks good".
Proof.
  apply (proj1 (bridge_laws.trim_cuts_long_texts "looks good")).
  simpl. lia.
Defined.

Lemma Mem_pull_request_comments_stored_witness :
  out (downloadPullRequestComments (client "foo" []) 1 "foo" "bar" pr8 [] with_pr8)
  = Ret tt
  ∧ store.Comments
    <$> store.pr_at
          (final (downloadPullRequestComments (client "foo" []) 1 "foo" "bar" pr8 []
                    with_pr8)) "foo" "bar" 8
    = Some [c3].
Proof.
  destruct (contents.Mem_pull_request_comments_stored (client "foo" []) 1%nat
              "foo" "bar" pr8 []
              {| store.PullRequest_of := pr8; store.Assignees := [];
                 store.Labels := []; store.Comments := [];
                 store.Reviews := gomap.make |} [] with_pr8)
    as (Hout & Hat & _).
  - vm_compute. reflexivity.
  - split; [by apply delivers_last|simpl; lia].
  - split; [exact Hout|]. simpl in Hat. rewrite Hat. reflexivity.
Defined.

Lemma Mem_review_comments_stored_witness :
  out (downloadReviewComments (client "foo" []) 1 "foo" "bar" 8 review9 []
         with_review9) = Ret tt
  ∧ store.review_Comments
    <$> store.review_at
          (final (downloadReviewComments (client "foo" []) 1 "foo" "bar" 8 review9 []
                    with_review9)) "foo" "bar" 8 9
    = Some [rc1].
Proof.
  destruct (contents.Mem_review_comments_stored (client "foo" []) 1%nat
              "foo" "bar" 8 review9 []
              {| store.PullRequestReview_of := review9;
                 store.review_Comments := [] |} [] with_review9)
    as (Hout & Hat & _).
  - vm_compute. reflexivity.
  - split; [by apply delivers_last|simpl; lia].
  - split; [exact Hout|]. simpl in Hat. rewrite Hat. reflexivity.
Defined.

Lemma Mem_reviews_stored_witness :
  out (downloadPullRequestReviews (client "foo" []) 1 "foo" "bar" pr8 [] with_pr8)
  = Ret tt
  ∧ store.review_at
      (final (downloadPullRequestReviews (client "foo" []) 1 "foo" "bar" pr8 []
                with_pr8)) "foo" "bar" 8 9
    = Some {| store.PullRequestReview_of := review9;
              store.review_Comments := [rc1] |}.
Proof.
  destruct (contents.Mem_reviews_stored (client "foo" []) 1%nat pages
              "foo" "bar" pr8
              {| store.PullRequest_of := pr8; store.Assignees := [];
                 store.Labels := []; store.Comments := [];
                 store.Reviews := gomap.make |} ∅ [] with_pr8)
    as (Hout & _ & Hat & _).
  - vm_compute. reflexivity.
  - reflexivity.
  - split; [by apply delivers_last|simpl; lia].
  - constructor; [apply review9_served|constructor].
  - split; [exact Hout|].
    refine (Hat _ review9 _).
    + unfold all. simpl. apply NoDup_singleton.
    + unfold all. simpl. apply list_elem_of_singleton. reflexivity.
Defined.

Lemma Mem_pull_request_stored_witness :
  out (downloadPullRequests_process (client "foo" []) 1 "foo" "bar" pr8 []
         with_repository) = Ret tt
  ∧ store.pr_at
      (final (downloadPullRequests_process (client "foo" []) 1 "foo" "bar" pr8 []
                with_repository)) "foo" "bar" 8
    = Some (stored_pull_request pages pr8).
Proof.
  destruct (contents.Mem_pull_request_stored (client "foo" []) 1%nat pages
              "foo" "bar" pr8
              {| store.RepositoryFields_of := fields "foo"; store.Topics := ["go"];
                 store.PRs := gomap.make |} ∅ [] with_repository)
    as (Hout & Hat & _).
  - vm_compute. reflexivity.
  - reflexivity.
  - apply pr8_served.
  - split; [exact Hout|exact Hat].
Defined.

Lemma Mem_pull_requests_stored_witness :
  out (downloadPullRequests (client "foo" [pr42; pr7; pr8]) 3 "foo" "bar"
         (repository "foo" [pr42; pr7; pr8]) [] with_repository) = Ret tt
  ∧ store.pr_at
      (final (downloadPullRequests (client "foo" [pr42; pr7; pr8]) 3 "foo" "bar"
                (repository "foo" [pr42; pr7; pr8]) [] with_repository))
      "foo" "bar" 7
    = Some (stored_pull_request pages pr7).
Proof.
  destruct (contents.Mem_pull_requests_stored (client "foo" [pr42; pr7; pr8]) 3%nat
              pages "foo" "bar" (repository "foo" [pr42; pr7; pr8])
              {| store.RepositoryFields_of := fields "foo"; store.Topics := ["go"];
                 store.PRs := gomap.make |} ∅ [] with_repository)
    as (Hout & Hat & _).
  - vm_compute. reflexivity.
  - reflexivity.
  - split; [by apply delivers_last|simpl; lia].
  - repeat (constructor;
            [first [apply pr42_served|apply pr7_served|apply pr8_served]|]).
    constructor.
  - split; [exact Hout|].
    refine (Hat _ pr7 _).
    + apply (bool_decide_unpack _). vm_compute. exact I.
    + unfold all. simpl. rewrite !elem_of_cons. auto.
Defined.

Lemma Mem_issues_are_only_printed_witness :
  out (downloadIssues (client "foo" []) 3 "foo" "bar" (repository "foo" []) []
         with_repository) = Ret tt
  ∧ store.Repos
      (final (downloadIssues (client "foo" []) 3 "foo" "bar" (repository "foo" []) []
                with_repository))
    = store.Repos with_repository.
Proof.
  apply (contents.Mem_issues_are_only_printed (client "foo" []) 3%nat pages
           "foo" "bar" (repository "foo" []) [] with_repository).
  - split; [by apply delivers_last|simpl; lia].
  - repeat constructor; try (by apply delivers_last); try (simpl; lia).
    apply (delivers_next _ _ (QIssueComments "I_1" 10 "A") page2); [done|done|].
    by apply delivers_last.
Defined.

Lemma GetMemStore_returns_the_repository_witness :
  ∃ m, out (getmemstore.GetMemStore (client "foo" [pr42; pr7; pr8]) 3 "foo" "bar" [])
       = Ret m
       ∧ ∀ o n, store.repo_at m o n
                = if decide (o = "foo" ∧ n = "bar")
                  then Some (stored_repository pages
                               (repository "foo" [pr42; pr7; pr8]))
                  else None.
Proof.
  apply (contents.GetMemStore_returns_the_repository
           (client "foo" [pr42; pr7; pr8]) 3%nat pages "foo" "bar"
           (repository "foo" [pr42; pr7; pr8]) []).
  - reflexivity.
  - reflexivity.
  - reflexivity.
  - apply repository_is_served.
Defined.

Lemma Execute_migrates_what_GitHub_holds_witness :
  command.result
    (command.Execute (client "foo" [pr42; pr7; pr8]) 3 numbering by_key ic_Body
       (fun r => rev_Body (store.PullRequestReview_of r)) rc_Body config [] start)
  = Ret tt
  ∧ ∃ prs segs,
      prs ≡ₚ map_to_list (stored_pull_requests pages
                            (repository "foo" [pr42; pr7; pr8]))
      ∧ migrate.sent
          (command.bitbucket
             (command.Execute (client "foo" [pr42; pr7; pr8]) 3 numbering by_key
                ic_Body (fun r => rev_Body (store.PullRequestReview_of r)) rc_Body
                config [] start))
        = migrate.sent start ++ concat segs
      ∧ Forall2 (bridge.segment_of ic_Body
                   (fun r => rev_Body (store.PullRequestReview_of r)) rc_Body config)
          prs segs.
Proof.
  apply (end_to_end.Execute_migrates_what_GitHub_holds
           (client "foo" [pr42; pr7; pr8]) 3%nat pages numbering by_key ic_Body
           (fun r => rev_Body (store.PullRequestReview_of r)) rc_Body config
           (fun n V g => reflexivity _)
           (repository "foo" [pr42; pr7; pr8]) [] start).
  - reflexivity.
  - reflexivity.
  - reflexivity.
  - apply repository_is_served.
Defined.

Lemma Mem_download_replaces_one_repository_witness :
  out (DownloadRepository (client "foo" [pr42; pr7; pr8]) 3 "foo" "bar" 0 []
         NewMemDownloader) = Ret tt
  ∧ out (DownloadRepository (client "foo" [pr42; pr7; pr8]) 3 "foo" "bar" 1 []
           (final (DownloadRepository (client "foo" [pr42; pr7; pr8]) 3 "foo" "bar"
                     0 [] NewMemDownloader))) = Ret tt
  ∧ ∀ o n,
      store.repo_at
        (final (DownloadRepository (client "foo" [pr42; pr7; pr8]) 3 "foo" "bar" 1 []
                  (final (DownloadRepository (client "foo" [pr42; pr7; pr8]) 3
                            "foo" "bar" 0 [] NewMemDownloader)))) o n
      = store.repo_at
          (final (DownloadRepository (client "foo" [pr42; pr7; pr8]) 3 "foo" "bar"
                    0 [] NewMemDownloader)) o n.
Proof.
  destruct (contents.Mem_download_replaces_one_repository
              (client "foo" [pr42; pr7; pr8]) 3%nat pages "foo" "bar" 0 1
              (repository "foo" [pr42; pr7; pr8]) [] [] NewMemDownloader)
    as (Hfirst & _ & Hsecond & Hsame).
  - reflexivity.
  - reflexivity.
  - reflexivity.
  - apply repository_is_served.
  - split; [done|]. split; [done|]. intros o n r. done.
  - split; [exact Hfirst|]. split; [exact Hsecond|exact Hsame].
Defined.

End more_cases.
